(** * PTT address scraper: a shallow embedding of [.github/scripts/scrape_ptt.py]

    The script walks the three cascading drop-down lists of the PTT postal
    code form (il / ilce / mahalle), normalises the labels and builds a nested
    list of records.  This development embeds the pure string functions, the
    [re] calls the script makes, and the stateful orchestration (HTTP session,
    console, file system) as a state-and-exception monad, and proves the
    properties the specification states about them. *)

From Stdlib Require Import String Ascii.
From Stdlib Require Import List NArith Arith Bool Lia.
Import ListNotations.

Set Implicit Arguments.

(** ** Python [str] values

    A Python string is a sequence of Unicode code points. *)

Definition char := N.
Definition str := list char.

Definition char_eqb (a b : char) : bool := N.eqb a b.

Fixpoint str_eqb (a b : str) : bool :=
  match a, b with
  | [], [] => true
  | x :: a', y :: b' => char_eqb x y && str_eqb a' b'
  | _, _ => false
  end.

Lemma str_eqb_eq (a b : str) : str_eqb a b = true <-> a = b.
Proof.
  revert b; induction a as [|x a IH]; intros [|y b]; simpl; split; intro H;
    try reflexivity; try discriminate.
  - apply andb_true_iff in H as [H1 H2]. apply N.eqb_eq in H1. apply IH in H2.
    now subst.
  - injection H as -> ->. apply andb_true_iff. split.
    + apply N.eqb_refl.
    + now apply IH.
Qed.

Lemma str_eqb_refl (a : str) : str_eqb a a = true.
Proof. now apply str_eqb_eq. Qed.

Lemma str_eqb_neq (a b : str) : str_eqb a b = false <-> a <> b.
Proof.
  split.
  - intros H E. apply str_eqb_eq in E. congruence.
  - intro H. destruct (str_eqb a b) eqn:E; [|reflexivity].
    apply str_eqb_eq in E. contradiction.
Qed.

(** Source literals are written as UTF-8 text and decoded to code points. *)

Fixpoint bytes_of_string (s : string) : list N :=
  match s with
  | EmptyString => []
  | String a s' => N_of_ascii a :: bytes_of_string s'
  end.

Definition cont (b : N) : N := N.land b 63.

Fixpoint utf8_decode (bs : list N) : str :=
  match bs with
  | [] => []
  | b :: r =>
      if N.ltb b 128 then b :: utf8_decode r
      else if N.ltb b 224 then
        match r with
        | b1 :: r1 => (N.land b 31 * 64 + cont b1)%N :: utf8_decode r1
        | _ => [b]
        end
      else if N.ltb b 240 then
        match r with
        | b1 :: b2 :: r2 =>
            (N.land b 15 * 4096 + cont b1 * 64 + cont b2)%N :: utf8_decode r2
        | _ => [b]
        end
      else
        match r with
        | b1 :: b2 :: b3 :: r3 =>
            (N.land b 7 * 262144 + cont b1 * 4096 + cont b2 * 64 + cont b3)%N
              :: utf8_decode r3
        | _ => [b]
        end
  end.

Definition u (s : string) : str := utf8_decode (bytes_of_string s).
Arguments u s%_string.

Definition c_lf : char := 10%N.
Definition c_space : char := 32%N.
Definition c_dquote : char := 34%N.
Definition c_amp : char := 38%N.
Definition c_minus : char := 45%N.
Definition c_slash : char := 47%N.
Definition c_lt : char := 60%N.
Definition c_gt : char := 62%N.
Definition c_backslash : char := 92%N.
Definition c_underscore : char := 95%N.

(** [c in s] for a one-character [c]. *)
Definition mem (c : char) (s : str) : bool := existsb (char_eqb c) s.

Lemma mem_In (c : char) (s : str) : mem c s = true <-> In c s.
Proof.
  unfold mem. rewrite existsb_exists. split.
  - intros (x & Hx & E). apply N.eqb_eq in E. now subst.
  - intro H. exists c. split; [assumption | apply N.eqb_refl].
Qed.

Lemma mem_app (c : char) (a b : str) : mem c (a ++ b) = mem c a || mem c b.
Proof. apply existsb_app. Qed.

(** ** Character classes

    [str.isspace], which [str.strip], [str.split] and the pattern [\s] of a
    [str] regular expression share (Py_UNICODE_ISSPACE). *)

Definition is_space (c : char) : bool :=
  (N.leb 9 c && N.leb c 13) || (N.leb 28 c && N.leb c 32)
  || N.eqb c 133 || N.eqb c 160 || N.eqb c 5760
  || (N.leb 8192 c && N.leb c 8202)
  || N.eqb c 8232 || N.eqb c 8233 || N.eqb c 8239 || N.eqb c 8287
  || N.eqb c 12288.

Definition is_ascii_digit (c : char) : bool := N.leb 48 c && N.leb c 57.
Definition is_ascii_upper (c : char) : bool := N.leb 65 c && N.leb c 90.
Definition is_ascii_lower (c : char) : bool := N.leb 97 c && N.leb c 122.

(** The class [[a-zA-Z0-9_]]. *)
Definition is_word_ascii (c : char) : bool :=
  is_ascii_lower c || is_ascii_upper c || is_ascii_digit c
  || N.eqb c c_underscore.

Definition any_char (_ : char) : bool := true.
Definition not_char (x : char) (c : char) : bool := negb (char_eqb c x).

(** ** The [re] module, for the patterns the script uses

    Every repetition in the script's patterns is over a one-character class,
    so the backtracking matcher is structural: on the pattern, and on the
    subject for the repetitions.  A continuation receives the rest of the
    subject and the groups captured so far; returning [None] makes the matcher
    backtrack into the next alternative, in the order [re] tries them. *)

Inductive regex : Type :=
| Lit (l : str)                    (* a run of literal characters *)
| Cls (p : char -> bool)           (* one character of a class *)
| StarG (p : char -> bool)         (* [p*], greedy *)
| StarL (p : char -> bool)         (* [p*?], lazy *)
| Seq (r1 r2 : regex)
| Group (n : nat) (r : regex)      (* capturing group number [n] *)
| Eol.                             (* [$] without MULTILINE *)

Definition PlusG (p : char -> bool) : regex := Seq (Cls p) (StarG p).

Fixpoint Times (n : nat) (r : regex) : regex :=
  match n with
  | O => Lit []
  | S O => r
  | S n' => Seq r (Times n' r)
  end.

Definition caps := list (nat * str).

Fixpoint group (cs : caps) (n : nat) : option str :=
  match cs with
  | [] => None
  | (m, s) :: cs' => if Nat.eqb m n then Some s else group cs' n
  end.

Fixpoint strip_prefix (l s : str) : option str :=
  match l, s with
  | [], _ => Some s
  | x :: l', y :: s' => if char_eqb x y then strip_prefix l' s' else None
  | _ :: _, [] => None
  end.

Section Matcher.
Variable R : Type.

Fixpoint starG (p : char -> bool) (s : str) (k : str -> option R) : option R :=
match s with
| c :: s' =>
    if p c then
      match starG p s' k with
      | Some r => Some r
      | None => k s
      end
    else k s
| [] => k []
end.

Fixpoint starL (p : char -> bool) (s : str) (k : str -> option R) : option R :=
match k s with
| Some r => Some r
| None =>
    match s with
    | c :: s' => if p c then starL p s' k else None
    | [] => None
    end
end.

(** [$] matches at the end of the subject and before a final line feed. *)
Definition at_eol (s : str) : bool :=
match s with
| [] => true
| [c] => char_eqb c c_lf
| _ => false
end.

Fixpoint rmatch (r : regex) (s : str) (cs : caps)
       (k : str -> caps -> option R) {struct r} : option R :=
match r with
| Lit l =>
    match strip_prefix l s with
    | Some s' => k s' cs
    | None => None
    end
| Cls p =>
    match s with
    | c :: s' => if p c then k s' cs else None
    | [] => None
    end
| StarG p => starG p s (fun s' => k s' cs)
| StarL p => starL p s (fun s' => k s' cs)
| Seq r1 r2 => rmatch r1 s cs (fun s' cs' => rmatch r2 s' cs' k)
| Group n r1 =>
    rmatch r1 s cs
      (fun s' cs' =>
         k s' ((n, firstn (length s - length s') s) :: cs'))
| Eol => if at_eol s then k s cs else None
end.
End Matcher.

(** A match anchored at the head of [s]: the rest of the subject after the
    match and the captured groups.  [must_advance] refuses the empty match, as
    [re] does right after an empty match at the same position. *)
Definition match_at (r : regex) (must_advance : bool) (s : str)
  : option (str * caps) :=
  rmatch r s []
    (fun s' cs =>
       if must_advance && Nat.eqb (length s') (length s) then None
       else Some (s', cs)).

(** [re.search]: the leftmost position with a match; the result is the text
    before the match, the rest after it, and the groups. *)
Fixpoint search_from (r : regex) (before : str) (s : str)
  : option (str * str * caps) :=
  match match_at r false s with
  | Some (rest, cs) => Some (rev before, rest, cs)
  | None =>
      match s with
      | [] => None
      | c :: s' => search_from r (c :: before) s'
      end
  end.

Definition search (r : regex) (s : str) : option (str * str * caps) :=
  search_from r [] s.

(** The scan that [re.sub] and [re.findall] share.  [skip] counts the
    characters of the subject still inside the match found last.  [f] turns
    the groups of a match (group 0 is the whole match) into the output for
    it, [lit] is what an unmatched character contributes. *)
Section Scan.
Variable A : Type.
Variable r : regex.
Variable on_match : caps -> list A.
Variable on_char : char -> list A.

Definition whole (s rest : str) (cs : caps) : caps :=
(O, firstn (length s - length rest) s) :: cs.

Fixpoint scan (s : str) (skip : nat) : list A :=
match s with
| [] =>
    match skip with
    | O =>
        match match_at r false [] with
        | Some (rest, cs) => on_match (whole [] rest cs)
        | None => []
        end
    | S _ => []
    end
| c :: s' =>
    match skip with
    | S n => scan s' n
    | O =>
        match match_at r false s with
        | Some (rest, cs) =>
            match length s - length rest with
            | O =>
                (* an empty match: look for a non-empty one here, else
                   the character is passed over *)
                on_match (whole s rest cs) ++
                match match_at r true s with
                | Some (rest', cs') =>
                    on_match (whole s rest' cs') ++
                    scan s' (length s - length rest' - 1)
                | None => on_char c ++ scan s' O
                end
            | S n => on_match (whole s rest cs) ++ scan s' n
            end
        | None => on_char c ++ scan s' O
        end
    end
end.
End Scan.

(** A replacement template: literal text and group references. *)
Inductive titem : Type :=
| TLit (l : str)
| TGroup (n : nat).

Definition expand_item (cs : caps) (t : titem) : str :=
  match t with
  | TLit l => l
  | TGroup n => match group cs n with Some g => g | None => [] end
  end.

Definition expand (tpl : list titem) (cs : caps) : str :=
  flat_map (expand_item cs) tpl.

(** [re.sub(pattern, repl, s)]. *)
Definition re_sub (r : regex) (tpl : list titem) (s : str) : str :=
  scan r (expand tpl) (fun c => [c]) s O.

(** [re.findall] for a pattern with exactly two groups: a list of pairs. *)
Definition findall2 (r : regex) (s : str) : list (str * str) :=
  scan r
    (fun cs =>
       match group cs 1, group cs 2 with
       | Some a, Some b => [(a, b)]
       | _, _ => []
       end)
    (fun _ => []) s O.

(** ** [str] methods the script calls *)

(** [s.strip()] *)
Fixpoint lstrip (s : str) : str :=
  match s with
  | c :: s' => if is_space c then lstrip s' else s
  | [] => []
  end.

Definition rstrip (s : str) : str := rev (lstrip (rev s)).
Definition strip (s : str) : str := rstrip (lstrip s).

(** [s.split()]: the maximal runs of non-space characters.  [cur] holds the
    word being read, reversed. *)
Definition flush (cur : str) : list str :=
  match cur with
  | [] => []
  | _ :: _ => [rev cur]
  end.

Fixpoint split_go (s : str) (cur : str) : list str :=
  match s with
  | [] => flush cur
  | c :: s' =>
      if is_space c then flush cur ++ split_go s' []
      else split_go s' (c :: cur)
  end.

Definition split (s : str) : list str := split_go s [].

(** [sep.join(l)] *)
Fixpoint join (sep : str) (l : list str) : str :=
  match l with
  | [] => []
  | [w] => w
  | w :: l' => w ++ sep ++ join sep l'
  end.

(** [s.replace(old, new)] for a one-character [old]. *)
Definition replace_char (old : char) (new : str) (s : str) : str :=
  flat_map (fun c => if char_eqb c old then new else [c]) s.

(** [str(n)] for a non-negative integer. *)
Fixpoint str_of_uint (d : Decimal.uint) : str :=
  match d with
  | Decimal.Nil => []
  | Decimal.D0 d' => 48%N :: str_of_uint d'
  | Decimal.D1 d' => 49%N :: str_of_uint d'
  | Decimal.D2 d' => 50%N :: str_of_uint d'
  | Decimal.D3 d' => 51%N :: str_of_uint d'
  | Decimal.D4 d' => 52%N :: str_of_uint d'
  | Decimal.D5 d' => 53%N :: str_of_uint d'
  | Decimal.D6 d' => 54%N :: str_of_uint d'
  | Decimal.D7 d' => 55%N :: str_of_uint d'
  | Decimal.D8 d' => 56%N :: str_of_uint d'
  | Decimal.D9 d' => 57%N :: str_of_uint d'
  end.

Definition str_of_nat (n : nat) : str := str_of_uint (Nat.to_uint n).

(** The format [{n:02d}]. *)
Definition fmt_02d (n : nat) : str :=
  let d := str_of_nat n in
  match d with
  | [_] => 48%N :: d
  | _ => d
  end.

(** What reading a text file with [open(path, 'r')] makes of its line ends:
    a carriage return, with the line feed that follows it if there is one,
    becomes a line feed. *)
Definition c_cr : char := 13%N.

Fixpoint universal_newlines (s : str) : str :=
  match s with
  | [] => []
  | c :: s' =>
      if char_eqb c c_cr then
        c_lf ::
        match s' with
        | d :: s'' =>
            if char_eqb d c_lf then universal_newlines s''
            else universal_newlines s'
        | [] => []
        end
      else c :: universal_newlines s'
  end.

(** ** Records of the output tree *)

Record neighborhood : Type := {
  mahalle_id : str;
  mahalle_adi : str;
  posta_kodu : option str
}.

Record district : Type := {
  ilce_id : str;
  ilce_adi : str;
  mahalleler : list neighborhood
}.

Record province : Type := {
  il_id : str;
  il_adi : str;
  ilceler : list district
}.

(** ** The session, the console and the file system *)

(** The form fields of a POST, in the order the script writes them; a value
    is [None] when the script passes Python's [None]. *)
Definition form := list (str * option str).

Inductive request : Type :=
| GET (url : str)
| POST (url : str) (data : form).

(** What stands at a path: a regular file, which holds the text that its
    bytes are in UTF-8 or, for bytes that are not UTF-8, the message of the
    error that decoding them raises; or a directory. *)
Inductive content : Type :=
| Text (text : str)
| Undecodable (message : str)
| Directory.

Inductive exn : Type :=
| HTTPError
| Exception (msg : str).

Inductive result (A : Type) : Type :=
| Ok (a : A)
| Raise (e : exn).
Arguments Raise {A} e.

(** A [datetime]; the type keeps the month between 1 and 12. *)
Record datetime : Type := {
  dt_year : nat; dt_month : nat; dt_day : nat; dt_hour : nat; dt_minute : nat;
  dt_month_ok : (1 <=? dt_month) && (dt_month <=? 12) = true
}.

Definition BASE_URL : str := u "https://postakodu.ptt.gov.tr".

(** The Turkish lower-case table, a [dict] from one-character strings. *)
Definition TURKISH_LOWERCASE : list (char * str) :=
  [ (304%N, u "i");     (* İ *)
    (73%N, [305%N]);    (* I -> ı *)
    (286%N, [287%N]);   (* Ğ -> ğ *)
    (350%N, [351%N]);   (* Ş -> ş *)
    (199%N, [231%N]);   (* Ç -> ç *)
    (214%N, [246%N]);   (* Ö -> ö *)
    (220%N, [252%N]) ]. (* Ü -> ü *)

Fixpoint dict_get (d : list (char * str)) (c : char) : option str :=
  match d with
  | [] => None
  | (k, v) :: d' => if char_eqb k c then Some v else dict_get d' c
  end.

Definition falsy (o : option str) : bool :=
  match o with
  | None => true
  | Some [] => true
  | Some (_ :: _) => false
  end.

(** ** The scraper

    What the script takes from its environment is a parameter here: the
    Unicode tables outside ASCII ([str.lower] and the decimal digits of
    [\d]), the character-reference substitution of [html.unescape], the web
    server behind the session and the clock. *)

Class Env : Type := {
  unicode_lower : char -> str;       (* [c.lower()] outside ASCII *)
  unicode_decimal : char -> bool;    (* [\d] outside ASCII *)
  charref_sub : str -> str;          (* [html.unescape] on text with [&] *)
  World : Type;                      (* the server and the clock *)
  http : request -> World -> option str * World;
  clock : World -> datetime
}.

Section Scraper.
Context {E : Env}.

(** [c.lower()] for a one-character string. *)
Definition py_lower (c : char) : str :=
if is_ascii_upper c then [(c + 32)%N]
else if N.ltb c 128 then [c]
else unicode_lower c.

(** The class [\d] of a [str] pattern. *)
Definition is_digit (c : char) : bool :=
if N.ltb c 128 then is_ascii_digit c else unicode_decimal c.

(** [html.unescape(s)]: the text itself when it holds no ampersand. *)
Definition html_unescape (s : str) : str :=
if mem c_amp s then charref_sub s else s.

(** *** Text normalisation *)

Definition lower_rest (rest : str) : str :=
fold_left
  (fun rest_lowercased c =>
     match dict_get TURKISH_LOWERCASE c with
     | Some l => rest_lowercased ++ l
     | None => rest_lowercased ++ py_lower c
     end)
  rest [].

Definition capitalize_first_letter (text : str) : str :=
let words := split (strip text) in
let capitalized_words :=
  fold_left
    (fun acc word =>
       match word with
       | [] => acc
       | first_char :: rest => acc ++ [first_char :: lower_rest rest]
       end)
    words [] in
join [c_space] capitalized_words.

Definition clean_text (text : str) : str :=
let text := html_unescape text in
let text := strip text in
let text := re_sub (PlusG is_space) [TLit [c_space]] text in
capitalize_first_letter text.

Definition clean_id (id_str : str) : str :=
let id_str :=
  replace_char c_slash [c_underscore]
    (replace_char c_backslash [c_underscore] id_str) in
re_sub (Cls (fun c => negb (is_word_ascii c))) [] id_str.

(** *** The hidden state fields *)

Definition field_pattern (name : str) : regex :=
Seq (Lit (name ++ [c_dquote] ++ u " value=" ++ [c_dquote]))
  (Seq (Group 1 (PlusG (not_char c_dquote))) (Lit [c_dquote])).

Definition group1 (m : option (str * str * caps)) : option str :=
match m with
| Some (_, _, cs) => group cs 1
| None => None
end.

Definition extract_viewstate_and_validation (html : str)
: option str * option str :=
let viewstate_match := search (field_pattern (u "__VIEWSTATE")) html in
let eventvalidation_match :=
  search (field_pattern (u "__EVENTVALIDATION")) html in
(group1 viewstate_match, group1 eventvalidation_match).

(** *** The list parsers *)

(** The drop-down list named [NAME]: the name and its closing quote, then
  [.*?>(.*?)</select>] with DOTALL. *)
Definition select_pattern (name : str) : regex :=
Seq (Lit (name ++ [c_dquote]))
  (Seq (StarL any_char)
     (Seq (Lit [c_gt])
        (Seq (Group 1 (StarL any_char)) (Lit (u "</select>"))))).

Definition option_open : str := u "<option value=" ++ [c_dquote].
Definition option_mid : str := [c_dquote; c_gt].
Definition option_close : str := u "</option>".

(** An option whose value is [(\d+)] and whose label is [([^<]+)]. *)
Definition digit_option_pattern : regex :=
Seq (Lit option_open)
  (Seq (Group 1 (PlusG is_digit))
     (Seq (Lit option_mid)
        (Seq (Group 2 (PlusG (not_char c_lt))) (Lit option_close)))).

(** An option whose value is a non-empty run free of double quotes and
  whose label is [([^<]+)]. *)
Definition any_option_pattern : regex :=
Seq (Lit option_open)
  (Seq (Group 1 (PlusG (not_char c_dquote)))
     (Seq (Lit option_mid)
        (Seq (Group 2 (PlusG (not_char c_lt))) (Lit option_close)))).

Definition placeholder : str := [c_minus; 49%N].

Definition not_placeholder (o : str * str) : bool :=
negb (str_eqb (fst o) placeholder).

Definition province_marker : str := u "MainContent_DropDownList1".
Definition district_marker : str := u "MainContent_DropDownList2".
Definition neighborhood_marker : str := u "MainContent_DropDownList3".

Definition get_provinces (html : str) : result (list (str * str)) :=
match search (select_pattern province_marker) html with
| None => Raise (Exception (u "İl listesi bulunamadı"))
| Some (_, _, cs) =>
    let province_select :=
      match group cs 1 with Some g => g | None => [] end in
    let matches := findall2 digit_option_pattern province_select in
    Ok (filter not_placeholder matches)
end.

Definition get_districts (province_id : str) (html : str)
: list (str * str) :=
match search (select_pattern district_marker) html with
| None => []
| Some (_, _, cs) =>
    let district_select :=
      match group cs 1 with Some g => g | None => [] end in
    let matches := findall2 digit_option_pattern district_select in
    filter not_placeholder matches
end.

(** *** The state and exception monad of the scraper *)

Record state : Type := {
world : World;                   (* the server and the clock *)
sent : list (request * option str);
                                 (* the requests sent and the text each
                                    got back, oldest first; [None] is a
                                    failed request *)
console : list str;              (* the lines printed, oldest first *)
total_neighborhoods : nat;       (* [self.total_neighborhoods] *)
files : str -> option content    (* what stands at a path, if anything *)
}.

Definition M (A : Type) : Type := state -> result A * state.

Definition ret {A : Type} (a : A) : M A := fun st => (Ok a, st).

Definition raise {A : Type} (e : exn) : M A := fun st => (Raise e, st).

Definition bind {A B : Type} (m : M A) (f : A -> M B) : M B :=
fun st =>
  match m st with
  | (Ok a, st') => f a st'
  | (Raise e, st') => (Raise e, st')
  end.

Notation "x <- m ;; k" := (bind m (fun x => k))
(at level 61, m at next level, right associativity).
Notation "m ;;; k" := (bind m (fun _ => k))
(at level 61, right associativity).

Definition print (line : str) : M unit :=
fun st =>
  (Ok tt,
   {| world := world st; sent := sent st;
      console := console st ++ [line];
      total_neighborhoods := total_neighborhoods st;
      files := files st |}).

(** [time.sleep]: the pause has no effect on the result. *)
Definition sleep (seconds : nat) : M unit := ret tt.

(** A request of the session followed by [raise_for_status()] and
  [.text]. *)
Definition send (rq : request) : M str :=
fun st =>
  let (resp, w') := http rq (world st) in
  let st' :=
    {| world := w'; sent := sent st ++ [(rq, resp)];
       console := console st;
       total_neighborhoods := total_neighborhoods st;
       files := files st |} in
  match resp with
  | Some text => (Ok text, st')
  | None => (Raise HTTPError, st')
  end.

Definition count_neighborhood : M unit :=
fun st =>
  (Ok tt,
   {| world := world st; sent := sent st; console := console st;
      total_neighborhoods := total_neighborhoods st + 1;
      files := files st |}).

(** *** Neighborhoods *)

(** [(\d{5})] *)
Definition postal_code_pattern : regex := Group 1 (Times 5 (Cls is_digit)).

(** [\s*/\s*.*$] *)
Definition suffix_pattern : regex :=
Seq (StarG is_space)
  (Seq (Lit [c_slash])
     (Seq (StarG is_space) (Seq (StarG (not_char c_lf)) Eol))).

(** The body of the loop over the options: the record of one option. *)
Definition neighborhood_record (neighborhood_id neighborhood_name : str)
: neighborhood :=
let cleaned_name := clean_text neighborhood_name in
let postal_code_match := search postal_code_pattern cleaned_name in
let postal_code := group1 postal_code_match in
let cleaned_name := re_sub suffix_pattern [] cleaned_name in
let mahalle_id := clean_id neighborhood_id in
{| mahalle_id := mahalle_id;
   mahalle_adi := cleaned_name;
   posta_kodu := postal_code |}.

Fixpoint neighborhood_loop (matches : list (str * str))
       (neighborhoods : list neighborhood) : M (list neighborhood) :=
match matches with
| [] => ret neighborhoods
| (neighborhood_id, neighborhood_name) :: matches' =>
    if str_eqb neighborhood_id placeholder then
      neighborhood_loop matches' neighborhoods
    else
      count_neighborhood ;;;
      neighborhood_loop matches'
        (neighborhoods
           ++ [neighborhood_record neighborhood_id neighborhood_name])
end.

Definition neighborhood_form (viewstate eventvalidation : option str)
         (province_id district_id : str) : form :=
[ (u "__EVENTTARGET", Some (u "ctl00$MainContent$DropDownList2"));
  (u "__EVENTARGUMENT", Some []);
  (u "__VIEWSTATE", viewstate);
  (u "__EVENTVALIDATION", eventvalidation);
  (u "ctl00$MainContent$DropDownList1", Some province_id);
  (u "ctl00$MainContent$DropDownList2", Some district_id) ].

Definition get_neighborhoods (province_id district_id district_html : str)
: M (list neighborhood) :=
let (viewstate, eventvalidation) :=
  extract_viewstate_and_validation district_html in
if falsy viewstate || falsy eventvalidation then ret []
else
  let form_data :=
    neighborhood_form viewstate eventvalidation province_id district_id in
  neighborhood_html <- send (POST BASE_URL form_data) ;;
  match search (select_pattern neighborhood_marker) neighborhood_html with
  | None => ret []
  | Some (_, _, cs) =>
      let neighborhood_select :=
        match group cs 1 with Some g => g | None => [] end in
      let matches := findall2 any_option_pattern neighborhood_select in
      neighborhood_loop matches []
  end.

(** *** The orchestrator *)

Definition province_form (viewstate eventvalidation : option str)
         (province_id : str) : form :=
[ (u "__EVENTTARGET", Some (u "ctl00$MainContent$DropDownList1"));
  (u "__EVENTARGUMENT", Some []);
  (u "__VIEWSTATE", viewstate);
  (u "__EVENTVALIDATION", eventvalidation);
  (u "ctl00$MainContent$DropDownList1", Some province_id) ].

(** The update of [address_data] after a district.  [current_province] is
  one object, shared with the list once it is in it; the record here is
  its value at this point, which the list entry equals from then on, since
  every later district of the province stores it again. *)
Definition update_address_data (address_data : list province)
         (province_id : str) (current_province : province)
: list province :=
match address_data with
| [] => address_data ++ [current_province]
| _ :: _ =>
    let last_index := length address_data - 1 in
    match nth_error address_data last_index with
    | Some last_entry =>
        if str_eqb (il_id last_entry) province_id then
          firstn last_index address_data ++ [current_province]
        else address_data ++ [current_province]
    | None => address_data ++ [current_province]   (* not reached *)
    end
end.

Definition append_district (p : province) (d : district) : province :=
{| il_id := il_id p; il_adi := il_adi p; ilceler := ilceler p ++ [d] |}.

Fixpoint district_loop (province_id district_html : str)
       (total_districts : nat) (districts : list (str * str))
       (district_index : nat) (current_province : province)
       (address_data : list province) : M (list province) :=
match districts with
| [] => ret address_data
| (district_id, district_name_raw) :: districts' =>
    let district_name := clean_text district_name_raw in
    print (u "  [" ++ str_of_nat district_index ++ u "/"
             ++ str_of_nat total_districts ++ u "] " ++ district_name
             ++ u " ilçesi işleniyor...") ;;;
    neighborhoods <-
      get_neighborhoods province_id district_id district_html ;;
    let current_province :=
      append_district current_province
        {| ilce_id := district_id; ilce_adi := district_name;
           mahalleler := neighborhoods |} in
    let address_data :=
      update_address_data address_data province_id current_province in
    sleep 1 ;;;
    district_loop province_id district_html total_districts districts'
      (S district_index) current_province address_data
end.

Fixpoint province_loop (total_provinces : nat) (provinces : list (str * str))
       (province_index : nat) (viewstate eventvalidation : option str)
       (address_data : list province) : M (list province) :=
match provinces with
| [] => ret address_data
| (province_id, province_name_raw) :: provinces' =>
    let province_name := clean_text province_name_raw in
    print ([c_lf] ++ u "[" ++ str_of_nat province_index ++ u "/"
             ++ str_of_nat total_provinces ++ u "] " ++ province_name
             ++ u " ili işleniyor...") ;;;
    let form_data := province_form viewstate eventvalidation province_id in
    district_html <- send (POST BASE_URL form_data) ;;
    let (viewstate, eventvalidation) :=
      extract_viewstate_and_validation district_html in
    let districts := get_districts province_id district_html in
    let total_districts := length districts in
    print (u "  " ++ str_of_nat total_districts ++ u " ilçe bulundu.") ;;;
    let current_province :=
      {| il_id := province_id; il_adi := province_name; ilceler := [] |} in
    address_data <-
      district_loop province_id district_html total_districts districts 1
        current_province address_data ;;
    sleep 2 ;;;
    province_loop total_provinces provinces' (S province_index)
      viewstate eventvalidation address_data
end.

Definition lift {A : Type} (r : result A) : M A :=
match r with
| Ok a => ret a
| Raise e => raise e
end.

Definition get_total_neighborhoods : M nat :=
fun st => (Ok (total_neighborhoods st), st).

Definition scrape : M (list province) :=
print (u "PTT Adres Verisi Çekme İşlemi Başlatılıyor") ;;;
let address_data := [] in
html <- send (GET BASE_URL) ;;
provinces <- lift (get_provinces html) ;;
let total_provinces := length provinces in
print (u "Toplam " ++ str_of_nat total_provinces ++ u " il bulundu.") ;;;
let (viewstate, eventvalidation) :=
  extract_viewstate_and_validation html in
if falsy viewstate || falsy eventvalidation then
  raise (Exception (u "__VIEWSTATE veya __EVENTVALIDATION bulunamadı"))
else
  address_data <-
    province_loop total_provinces provinces 1 viewstate eventvalidation
      address_data ;;
  print ([c_lf; c_lf] ++ u "İşlem tamamlandı!") ;;;
  n <- get_total_neighborhoods ;;
  print (u "Toplam " ++ str_of_nat total_provinces ++ u " il ve "
           ++ str_of_nat n ++ u " mahalle verisi çekildi.") ;;;
  ret address_data.

(** *** The status document *)

Definition turkish_months : list str :=
[ u "Ocak"; u "Şubat"; u "Mart"; u "Nisan"; u "Mayıs"; u "Haziran";
  u "Temmuz"; u "Ağustos"; u "Eylül"; u "Ekim"; u "Kasım"; u "Aralık" ].

Definition formatted_date (now : datetime) : str :=
str_of_nat (dt_day now) ++ u " "
  ++ nth (dt_month now - 1) turkish_months [] ++ u " "
  ++ str_of_nat (dt_year now) ++ u ", "
  ++ fmt_02d (dt_hour now) ++ u ":" ++ fmt_02d (dt_minute now).

Definition stamp_heading : str := u "## 📅 Son Güncelleme".
Definition stamp_label : str := u "**Son güncelleme:**".

(** The heading, [\s*\n\s*] and the label as group 1, then [[^\n]+]. *)
Definition last_updated_pattern : regex :=
Seq
  (Group 1
     (Seq (Lit stamp_heading)
        (Seq (StarG is_space)
           (Seq (Lit [c_lf]) (Seq (StarG is_space) (Lit stamp_label))))))
  (PlusG (not_char c_lf)).

(** The replacement template of [re.sub]: a backslash and one or two digits
  is a group reference, a doubled backslash is one backslash, any other
  character stands for itself. *)
Definition digit_value (c : char) : nat := N.to_nat (c - 48).

Fixpoint parse_template (t : str) : list titem :=
match t with
| [] => []
| c :: t' =>
    if char_eqb c c_backslash then
      match t' with
      | d :: t'' =>
          if is_ascii_digit d then
            match t'' with
            | d2 :: t3 =>
                if is_ascii_digit d2 then
                  TGroup (10 * digit_value d + digit_value d2)
                    :: parse_template t3
                else TGroup (digit_value d) :: parse_template t''
            | [] => [TGroup (digit_value d)]
            end
          else if char_eqb d c_backslash then
            TLit [c_backslash] :: parse_template t''
          else TLit [c] :: parse_template t'
      | [] => [TLit [c]]
      end
    else TLit [c] :: parse_template t'
end.

(** The messages of the errors that [open] raises on a directory and on a
  missing file, for a path that [repr] writes between single quotes as it
  is. *)
Definition is_a_directory (path : str) : str :=
u "[Errno 21] Is a directory: '" ++ path ++ u "'".

Definition no_such_file (path : str) : str :=
u "[Errno 2] No such file or directory: '" ++ path ++ u "'".

(** [open(path, 'r', encoding='utf-8')] and [f.read()]: the text of the
  file with its line ends translated; reading bytes that are not UTF-8
  raises the decoding error. *)
Definition read_file (path : str) : M str :=
fun st =>
  match files st path with
  | Some (Text text) => (Ok (universal_newlines text), st)
  | Some (Undecodable message) => (Raise (Exception message), st)
  | Some Directory => (Raise (Exception (is_a_directory path)), st)
  | None => (Raise (Exception (no_such_file path)), st)
  end.

(** The state in which the file [path] holds [text]. *)
Definition store (path text : str) (st : state) : state :=
{| world := world st; sent := sent st; console := console st;
   total_neighborhoods := total_neighborhoods st;
   files :=
     fun p => if str_eqb p path then Some (Text text) else files st p |}.

(** [open(path, 'w', encoding='utf-8')] and [f.write(text)], where a line
  feed is written as it is (POSIX): the file is made or replaced, unless
  the path is a directory. *)
Definition write_file (path text : str) : M unit :=
fun st =>
  match files st path with
  | Some Directory => (Raise (Exception (is_a_directory path)), st)
  | _ => (Ok tt, store path text st)
  end.

Definition path_exists (path : str) : M bool :=
fun st =>
  (Ok (match files st path with Some _ => true | None => false end), st).

Definition datetime_now : M datetime := fun st => (Ok (clock (world st)), st).

Definition update_readme (readme_path : str) : M unit :=
found <- path_exists readme_path ;;
if negb found then
  print (u "README dosyası bulunamadı: " ++ readme_path)
else
  readme_content <- read_file readme_path ;;
  now <- datetime_now ;;
  let formatted_date := formatted_date now in
  let readme_content :=
    re_sub last_updated_pattern
      (parse_template ([c_backslash] ++ u "1 " ++ formatted_date))
      readme_content in
  write_file readme_path readme_content ;;;
  print (u "README güncellendi: Son güncelleme tarihi eklendi ("
           ++ formatted_date ++ u ")").

End Scraper.

Notation "x <- m ;; k" := (bind m (fun x => k))
  (at level 61, m at next level, right associativity).
Notation "m ;;; k" := (bind m (fun _ => k))
  (at level 61, right associativity).

(** ** Auxiliary definitions of the proofs *)

Fixpoint take_while (p : char -> bool) (s : str) : str :=
  match s with
  | c :: s' => if p c then c :: take_while p s' else []
  | [] => []
  end.

Fixpoint drop_while (p : char -> bool) (s : str) : str :=
  match s with
  | c :: s' => if p c then drop_while p s' else s
  | [] => []
  end.

(** [needle in hay] for strings. *)
Fixpoint substr (needle hay : str) : bool :=
  match strip_prefix needle hay with
  | Some _ => true
  | None =>
      match hay with
      | [] => false
      | _ :: hay' => substr needle hay'
      end
  end.

(** What a pattern can match, without the order in which [re] tries the
    alternatives: [den r s cs s' cs'] when [r] matches a prefix of [s] and
    leaves [s'], taking the groups from [cs] to [cs']. *)
Inductive den : regex -> str -> caps -> str -> caps -> Prop :=
| den_lit l s cs : den (Lit l) (l ++ s) cs s cs
| den_cls (p : char -> bool) c s cs :
    p c = true -> den (Cls p) (c :: s) cs s cs
| den_starG p a s cs : forallb p a = true -> den (StarG p) (a ++ s) cs s cs
| den_starL p a s cs : forallb p a = true -> den (StarL p) (a ++ s) cs s cs
| den_seq r1 r2 s cs s1 cs1 s2 cs2 :
    den r1 s cs s1 cs1 -> den r2 s1 cs1 s2 cs2 ->
    den (Seq r1 r2) s cs s2 cs2
| den_group n r s cs s' cs' :
    den r s cs s' cs' ->
    den (Group n r) s cs s' ((n, firstn (length s - length s') s) :: cs')
| den_eol s cs : at_eol s = true -> den Eol s cs s cs.

(** The specification's words for the normaliser: each word keeps its first
    character and the remainder is lower-cased, the seven letters of the
    table by the table and every other character by [str.lower]. *)
Section SpecNormaliser.
Context {E : Env}.

Definition spec_lower (c : char) : str :=
if N.eqb c 304 then [105%N]        (* İ -> i *)
else if N.eqb c 73 then [305%N]    (* I -> ı *)
else if N.eqb c 286 then [287%N]   (* Ğ -> ğ *)
else if N.eqb c 350 then [351%N]   (* Ş -> ş *)
else if N.eqb c 199 then [231%N]   (* Ç -> ç *)
else if N.eqb c 214 then [246%N]   (* Ö -> ö *)
else if N.eqb c 220 then [252%N]   (* Ü -> ü *)
else py_lower c.

Definition spec_title_word (w : str) : str :=
match w with
| [] => []
| first_char :: rest => first_char :: flat_map spec_lower rest
end.

Definition spec_normalize (text : str) : str :=
join [c_space] (map spec_title_word (split text)).
End SpecNormaliser.

(** The leftmost run of five digits of a label, in the specification's words
    its 5-digit numeric substring. *)
Section SpecPostalCode.
Context {E : Env}.

Definition digits5 (s : str) : bool :=
match s with
| a :: b :: c :: d :: e :: _ =>
    is_digit a && is_digit b && is_digit c && is_digit d && is_digit e
| _ => false
end.

Fixpoint first_code (s : str) : option str :=
if digits5 s then Some (firstn 5 s)
else
  match s with
  | [] => None
  | _ :: s' => first_code s'
  end.
End SpecPostalCode.

(** What the removal of the suffix leaves: the label up to the first
    position where optional white space is followed by a slash. *)
Definition slash_next (s : str) : bool :=
  match drop_while is_space s with
  | c :: _ => char_eqb c c_slash
  | [] => false
  end.

Fixpoint cut_suffix (s : str) : str :=
  match s with
  | [] => []
  | c :: s' => if slash_next s then [] else c :: cut_suffix s'
  end.

Definition no_space (c : char) : bool := negb (is_space c).

(** ** A canned server

    A small environment on which the definitions run: a root page with the
    provinces 1, 2 and 1 again, one district page and one neighborhood page,
    served whatever the state of the session.  Pages are written with single
    quotes where the markup has double quotes. *)

Definition dq (s : str) : str :=
  map (fun c => if N.eqb c 39 then c_dquote else c) s.

Definition stub_root_page : str :=
  dq (u "<input id='__VIEWSTATE' value='V0' /><input id='__EVENTVALIDATION' value='E0' /><select id='MainContent_DropDownList1'><option value='-1'>Seciniz</option><option value='1'>ADANA</option><option value='2'>ADIYAMAN</option><option value='1'>ADANA</option></select>").

Definition stub_district_page : str :=
  dq (u "<input id='__VIEWSTATE' value='V1' /><input id='__EVENTVALIDATION' value='E1' /><select id='MainContent_DropDownList2'><option value='-1'>Seciniz</option><option value='7'>MERKEZ</option></select>").

Definition stub_neighborhood_page : str :=
  dq (u "<select id='MainContent_DropDownList3'><option value='-1'>Seciniz</option><option value='12/3'>CUMHURİYET MAH   / ALADAĞ / 01720</option><option value='44'>KADIKÖY / 34710</option></select>").

Definition is_province_post (data : form) : bool :=
  match data with
  | (_, Some target) :: _ =>
      str_eqb target (u "ctl00$MainContent$DropDownList1")
  | _ => false
  end.

Definition stub_http (rq : request) (w : unit) : option str * unit :=
  match rq with
  | GET _ => (Some stub_root_page, tt)
  | POST _ data =>
      if is_province_post data then (Some stub_district_page, tt)
      else (Some stub_neighborhood_page, tt)
  end.

Definition stub_now : datetime :=
  {| dt_year := 2024; dt_month := 1; dt_day := 15; dt_hour := 14;
     dt_minute := 5; dt_month_ok := eq_refl |}.

Definition stub_env : Env :=
  {| unicode_lower := fun c => [c];
     unicode_decimal := fun _ => false;
     charref_sub := fun s => s;
     World := unit;
     http := stub_http;
     clock := fun _ => stub_now |}.

Definition stub_readme : str :=
  [35; 32; 80; 84; 84; 10]%N ++ u "## 📅 Son Güncelleme" ++ [10; 10]%N
    ++ u "**Son güncelleme:**" ++ u " 1 Ocak 2020, 00:00" ++ [10]%N
    ++ u "Veri: PTT" ++ [10]%N.

Definition stub_state : @state stub_env :=
  @Build_state stub_env tt [] [] 0
    (fun p =>
       if str_eqb p (u "README.md") then Some (Text stub_readme) else None).

(** The record of an option, as a pair. *)
Definition record_of {E : Env} (o : str * str) : neighborhood :=
  neighborhood_record (fst o) (snd o).

(** A drop-down list named [name] is in the markup: the name and its closing
    quote, later a [>] and, after it, the closing tag of the list. *)
Definition has_select_block (name html : str) : Prop :=
  exists a b c d,
    html = a ++ (name ++ [c_dquote]) ++ b ++ [c_gt] ++ c
             ++ u "</select>" ++ d.

Definition no_list_message : str := u "İl listesi bulunamadı".

(** A server that answers every request with an empty document, and a page
    cut short before the closing tag of the province list. *)
Definition bare_page : str := u "<html></html>".

Definition bare_env : Env :=
  {| unicode_lower := fun c => [c];
     unicode_decimal := fun _ => false;
     charref_sub := fun s => s;
     World := unit;
     http := fun _ w => (Some bare_page, w);
     clock := fun _ => stub_now |}.

Definition bare_state : @state bare_env :=
  @Build_state bare_env tt [] [] 0 (fun _ => None).

Definition truncated_page : str :=
  dq (u "<select id='MainContent_DropDownList1'><option value='1'>ADANA</option>").

(** ** Auxiliary definitions for the orchestrator *)

(** The province identifiers of the accumulated list after a district of the
    province [pid] was stored. *)
Definition upd_ids (ids : list str) (pid : str) : list str :=
  match ids with
  | [] => [pid]
  | _ :: _ => if str_eqb (last ids []) pid then ids else ids ++ [pid]
  end.

Inductive subseq {A : Type} : list A -> list A -> Prop :=
| subseq_nil : subseq [] []
| subseq_skip x l1 l2 : subseq l1 l2 -> subseq l1 (x :: l2)
| subseq_take x l1 l2 : subseq l1 l2 -> subseq (x :: l1) (x :: l2).

(** No two neighbours of a list are equal. *)
Fixpoint adjacent_distinct (l : list str) : Prop :=
  match l with
  | x :: (y :: _) as l' => x <> y /\ adjacent_distinct l'
  | _ => True
  end.

Section Trace.
Context {E : Env}.

(** A neighborhood submission for the province [pid] that carries the state
  tokens of the page [html]. *)
Definition hood_exchange (pid html : str) (x : request * option str) : Prop :=
exists did resp,
  x = (POST BASE_URL
         (neighborhood_form
            (fst (extract_viewstate_and_validation html))
            (snd (extract_viewstate_and_validation html)) pid did),
       resp).

(** The exchanges of the loop over the provinces: for each province its
  selection and the page that came back, then neighborhood submissions
  that all carry the tokens of that page; a failed selection ends the
  log. *)
Inductive province_blocks : list (request * option str) -> Prop :=
| blocks_nil : province_blocks []
| blocks_fail vs ev pid :
  province_blocks [(POST BASE_URL (province_form vs ev pid), None)]
| blocks_cons vs ev pid html hoods rest :
  Forall (hood_exchange pid html) hoods ->
  province_blocks rest ->
  province_blocks
    ((POST BASE_URL (province_form vs ev pid), Some html) :: hoods ++ rest).

(** The log holds a selection of the province [pid] whose page lists at
  least one district. *)
Definition has_districts (log : list (request * option str)) (pid : str)
: Prop :=
exists vs ev html,
  In (POST BASE_URL (province_form vs ev pid), Some html) log /\
  get_districts pid html <> [].
End Trace.

(** The progress lines of the loops. *)
Section Lines.
Context {E : Env}.

Definition district_line (index total : nat) (name : str) : str :=
u "  [" ++ str_of_nat index ++ u "/" ++ str_of_nat total ++ u "] "
  ++ clean_text name ++ u " ilçesi işleniyor...".

Definition province_line (index total : nat) (name : str) : str :=
[c_lf] ++ u "[" ++ str_of_nat index ++ u "/" ++ str_of_nat total ++ u "] "
  ++ clean_text name ++ u " ili işleniyor...".

Definition districts_line (html pid : str) : str :=
u "  " ++ str_of_nat (length (get_districts pid html)) ++ u " ilçe bulundu.".

End Lines.

(** A server with the provinces 1 and 2, of which the second has no
    district. *)
Definition sparse_root_page : str :=
  dq (u "<input id='__VIEWSTATE' value='V0' /><input id='__EVENTVALIDATION' value='E0' /><select id='MainContent_DropDownList1'><option value='-1'>Seciniz</option><option value='1'>ADANA</option><option value='2'>ADIYAMAN</option></select>").

Definition empty_district_page : str :=
  dq (u "<input id='__VIEWSTATE' value='V2' /><input id='__EVENTVALIDATION' value='E2' /><select id='MainContent_DropDownList2'><option value='-1'>Seciniz</option></select>").

Fixpoint form_value (data : form) (key : str) : option str :=
  match data with
  | [] => None
  | (k, v) :: data' => if str_eqb k key then v else form_value data' key
  end.

(** ** The fields of the forms in the log *)

Section Fields.
Context {E : Env}.

(** The form [data] selects the province [pid]. *)
Definition selection_of (pid : str) (data : form) : Prop :=
form_value data (u "__EVENTTARGET")
= Some (u "ctl00$MainContent$DropDownList1") /\
form_value data (u "ctl00$MainContent$DropDownList1") = Some pid.

(** The exchange [x] is the submission of a form that selects a district of
  the province [pid] and whose two state fields hold the tokens of the
  page [html]. *)
Definition token_submission (pid html : str) (x : request * option str)
: Prop :=
exists data resp,
  x = (POST BASE_URL data, resp) /\
  form_value data (u "__EVENTTARGET")
  = Some (u "ctl00$MainContent$DropDownList2") /\
  form_value data (u "__VIEWSTATE")
  = fst (extract_viewstate_and_validation html) /\
  form_value data (u "__EVENTVALIDATION")
  = snd (extract_viewstate_and_validation html) /\
  form_value data (u "ctl00$MainContent$DropDownList1") = Some pid.

(** The exchanges of the loop over the provinces, by the fields of their
  forms: the selection of a province and the page that answered it, then
  district submissions for that province that all carry the tokens of
  that page; a failed selection ends the log. *)
Inductive token_blocks : list (request * option str) -> Prop :=
| token_blocks_nil : token_blocks []
| token_blocks_fail pid data :
  selection_of pid data -> token_blocks [(POST BASE_URL data, None)]
| token_blocks_cons pid data html hoods rest :
  selection_of pid data ->
  Forall (token_submission pid html) hoods ->
  token_blocks rest ->
  token_blocks ((POST BASE_URL data, Some html) :: hoods ++ rest).

(** The submission of [get_neighborhoods] for the district [did], with the
  tokens of the page [html]. *)
Definition district_submission (pid html : str) (d : str * str) : request :=
POST BASE_URL
  (neighborhood_form (fst (extract_viewstate_and_validation html))
     (snd (extract_viewstate_and_validation html)) pid (fst d)).
End Fields.

Definition sparse_http (rq : request) (w : unit) : option str * unit :=
  match rq with
  | GET _ => (Some sparse_root_page, tt)
  | POST _ data =>
      if is_province_post data then
        match form_value data (u "ctl00$MainContent$DropDownList1") with
        | Some [50%N] => (Some empty_district_page, tt)
        | _ => (Some stub_district_page, tt)
        end
      else (Some stub_neighborhood_page, tt)
  end.

Definition sparse_env : Env :=
  {| unicode_lower := fun c => [c];
     unicode_decimal := fun _ => false;
     charref_sub := fun s => s;
     World := unit;
     http := sparse_http;
     clock := fun _ => stub_now |}.

Definition sparse_state : @state sparse_env :=
  @Build_state sparse_env tt [] [] 0 (fun _ => None).




(** ** Auxiliary definitions for the status document *)

(** A last-updated stamp starts at the head of [s]: the heading, white space
    with a line feed in it, the label, and at least one more character on
    the line of the label. *)
Definition stamp_here (s : str) : bool :=
  match strip_prefix stamp_heading s with
  | Some r =>
      mem c_lf (take_while is_space r) &&
      match strip_prefix stamp_label (drop_while is_space r) with
      | Some (c :: _) => negb (char_eqb c c_lf)
      | _ => false
      end
  | None => false
  end.

(** No stamp starts anywhere in [s]. *)
Fixpoint no_stamp (s : str) : bool :=
  negb (stamp_here s) &&
  match s with
  | [] => true
  | _ :: s' => no_stamp s'
  end.

(** No stamp starts at a position of [pre] in [pre ++ rest]. *)
Fixpoint no_stamp_in (pre rest : str) : bool :=
  match pre with
  | [] => true
  | _ :: pre' => negb (stamp_here (pre ++ rest)) && no_stamp_in pre' rest
  end.

(** The rest of a line ends here: the end of the text or a line feed. *)
Definition line_ends (s : str) : bool :=
  match s with
  | [] => true
  | c :: _ => char_eqb c c_lf
  end.

Definition missing_notice (path : str) : str :=
  u "README dosyası bulunamadı: " ++ path.

(** The first group of the stamp pattern. *)
Definition heading_pattern : regex :=
  Seq (Lit stamp_heading)
    (Seq (StarG is_space)
       (Seq (Lit [c_lf]) (Seq (StarG is_space) (Lit stamp_label)))).

(** ** Auxiliary definitions for the hidden fields and the lists *)

(** The text that opens the value of the hidden field [name]. *)
Definition field_marker (name : str) : str :=
  name ++ [c_dquote] ++ u " value=" ++ [c_dquote].

(** The markup of an option and of a drop-down list: the name of the list
    and its closing quote, the rest of the opening tag, the options and the
    closing tag. *)
Definition render_option (o : str * str) : str :=
  option_open ++ fst o ++ option_mid ++ snd o ++ option_close.

Definition render_list (name attrs : str) (opts : list (str * str)) : str :=
  (name ++ [c_dquote]) ++ attrs ++ [c_gt]
    ++ concat (map render_option opts) ++ u "</select>".

(** An option the patterns accept: a non-empty value of the class [p] and a
    non-empty label without [<]. *)
Definition well_formed (p : char -> bool) (o : str * str) : bool :=
  match fst o, snd o with
  | _ :: _, _ :: _ => forallb p (fst o) && forallb (not_char c_lt) (snd o)
  | _, _ => false
  end.

(** The occurrence of [needle] that follows [pre] is the first one: no
    occurrence starts inside [pre]. *)
Definition first_after (needle pre : str) : bool :=
  negb (substr needle (pre ++ removelast needle)).

(** The option [o] stands in the drop-down list [name] of the markup: after
    the first occurrence of the name and its closing quote, between the
    first [>] that follows it and the first closing tag after that. *)
Definition listed (name html : str) (o : str * str) : Prop :=
  exists a b c1 c2 d,
    html = a ++ (name ++ [c_dquote]) ++ b ++ [c_gt]
             ++ (c1 ++ render_option o ++ c2) ++ u "</select>" ++ d /\
    first_after (name ++ [c_dquote]) a = true /\
    mem c_gt b = false /\
    first_after (u "</select>") (c1 ++ render_option o ++ c2) = true.

(** The pattern of a drop-down list after the name and the lazy run that
    follows it. *)
Definition select_tail : regex :=
  Seq (Lit [c_gt]) (Seq (Group 1 (StarL any_char)) (Lit (u "</select>"))).

(** [l] cannot start at the head of [s], whatever follows [s]: the two
    differ at a position both have. *)
Fixpoint clash (l s : str) : bool :=
  match l, s with
  | x :: l', y :: s' => if char_eqb x y then clash l' s' else true
  | _, _ => false
  end.

(** [l] cannot start at any position of [x]. *)
Fixpoint clash_all (l x : str) : bool :=
  match x with
  | [] => true
  | _ :: x' => clash l x && clash_all l x'
  end.

(** ** Auxiliary definitions for the output tree *)

(** The number of neighborhood records of a province record and of a list
    of province records. *)
Definition hoods_in (p : province) : nat :=
  list_sum (map (fun d => length (mahalleler d)) (ilceler p)).

Definition hoods_total (l : list province) : nat :=
  list_sum (map hoods_in l).

Section Described.
Context {E : Env}.

(** The record [rec] describes a province of the parsed list as the log of
  the session has it: its identifier and normalised name, and the
  districts of the page that answered its selection, in their order. *)
Definition described (provinces : list (str * str))
         (log : list (request * option str)) (rec : province) : Prop :=
exists name vs ev html,
  In (il_id rec, name) provinces /\
  In (POST BASE_URL (province_form vs ev (il_id rec)), Some html) log /\
  il_adi rec = clean_text name /\
  map ilce_id (ilceler rec) = map fst (get_districts (il_id rec) html) /\
  map ilce_adi (ilceler rec)
  = map (fun o => clean_text (snd o)) (get_districts (il_id rec) html).
End Described.

(** The last two lines of a run that ends well. *)
Definition done_line : str := [c_lf; c_lf] ++ u "İşlem tamamlandı!".

Definition report_line (provinces neighborhoods : nat) : str :=
  u "Toplam " ++ str_of_nat provinces ++ u " il ve "
    ++ str_of_nat neighborhoods ++ u " mahalle verisi çekildi.".

Definition tokens_message : str :=
  u "__VIEWSTATE veya __EVENTVALIDATION bulunamadı".

(** ** Auxiliary definitions for the failures of a run *)

(** The request of an exchange got a response. *)
Definition answered (x : request * option str) : bool :=
  match snd x with
  | Some _ => true
  | None => false
  end.

(** How a loop of the scraper ends, given the exchanges it added to the
    log: well, with every request answered, or with a transport error
    right after the one request that failed. *)
Definition loop_outcome {A : Type} (r : result A)
           (new : list (request * option str)) : Prop :=
  match r with
  | Ok _ => forallb answered new = true
  | Raise e =>
      e = HTTPError /\
      exists rq log,
        new = log ++ [(rq, None)] /\ forallb answered log = true
  end.

(** ** Auxiliary definitions for the rewriting of the status document *)

(** The replacement that [update_readme] applies to the document, for a
    formatted date. *)
Definition restamp (date doc : str) : str :=
  re_sub last_updated_pattern
    (parse_template ([c_backslash] ++ u "1 " ++ date)) doc.

Section Updated.
Context {E : Env}.

(** The line that reports the update. *)
Definition updated_notice (now : datetime) : str :=
u "README güncellendi: Son güncelleme tarihi eklendi ("
  ++ formatted_date now ++ u ")".
End Updated.

(** Two more file systems for the canned server: one whose notes hold no
    stamp, one whose status document holds the stamp twice. *)
Definition plain_state : @state stub_env :=
  @Build_state stub_env tt [] [] 0
    (fun p =>
       if str_eqb p (u "NOTES.md") then Some (Text (u "# PTT")) else None).

Definition twice_state : @state stub_env :=
  @Build_state stub_env tt [] [] 0
    (fun p =>
       if str_eqb p (u "README.md")
       then Some (Text (stub_readme ++ stub_readme))
       else None).

(** A status document with one stamp whose lines end in a carriage return
    and a line feed, and a file system that holds it. *)
Definition crlf_readme : str :=
  [35; 32; 80; 84; 84; 13; 10]%N ++ u "## 📅 Son Güncelleme"
    ++ [13; 10; 13; 10]%N ++ u "**Son güncelleme:**"
    ++ u " 1 Ocak 2020, 00:00" ++ [13; 10]%N ++ u "Veri: PTT" ++ [13; 10]%N.

Definition crlf_state : @state stub_env :=
  @Build_state stub_env tt [] [] 0
    (fun p =>
       if str_eqb p (u "README.md") then Some (Text crlf_readme) else None).

(** ** Saving the tree and the entry point

    [json.dump(data, f, ensure_ascii=False, indent=2)] on the tree of the
    scraper: lists of dictionaries with string keys whose values are
    strings, [None] or such lists.  [os.makedirs] makes the directory
    unless it is there, and fails where a regular file has its name. *)

Definition hex_digit (n : N) : char :=
  if N.ltb n 10 then (48 + n)%N else (87 + n)%N.

(** What [encode_basestring] puts for one character: the short escapes,
    [\u00XX] for the other control characters, else the character. *)
Definition json_escape_char (c : char) : str :=
  if N.eqb c 92 then [92; 92]%N
  else if N.eqb c 34 then [92; 34]%N
  else if N.eqb c 8 then [92; 98]%N
  else if N.eqb c 12 then [92; 102]%N
  else if N.eqb c 10 then [92; 110]%N
  else if N.eqb c 13 then [92; 114]%N
  else if N.eqb c 9 then [92; 116]%N
  else if N.ltb c 32 then
    [92; 117; 48; 48; hex_digit (c / 16); hex_digit (c mod 16)]%N
  else [c].

Definition json_string (s : str) : str :=
  [c_dquote] ++ flat_map json_escape_char s ++ [c_dquote].

(** A line feed and the indentation of a nesting level. *)
Definition newline_indent (level : nat) : str :=
  c_lf :: repeat c_space (2 * level).

(** A list and a dictionary that stand at the nesting level [level], with
    their items already encoded for the level below. *)
Definition json_list (level : nat) (items : list str) : str :=
  match items with
  | [] => u "[]"
  | _ :: _ =>
      u "[" ++ newline_indent (S level)
        ++ join (u "," ++ newline_indent (S level)) items
        ++ newline_indent level ++ u "]"
  end.

Definition json_dict (level : nat) (items : list (str * str)) : str :=
  match items with
  | [] => u "{}"
  | _ :: _ =>
      u "{" ++ newline_indent (S level)
        ++ join (u "," ++ newline_indent (S level))
             (map (fun kv => json_string (fst kv) ++ u ": " ++ snd kv) items)
        ++ newline_indent level ++ u "}"
  end.

Definition json_optional (o : option str) : str :=
  match o with
  | Some s => json_string s
  | None => u "null"
  end.

Definition json_neighborhood (level : nat) (n : neighborhood) : str :=
  json_dict level
    [ (u "mahalle_id", json_string (mahalle_id n));
      (u "mahalle_adi", json_string (mahalle_adi n));
      (u "posta_kodu", json_optional (posta_kodu n)) ].

Definition json_district (level : nat) (d : district) : str :=
  json_dict level
    [ (u "ilce_id", json_string (ilce_id d));
      (u "ilce_adi", json_string (ilce_adi d));
      (u "mahalleler",
       json_list (S level)
         (map (json_neighborhood (S (S level))) (mahalleler d))) ].

Definition json_province (level : nat) (p : province) : str :=
  json_dict level
    [ (u "il_id", json_string (il_id p));
      (u "il_adi", json_string (il_adi p));
      (u "ilceler",
       json_list (S level) (map (json_district (S (S level))) (ilceler p))) ].

Definition json_dumps (data : list province) : str :=
  json_list 0 (map (json_province 1) data).

(** [os.path.join(a, b)] of [posixpath]. *)
Definition os_path_join (a b : str) : str :=
  match b with
  | c :: _ =>
      if char_eqb c c_slash then b
      else
        match a with
        | [] => a ++ b
        | _ :: _ =>
            if char_eqb (last a c_space) c_slash then a ++ b
            else a ++ [c_slash] ++ b
        end
  | [] =>
      match a with
      | [] => a ++ b
      | _ :: _ =>
          if char_eqb (last a c_space) c_slash then a ++ b
          else a ++ [c_slash] ++ b
      end
  end.

(** [str(e)]: the message of an exception raised with one; the text of a
    transport error, which the model of the session does not carry, is
    [transport_text]. *)
Definition exn_str (transport_text : str) (e : exn) : str :=
  match e with
  | HTTPError => transport_text
  | Exception msg => msg
  end.

Section Persistence.
Context {E : Env}.

(** [PTTAddressScraper()]: a scraper whose total is zero. *)
Definition init : M unit :=
fun st =>
  (Ok tt,
   {| world := world st; sent := sent st; console := console st;
      total_neighborhoods := 0; files := files st |}).

(** The state in which [path] is a directory. *)
Definition with_directory (path : str) (st : state) : state :=
{| world := world st; sent := sent st; console := console st;
   total_neighborhoods := total_neighborhoods st;
   files := fun p => if str_eqb p path then Some Directory else files st p |}.

(** [os.makedirs(path, exist_ok=True)], for a one-part path that [repr]
  writes between single quotes as it is. *)
Definition makedirs (path : str) : M unit :=
fun st =>
  match files st path with
  | Some Directory => (Ok tt, st)
  | Some _ =>
      (Raise (Exception (u "[Errno 17] File exists: '" ++ path ++ u "'")),
       st)
  | None => (Ok tt, with_directory path st)
  end.

Definition save_to_file (data : list province) (filename : str) : M unit :=
let ptt_dir := u "PTT" in
makedirs ptt_dir ;;;
let filepath := os_path_join ptt_dir filename in
write_file filepath (json_dumps data).

(** [try: ... except Exception as e: print(...); raise] *)
Definition try_report {A : Type} (transport_text : str) (body : M A) : M A :=
fun st =>
  match body st with
  | (Ok a, st') => (Ok a, st')
  | (Raise e, st') =>
      (print (u "Hata: " ++ exn_str transport_text e) ;;; raise e) st'
  end.

Definition main (transport_text : str) : M unit :=
init ;;;
try_report transport_text
  (address_data <- scrape ;;
   let filename := u "ptt_il_ilce_mahalle.json" in
   save_to_file address_data filename ;;;
   print ([c_lf] ++ u "Veriler PTT/" ++ filename
            ++ u " dosyasına kaydedildi.") ;;;
   update_readme (u "README.md")).
End Persistence.

(** ** Auxiliary definitions for the saved document *)

Definition json_path : str := u "PTT/ptt_il_ilce_mahalle.json".

(** The message of the error that [os.makedirs] raises when a regular file
    has the name PTT. *)
Definition ptt_exists_message : str :=
  u "[Errno 17] File exists: '" ++ u "PTT" ++ u "'".

Definition saved_notice : str :=
  [c_lf] ++ u "Veriler PTT/" ++ u "ptt_il_ilce_mahalle.json"
    ++ u " dosyasına kaydedildi.".

Definition error_notice (transport_text : str) (e : exn) : str :=
  u "Hata: " ++ exn_str transport_text e.

(** Reading a string literal of a JSON document back: the text after the
    opening quote, up to the closing quote that ends it. *)
Definition hex_value (c : char) : option N :=
  if N.leb 48 c && N.leb c 57 then Some (c - 48)%N
  else if N.leb 97 c && N.leb c 102 then Some (c - 87)%N
  else None.

Definition short_escape (e : char) : option char :=
  if N.eqb e 92 then Some 92%N
  else if N.eqb e 34 then Some 34%N
  else if N.eqb e 98 then Some 8%N
  else if N.eqb e 102 then Some 12%N
  else if N.eqb e 110 then Some 10%N
  else if N.eqb e 114 then Some 13%N
  else if N.eqb e 116 then Some 9%N
  else None.

Fixpoint json_decode (s : str) : option str :=
  match s with
  | [] => None
  | c :: s' =>
      if N.eqb c 34 then
        match s' with
        | [] => Some []
        | _ :: _ => None
        end
      else if N.eqb c 92 then
        match s' with
        | [] => None
        | e :: s'' =>
            if N.eqb e 117 then
              match s'' with
              | a :: b :: x :: y :: s3 =>
                  match hex_value a, hex_value b, hex_value x, hex_value y
                  with
                  | Some a', Some b', Some x', Some y' =>
                      option_map
                        (cons (((a' * 16 + b') * 16 + x') * 16 + y')%N)
                        (json_decode s3)
                  | _, _, _, _ => None
                  end
              | _ => None
              end
            else
              match short_escape e with
              | Some d => option_map (cons d) (json_decode s'')
              | None => None
              end
        end
      else option_map (cons c) (json_decode s')
  end.

Definition json_unquote (s : str) : option str :=
  match s with
  | c :: s' => if N.eqb c 34 then json_decode s' else None
  | [] => None
  end.

(** A character that a saved document may hold: a line feed or a
    character that is no control character. *)
Definition layout_char (c : char) : bool := N.eqb c 10 || N.leb 32 c.

Definition printable (c : char) : bool := N.leb 32 c.

(** * Proofs

    ** Facts about the matcher *)

Unset Implicit Arguments.


Lemma strip_prefix_app (l s : str) : strip_prefix l (l ++ s) = Some s.
Proof.
  induction l as [|x l IH]; simpl; [reflexivity|].
  unfold char_eqb. now rewrite N.eqb_refl.
Qed.

Lemma strip_prefix_some (l s s' : str) :
  strip_prefix l s = Some s' -> s = l ++ s'.
Proof.
  revert s; induction l as [|x l IH]; intros s H; simpl in *.
  - now injection H as ->.
  - destruct s as [|y s]; [discriminate|].
    unfold char_eqb in H. destruct (N.eqb_spec x y) as [->|]; [|discriminate].
    f_equal. now apply IH.
Qed.

Lemma take_drop_while (p : char -> bool) (s : str) :
  take_while p s ++ drop_while p s = s.
Proof.
  induction s as [|c s IH]; simpl; [reflexivity|].
  destruct (p c); simpl; [now rewrite IH | reflexivity].
Qed.

Lemma take_while_all (p : char -> bool) (s : str) :
  forallb p (take_while p s) = true.
Proof.
  induction s as [|c s IH]; simpl; [reflexivity|].
  destruct (p c) eqn:E; simpl; [now rewrite E | reflexivity].
Qed.

Lemma drop_while_app (p : char -> bool) (a b : str) :
  forallb p a = true -> drop_while p (a ++ b) = drop_while p b.
Proof.
  induction a as [|c a IH]; simpl; [reflexivity|].
  intro H. apply andb_true_iff in H as [-> H]. now apply IH.
Qed.

Lemma take_while_app (p : char -> bool) (a b : str) :
  forallb p a = true -> take_while p (a ++ b) = a ++ take_while p b.
Proof.
  induction a as [|c a IH]; simpl; [reflexivity|].
  intro H. apply andb_true_iff in H as [-> H]. now rewrite IH.
Qed.

Lemma drop_while_head (p : char -> bool) (c : char) (s : str) :
  p c = false -> drop_while p (c :: s) = c :: s.
Proof. intro H. simpl. now rewrite H. Qed.

Section MatcherFacts.
Variable R : Type.
Implicit Types (k : str -> option R) (p : char -> bool).

Lemma starG_sound p s k x :
starG p s k = Some x ->
exists a b, s = a ++ b /\ forallb p a = true /\ k b = Some x.
Proof.
induction s as [|c s IH]; simpl; intro H.
- exists [], []. auto.
- destruct (p c) eqn:E.
  + destruct (starG p s k) eqn:G.
    * injection H as ->. destruct (IH eq_refl) as (a & b & -> & Ha & Hk).
      exists (c :: a), b. simpl. rewrite E. auto.
    * exists [], (c :: s). auto.
  + exists [], (c :: s). auto.
Qed.

Lemma starG_complete p a b k y :
forallb p a = true -> k b = Some y ->
exists x, starG p (a ++ b) k = Some x.
Proof.
induction a as [|c a IH]; simpl; intros Ha Hk.
- destruct b as [|c b]; simpl.
  + eauto.
  + destruct (p c); [destruct (starG p b k)|]; eauto.
- apply andb_true_iff in Ha as [-> Ha].
  destruct (IH Ha Hk) as (x & ->). eauto.
Qed.

(** The greedy star first tries the longest run. *)
Lemma starG_greedy p s k x :
k (drop_while p s) = Some x -> starG p s k = Some x.
Proof.
induction s as [|c s IH]; simpl; [auto|].
destruct (p c); [|auto]. intro H. now rewrite (IH H).
Qed.

Lemma starL_sound p s k x :
starL p s k = Some x ->
exists a b, s = a ++ b /\ forallb p a = true /\ k b = Some x.
Proof.
induction s as [|c s IH]; simpl; intro H.
- destruct (k []) eqn:K; [|discriminate]. injection H as ->.
  exists [], []. auto.
- destruct (k (c :: s)) eqn:K.
  + injection H as ->. exists [], (c :: s). auto.
  + destruct (p c) eqn:E; [|discriminate].
    destruct (IH H) as (a & b & -> & Ha & Hk).
    exists (c :: a), b. simpl. rewrite E. auto.
Qed.

Lemma starL_complete p a b k y :
forallb p a = true -> k b = Some y ->
exists x, starL p (a ++ b) k = Some x.
Proof.
induction a as [|c a IH]; simpl; intros Ha Hk.
- destruct b as [|c b]; simpl; rewrite Hk; eauto.
- apply andb_true_iff in Ha as [-> Ha].
  destruct (k (c :: a ++ b)); [eauto|]. now apply IH.
Qed.

Lemma rmatch_sound r : forall s cs (k : str -> caps -> option R) x,
rmatch r s cs k = Some x ->
exists s' cs', den r s cs s' cs' /\ k s' cs' = Some x.
Proof.
induction r as [l|p|p|p|r1 IH1 r2 IH2|n r IH|]; simpl; intros s cs k x H.
- destruct (strip_prefix l s) as [s'|] eqn:P; [|discriminate].
  apply strip_prefix_some in P as ->. exists s', cs. split; [constructor | assumption].
- destruct s as [|c s]; [discriminate|]. destruct (p c) eqn:E; [|discriminate].
  exists s, cs. split; [now constructor | assumption].
- apply starG_sound in H as (a & b & -> & Ha & Hk).
  exists b, cs. split; [now constructor | assumption].
- apply starL_sound in H as (a & b & -> & Ha & Hk).
  exists b, cs. split; [now constructor | assumption].
- apply IH1 in H as (s1 & cs1 & D1 & H). apply IH2 in H as (s2 & cs2 & D2 & H).
  exists s2, cs2. split; [econstructor; eassumption | assumption].
- apply IH in H as (s' & cs' & D & H).
  eexists _, _. split; [constructor; eassumption | exact H].
- destruct (at_eol s) eqn:E; [|discriminate].
  exists s, cs. split; [now constructor | assumption].
Qed.

Lemma rmatch_complete r s cs s' cs' :
den r s cs s' cs' ->
forall (k : str -> caps -> option R) y, k s' cs' = Some y ->
exists x, rmatch r s cs k = Some x.
Proof.
induction 1 as [l s cs|p c s cs E|p a s cs Ha|p a s cs Ha
                |r1 r2 s cs s1 cs1 s2 cs2 D1 IH1 D2 IH2
                |n r s cs s' cs' D IH|s cs E]; simpl; intros k y Hk.
- rewrite strip_prefix_app. eauto.
- rewrite E. eauto.
- eapply starG_complete with (k := fun s' => k s' cs); eassumption.
- eapply starL_complete with (k := fun s' => k s' cs); eassumption.
- destruct (IH2 k y Hk) as (x2 & H2).
  exact (IH1 (fun s' cs' => rmatch r2 s' cs' k) x2 H2).
- exact (IH (fun s'0 cs'0 => k s'0 ((n, firstn (length s - length s'0) s) :: cs'0)) y Hk).
- rewrite E. eauto.
Qed.
End MatcherFacts.

Lemma den_suffix r s cs s' cs' :
  den r s cs s' cs' -> exists a, s = a ++ s'.
Proof.
  induction 1 as [l s cs|p c s cs E|p a s cs Ha|p a s cs Ha
                  |r1 r2 s cs s1 cs1 s2 cs2 D1 IH1 D2 IH2
                  |n r s cs s' cs' D IH|s cs E].
  - now exists l.
  - now exists [c].
  - now exists a.
  - now exists a.
  - destruct IH1 as (a1 & ->), IH2 as (a2 & ->). exists (a1 ++ a2). now rewrite app_assoc.
  - assumption.
  - now exists [].
Qed.

Lemma match_at_sound r s rest cs :
  match_at r false s = Some (rest, cs) -> den r s [] rest cs.
Proof.
  unfold match_at. intro H. apply rmatch_sound in H as (s' & cs' & D & H).
  simpl in H. now injection H as <- <-.
Qed.

Lemma match_at_complete r s rest cs :
  den r s [] rest cs -> exists res, match_at r false s = Some res.
Proof.
  unfold match_at. intro D.
  eapply rmatch_complete; [exact D | reflexivity].
Qed.

Lemma match_at_none r s :
  match_at r false s = None <-> (forall rest cs, ~ den r s [] rest cs).
Proof.
  split.
  - intros H rest cs D. apply match_at_complete in D as (res & D). congruence.
  - intro H. destruct (match_at r false s) as [[rest cs]|] eqn:M; [|reflexivity].
    apply match_at_sound in M. now apply H in M.
Qed.

(** ** Facts about [search] and the scan of [re.sub] and [re.findall] *)

Lemma match_at_suffix r s rest cs :
  match_at r false s = Some (rest, cs) -> exists m, s = m ++ rest.
Proof. intro H. apply match_at_sound in H. eapply den_suffix; eassumption. Qed.

Lemma search_from_none r : forall s bef,
  search_from r bef s = None <->
  (forall a b, s = a ++ b -> match_at r false b = None).
Proof.
  induction s as [|c s IH]; intro bef; simpl.
  - destruct (match_at r false []) as [[rest cs]|] eqn:M.
    + split; [discriminate|]. intro H. now rewrite (H [] [] eq_refl) in M.
    + split; [|reflexivity]. intros _ a b E.
      symmetry in E. apply app_eq_nil in E as [_ ->]. assumption.
  - destruct (match_at r false (c :: s)) as [[rest cs]|] eqn:M.
    + split; [discriminate|]. intro H. now rewrite (H [] (c :: s) eq_refl) in M.
    + rewrite IH. split; intros H a b E.
      * destruct a as [|x a]; simpl in E.
        -- now subst b.
        -- injection E as -> ->. now apply (H a b).
      * apply (H (c :: a) b). simpl. now rewrite E.
Qed.

Lemma search_from_some r : forall s bef pre rest cs,
  search_from r bef s = Some (pre, rest, cs) ->
  exists a t, s = a ++ t /\ pre = rev bef ++ a /\
    match_at r false t = Some (rest, cs) /\
    (forall a1 a2, a = a1 ++ a2 -> a2 <> [] ->
       match_at r false (a2 ++ t) = None).
Proof.
  induction s as [|c s IH]; intros bef pre rest cs; simpl.
  - destruct (match_at r false []) as [[rest' cs']|] eqn:M; [|discriminate].
    intro H. injection H as <- <- <-. exists [], [].
    split; [reflexivity|]. split; [now rewrite app_nil_r|].
    split; [assumption|]. intros a1 a2 E. symmetry in E.
    apply app_eq_nil in E as [_ ->]. congruence.
  - destruct (match_at r false (c :: s)) as [[rest' cs']|] eqn:M.
    + intro H. injection H as <- <- <-. exists [], (c :: s).
      split; [reflexivity|]. split; [now rewrite app_nil_r|].
      split; [assumption|]. intros a1 a2 E. symmetry in E.
      apply app_eq_nil in E as [_ ->]. congruence.
    + intro H. apply IH in H as (a & t & -> & -> & Ht & Hmin).
      exists (c :: a), t. split; [reflexivity|].
      split; [simpl; now rewrite <- app_assoc|]. split; [assumption|].
      intros a1 a2 E Hne. destruct a1 as [|x a1]; simpl in E.
      * subst a2. exact M.
      * injection E as -> ->. now apply Hmin with (a1 := a1).
Qed.

Lemma search_none r s :
  search r s = None <-> (forall a b, s = a ++ b -> match_at r false b = None).
Proof. apply search_from_none. Qed.

Lemma search_some r s pre rest cs :
  search r s = Some (pre, rest, cs) ->
  exists t, s = pre ++ t /\ match_at r false t = Some (rest, cs) /\
    (forall a1 a2, pre = a1 ++ a2 -> a2 <> [] ->
       match_at r false (a2 ++ t) = None).
Proof.
  intro H. apply search_from_some in H as (a & t & -> & -> & H1 & H2).
  exists t. simpl. auto.
Qed.

Lemma substr_true needle : forall hay,
  substr needle hay = true <-> (exists a b, hay = a ++ needle ++ b).
Proof.
  induction hay as [|c hay IH]; simpl.
  - destruct (strip_prefix needle []) as [s'|] eqn:P.
    + split; [|reflexivity]. intros _. apply strip_prefix_some in P.
      exists [], s'. assumption.
    + split; [discriminate|]. intros (a & b & E). symmetry in E.
      apply app_eq_nil in E as [-> E]. apply app_eq_nil in E as [-> ->].
      simpl in P; discriminate.
  - destruct (strip_prefix needle (c :: hay)) as [s'|] eqn:P.
    + split; [|reflexivity]. intros _. apply strip_prefix_some in P.
      exists [], s'. assumption.
    + rewrite IH. split.
      * intros (a & b & ->). now exists (c :: a), b.
      * intros (a & b & E). destruct a as [|x a]; simpl in E.
        -- rewrite E, strip_prefix_app in P. discriminate.
        -- injection E as -> ->. eauto.
Qed.

Lemma substr_false needle hay :
  substr needle hay = false <-> (forall a b, hay <> a ++ needle ++ b).
Proof.
  split.
  - intros H a b E. assert (T : substr needle hay = true)
      by (apply substr_true; eauto). congruence.
  - intro H. destruct (substr needle hay) eqn:S; [|reflexivity].
    apply substr_true in S as (a & b & E). now apply H in E.
Qed.

Section ScanFacts.
Variable A : Type.
Variable r : regex.
Variable on_match : caps -> list A.
Variable on_char : char -> list A.

Lemma scan_skip : forall a s,
scan r on_match on_char (a ++ s) (length a) = scan r on_match on_char s O.
Proof.
induction a as [|c a IH]; intro s; simpl; [reflexivity | apply IH].
Qed.

Lemma scan_no_match c s :
match_at r false (c :: s) = None ->
scan r on_match on_char (c :: s) O
= on_char c ++ scan r on_match on_char s O.
Proof. intro H. simpl. now rewrite H. Qed.

Lemma scan_match c s m rest cs :
match_at r false (c :: s) = Some (rest, cs) ->
c :: s = m ++ rest -> m <> [] ->
scan r on_match on_char (c :: s) O
= on_match ((O, m) :: cs) ++ scan r on_match on_char rest O.
Proof.
intros H E Hm. cbn [scan]. rewrite H. unfold whole. rewrite E.
rewrite length_app, Nat.add_sub, firstn_app, Nat.sub_diag, firstn_all.
simpl firstn. rewrite app_nil_r.
destruct m as [|x m]; [congruence|]. simpl length.
simpl in E. injection E as _ ->. f_equal. apply scan_skip.
Qed.

Lemma scan_nil_no_match :
match_at r false [] = None -> scan r on_match on_char [] O = [].
Proof. intro H. simpl. now rewrite H. Qed.
End ScanFacts.

(** ** Identifier cleaning *)

Lemma re_sub_cls (p : char -> bool) (s : str) :
  re_sub (Cls p) [] s = filter (fun c => negb (p c)) s.
Proof.
  unfold re_sub. induction s as [|c s IH].
  - reflexivity.
  - simpl filter. destruct (p c) eqn:E; simpl negb; cbv iota.
    + rewrite scan_match with (m := [c]) (rest := s) (cs := []).
      * exact IH.
      * unfold match_at. simpl. now rewrite E.
      * reflexivity.
      * discriminate.
    + rewrite scan_no_match.
      * simpl. now rewrite IH.
      * unfold match_at. simpl. now rewrite E.
Qed.

Lemma replace_char_absent (old : char) (new s : str) :
  mem old s = false -> replace_char old new s = s.
Proof.
  unfold replace_char, mem. induction s as [|c s IH]; simpl; [reflexivity|].
  intro H. apply orb_false_iff in H as [H1 H2]. unfold char_eqb in *.
  rewrite N.eqb_sym, H1. simpl. now rewrite IH.
Qed.

Lemma word_not_mem (x : char) (s : str) :
  is_word_ascii x = false -> forallb is_word_ascii s = true ->
  mem x s = false.
Proof.
  intros Hx. unfold mem. induction s as [|c s IH]; simpl; [reflexivity|].
  intro H. apply andb_true_iff in H as [Hc Hs]. rewrite (IH Hs), orb_false_r.
  unfold char_eqb. destruct (N.eqb_spec x c) as [->|]; [congruence|reflexivity].
Qed.

Lemma filter_all (p : char -> bool) (s : str) :
  forallb p s = true -> filter p s = s.
Proof.
  induction s as [|c s IH]; simpl; [reflexivity|].
  intro H. apply andb_true_iff in H as [-> H]. now rewrite IH.
Qed.

Lemma forallb_filter (p : char -> bool) (s : str) :
  forallb p (filter p s) = true.
Proof.
  induction s as [|c s IH]; simpl; [reflexivity|].
  destruct (p c) eqn:E; simpl; [now rewrite E|assumption].
Qed.

Lemma clean_id_filter (s : str) :
  clean_id s
  = filter is_word_ascii
      (replace_char c_slash [c_underscore]
         (replace_char c_backslash [c_underscore] s)).
Proof.
  unfold clean_id. rewrite re_sub_cls. apply filter_ext.
  intro c. apply negb_involutive.
Qed.

Lemma clean_id_word (s : str) : forallb is_word_ascii (clean_id s) = true.
Proof. rewrite clean_id_filter. apply forallb_filter. Qed.

Lemma clean_id_fixed (s : str) :
  forallb is_word_ascii s = true -> clean_id s = s.
Proof.
  intro H. rewrite clean_id_filter.
  rewrite (replace_char_absent c_backslash); [|now apply word_not_mem].
  rewrite (replace_char_absent c_slash); [|now apply word_not_mem].
  now apply filter_all.
Qed.

(** C3.  Identifier cleaning is idempotent: cleaning twice is cleaning once,
    and an identifier made only of the characters [a-zA-Z0-9_] is returned
    unchanged. *)
Theorem clean_id_idempotent (s : str) :
  clean_id (clean_id s) = clean_id s /\
  (forallb is_word_ascii s = true -> clean_id s = s).
Proof.
  split.
  - apply clean_id_fixed, clean_id_word.
  - apply clean_id_fixed.
Qed.

Lemma clean_id_idempotent_witness :
  clean_id (clean_id (u "12/3-a\b")) = clean_id (u "12/3-a\b") /\
  clean_id (u "mahalle_42") = u "mahalle_42".
Proof.
  split.
  - exact (proj1 (clean_id_idempotent (u "12/3-a\b"))).
  - apply (proj2 (clean_id_idempotent (u "mahalle_42"))). reflexivity.
Defined.

(** ** Text normalisation *)

Lemma lstrip_drop_while (s : str) : lstrip s = drop_while is_space s.
Proof. induction s as [|c s IH]; simpl; [|rewrite IH]; reflexivity. Qed.

Lemma drop_while_length (p : char -> bool) (s : str) :
  length (drop_while p s) <= length s.
Proof.
  induction s as [|c s IH]; simpl; [lia|]. destruct (p c); simpl; lia.
Qed.

Lemma split_go_cons (c : char) (s cur : str) :
  split_go (c :: s) cur
  = if is_space c then flush cur ++ split_go s [] else split_go s (c :: cur).
Proof. reflexivity. Qed.

Lemma split_go_spaces (ws cur : str) :
  forallb is_space ws = true -> split_go ws cur = flush cur.
Proof.
  revert cur; induction ws as [|c ws IH]; intros cur H; simpl.
  - reflexivity.
  - simpl in H. apply andb_true_iff in H as [-> H].
    rewrite (IH [] H). simpl. apply app_nil_r.
Qed.

Lemma split_go_app_spaces (s ws cur : str) :
  forallb is_space ws = true -> split_go (s ++ ws) cur = split_go s cur.
Proof.
  intro H. revert cur; induction s as [|c s IH]; intro cur; simpl.
  - now apply split_go_spaces.
  - destruct (is_space c); now rewrite IH.
Qed.

Lemma split_go_drop_spaces (s : str) :
  split_go (drop_while is_space s) [] = split_go s [].
Proof.
  induction s as [|c s IH]; simpl; [reflexivity|].
  destruct (is_space c) eqn:E; [exact IH|]. simpl. now rewrite E.
Qed.

Lemma rstrip_spec (s : str) :
  exists ws, s = rstrip s ++ ws /\ forallb is_space ws = true.
Proof.
  exists (rev (take_while is_space (rev s))). split.
  - unfold rstrip. rewrite lstrip_drop_while, <- rev_app_distr.
    now rewrite take_drop_while, rev_involutive.
  - rewrite forallb_forall. intros x Hx. apply in_rev in Hx.
    pose proof (take_while_all is_space (rev s)) as H.
    rewrite forallb_forall in H. now apply H.
Qed.

Lemma split_strip (s : str) : split (strip s) = split s.
Proof.
  unfold split, strip.
  destruct (rstrip_spec (lstrip s)) as (ws & E & Hws).
  rewrite <- (split_go_app_spaces (rstrip (lstrip s)) ws [] Hws), <- E.
  rewrite lstrip_drop_while. apply split_go_drop_spaces.
Qed.

Lemma match_at_plus (p : char -> bool) (c : char) (s : str) :
  match_at (PlusG p) false (c :: s)
  = if p c then Some (drop_while p s, []) else None.
Proof.
  unfold match_at, PlusG. simpl. destruct (p c); [|reflexivity].
  now apply starG_greedy.
Qed.

Lemma re_sub_spaces_cons (c : char) (s : str) :
  re_sub (PlusG is_space) [TLit [c_space]] (c :: s)
  = if is_space c
    then c_space :: re_sub (PlusG is_space) [TLit [c_space]]
                      (drop_while is_space s)
    else c :: re_sub (PlusG is_space) [TLit [c_space]] s.
Proof.
  unfold re_sub. destruct (is_space c) eqn:E.
  - rewrite scan_match with (m := c :: take_while is_space s)
                            (rest := drop_while is_space s) (cs := []).
    + reflexivity.
    + now rewrite match_at_plus, E.
    + simpl. now rewrite take_drop_while.
    + discriminate.
  - rewrite scan_no_match; [reflexivity|]. now rewrite match_at_plus, E.
Qed.

Lemma split_go_collapse : forall n s cur, length s <= n ->
  split_go (re_sub (PlusG is_space) [TLit [c_space]] s) cur = split_go s cur.
Proof.
  induction n as [|n IH]; intros [|c s] cur Hn; simpl in Hn; try lia;
    try reflexivity.
  rewrite re_sub_spaces_cons, (split_go_cons c s).
  destruct (is_space c) eqn:E.
  - rewrite split_go_cons.
    replace (is_space c_space) with true by reflexivity.
    rewrite IH by (pose proof (drop_while_length is_space s); lia).
    now rewrite split_go_drop_spaces.
  - rewrite split_go_cons, E. apply IH. lia.
Qed.

Lemma split_collapse (s : str) :
  split (re_sub (PlusG is_space) [TLit [c_space]] s) = split s.
Proof. apply split_go_collapse with (n := length s). lia. Qed.

Lemma split_go_nonempty : forall s cur w,
  In w (split_go s cur) -> w <> [].
Proof.
  assert (F : forall cur w, In w (flush cur) -> w <> []).
  { intros [|x cur] w; simpl; [tauto|]. intros [<-|[]] E.
    apply app_eq_nil in E as [_ E]. discriminate. }
  induction s as [|c s IH]; intros cur w; simpl.
  - apply F.
  - destruct (is_space c).
    + rewrite in_app_iff. intros [H|H]; [now apply F in H | now apply IH in H].
    + apply IH.
Qed.

Section Normaliser.
Context {E : Env}.

Lemma table_lower (c : char) :
match dict_get TURKISH_LOWERCASE c with
| Some l => l
| None => py_lower c
end = spec_lower c.
Proof.
unfold spec_lower, TURKISH_LOWERCASE, dict_get, char_eqb.
rewrite (N.eqb_sym 304 c), (N.eqb_sym 73 c), (N.eqb_sym 286 c),
  (N.eqb_sym 350 c), (N.eqb_sym 199 c), (N.eqb_sym 214 c),
  (N.eqb_sym 220 c).
repeat match goal with
       | |- context [N.eqb c ?n] => destruct (N.eqb c n)
       end; reflexivity.
Qed.

Lemma lower_rest_flat_map (rest : str) :
lower_rest rest = flat_map spec_lower rest.
Proof.
unfold lower_rest.
assert (G : forall acc,
  fold_left
    (fun rest_lowercased c =>
       match dict_get TURKISH_LOWERCASE c with
       | Some l => rest_lowercased ++ l
       | None => rest_lowercased ++ py_lower c
       end) rest acc = acc ++ flat_map spec_lower rest).
{ induction rest as [|c rest IH]; intro acc; cbn [fold_left flat_map].
  - now rewrite app_nil_r.
  - rewrite IH, <- table_lower.
    destruct (dict_get TURKISH_LOWERCASE c); now rewrite <- app_assoc. }
apply G.
Qed.

Lemma capitalized_words_map (words : list str) :
(forall w, In w words -> w <> []) ->
fold_left
  (fun acc word =>
     match word with
     | [] => acc
     | first_char :: rest => acc ++ [first_char :: lower_rest rest]
     end) words []
= map spec_title_word words.
Proof.
intro H.
assert (G : forall acc,
  fold_left
    (fun acc word =>
       match word with
       | [] => acc
       | first_char :: rest => acc ++ [first_char :: lower_rest rest]
       end) words acc = acc ++ map spec_title_word words).
{ induction words as [|w words IH]; intro acc; simpl.
  - now rewrite app_nil_r.
  - rewrite IH by (intros; apply H; now right).
    destruct w as [|c rest].
    + exfalso. apply (H []); [now left | reflexivity].
    + simpl. now rewrite lower_rest_flat_map, <- app_assoc. }
apply G.
Qed.

Lemma capitalize_first_letter_spec (text : str) :
capitalize_first_letter text = spec_normalize text.
Proof.
unfold capitalize_first_letter, spec_normalize.
rewrite split_strip, capitalized_words_map; [reflexivity|].
intros w. apply split_go_nonempty.
Qed.

Lemma clean_text_spec (text : str) :
clean_text text = spec_normalize (html_unescape text).
Proof.
unfold clean_text. rewrite capitalize_first_letter_spec.
unfold spec_normalize. now rewrite split_collapse, split_strip.
Qed.

(** C1.  Normalisation title-cases every word: the first character is kept
  and the remainder lower-cased, the table letters by the table and the
  others by [str.lower]; the all-upper-case word KADIKÖY becomes
  Kadıköy. *)
Theorem normalisation_title_cases (text : str) :
capitalize_first_letter text
= join [c_space] (map spec_title_word (split text)) /\
clean_text text
= join [c_space] (map spec_title_word (split (html_unescape text))) /\
capitalize_first_letter (u "KADIKÖY") = u "Kadıköy" /\
clean_text (u "KADIKÖY") = u "Kadıköy".
Proof.
split; [apply capitalize_first_letter_spec|].
split; [apply clean_text_spec|].
split; vm_compute; reflexivity.
Qed.
End Normaliser.

(** ** The label of a neighborhood: postal code and name *)

Lemma lstrip_app (a b : str) :
  lstrip (a ++ b) = if forallb is_space a then lstrip b else lstrip a ++ b.
Proof.
  induction a as [|c a IH]; simpl; [reflexivity|].
  destruct (is_space c); simpl; [exact IH | reflexivity].
Qed.

Lemma forallb_rev (p : char -> bool) (s : str) :
  forallb p (rev s) = forallb p s.
Proof.
  induction s as [|c s IH]; simpl; [reflexivity|].
  rewrite forallb_app, IH. simpl. rewrite andb_true_r. apply andb_comm.
Qed.

Lemma rstrip_cons (c : char) (s : str) :
  rstrip (c :: s)
  = if forallb is_space (c :: s) then [] else c :: rstrip s.
Proof.
  unfold rstrip. simpl rev. rewrite lstrip_app, forallb_rev.
  cbn [forallb]. destruct (forallb is_space s) eqn:A.
  - rewrite andb_true_r. simpl. destruct (is_space c); [reflexivity|].
    simpl. assert (L : lstrip (rev s) = []).
    { rewrite lstrip_drop_while.
      rewrite <- (app_nil_r (rev s)), drop_while_app; [reflexivity|].
      now rewrite forallb_rev. }
    now rewrite L.
  - rewrite andb_false_r, rev_app_distr. reflexivity.
Qed.

Section Label.
Context {E : Env}.

(** *** The postal code *)

Lemma match_at_postal (s : str) :
match_at postal_code_pattern false s
= if digits5 s then Some (skipn 5 s, [(1, firstn 5 s)]) else None.
Proof.
unfold match_at, postal_code_pattern.
destruct s as [|a [|b [|c [|d [|e rest]]]]]; cbn [rmatch Times digits5];
  try reflexivity;
  repeat match goal with
         | |- context [is_digit ?x] => destruct (is_digit x)
         end; try reflexivity.
cbn [andb skipn firstn length Nat.eqb].
replace (S (S (S (S (S (length rest))))) - length rest) with 5 by lia.
reflexivity.
Qed.

Lemma digits5_app (x y : str) :
5 <= length x -> digits5 (x ++ y) = digits5 x.
Proof.
destruct x as [|a [|b [|c [|d [|e x]]]]]; simpl; intro H; try lia.
reflexivity.
Qed.

Lemma digits5_code (code post : str) :
length code = 5 -> forallb is_digit code = true ->
digits5 (code ++ post) = true /\ firstn 5 (code ++ post) = code /\
skipn 5 (code ++ post) = post.
Proof.
destruct code as [|a [|b [|c [|d [|e [|f code]]]]]]; simpl; intro H;
  try discriminate.
intro D. repeat (apply andb_true_iff in D as [? D]).
repeat split. now repeat (apply andb_true_iff; split).
Qed.

Lemma first_code_none_head (c : char) (s : str) :
first_code (c :: s) = None ->
digits5 (c :: s) = false /\ first_code s = None.
Proof.
cbn [first_code]. destruct (digits5 (c :: s)); [discriminate|auto].
Qed.

Lemma search_postal (code post : str) :
length code = 5 -> forallb is_digit code = true ->
forall pre bef,
  first_code (pre ++ firstn 4 code) = None ->
  search_from postal_code_pattern bef (pre ++ code ++ post)
  = Some (rev bef ++ pre, post, [(1, code)]).
Proof.
intros L D. destruct (digits5_code code post L D) as (D5 & F5 & S5).
induction pre as [|c pre IH]; intros bef H.
- cbn [app]. destruct (code ++ post) as [|x t] eqn:T;
    cbn [search_from]; rewrite match_at_postal, D5, F5, S5;
    now rewrite app_nil_r.
- cbn [app] in *. apply first_code_none_head in H as [H5 H].
  cbn [search_from]. rewrite match_at_postal.
  replace (digits5 (c :: pre ++ code ++ post)) with false.
  + rewrite (IH (c :: bef) H). cbn [rev]. now rewrite <- app_assoc.
  + rewrite <- H5. symmetry.
    replace (c :: pre ++ code ++ post)
      with ((c :: pre ++ firstn 4 code) ++ skipn 4 code ++ post).
    * apply digits5_app. cbn [length]. rewrite length_app, length_firstn.
      lia.
    * cbn [app]. rewrite <- app_assoc, (app_assoc (firstn 4 code)).
      now rewrite firstn_skipn.
Qed.

(** *** The name *)

Lemma drop_while_not_lf_all (s : str) :
mem c_lf s = false -> drop_while (not_char c_lf) s = [].
Proof.
unfold mem. induction s as [|c s IH]; cbn [existsb drop_while];
  [reflexivity|].
intro H. apply orb_false_iff in H as [H1 H2].
unfold not_char, char_eqb in *. rewrite N.eqb_sym, H1. cbn [negb].
now apply IH.
Qed.

Lemma mem_drop_while (x : char) (p : char -> bool) (s : str) :
mem x s = false -> mem x (drop_while p s) = false.
Proof.
intro H. rewrite <- (take_drop_while p s), mem_app in H.
now apply orb_false_iff in H as [_ H].
Qed.

Lemma match_at_suffix_pattern (s : str) :
mem c_lf s = false ->
match_at suffix_pattern false s
= if slash_next s then Some ([], []) else None.
Proof.
intro LF. unfold slash_next.
destruct (drop_while is_space s) as [|c t] eqn:DW.
- apply match_at_none. intros rest cs D.
  inversion D as [| | | |r1 r2 s0 cs0 s1 cs1 s2 cs2 D1 D2| |]; subst.
  inversion D1 as [| |p a s0 cs0 Ha| | | |]; subst.
  inversion D2 as [| | | |r1 r2 s0 cs0 s3 cs3 s4 cs4 D3 D4| |]; subst.
  inversion D3; subst.
  rewrite drop_while_app in DW by assumption. discriminate.
- destruct (char_eqb c c_slash) eqn:C.
  + apply N.eqb_eq in C. subst c.
    unfold match_at, suffix_pattern. cbn [rmatch].
    apply starG_greedy. rewrite DW. cbn [strip_prefix char_eqb].
    rewrite N.eqb_refl. apply starG_greedy, starG_greedy.
    assert (M : mem c_lf t = false).
    { apply (mem_drop_while c_lf is_space) in LF. rewrite DW in LF.
      unfold mem in *. simpl in LF. exact LF. }
    rewrite drop_while_not_lf_all by now apply mem_drop_while.
    reflexivity.
  + apply match_at_none. intros rest cs D.
    inversion D as [| | | |r1 r2 s0 cs0 s1 cs1 s2 cs2 D1 D2| |]; subst.
    inversion D1 as [| |p a s0 cs0 Ha| | | |]; subst.
    inversion D2 as [| | | |r1 r2 s0 cs0 s3 cs3 s4 cs4 D3 D4| |]; subst.
    inversion D3; subst.
    rewrite drop_while_app in DW by assumption.
    simpl in DW. injection DW as <- _. unfold char_eqb in C.
    now rewrite N.eqb_refl in C.
Qed.

Lemma re_sub_suffix (s : str) :
mem c_lf s = false -> re_sub suffix_pattern [] s = cut_suffix s.
Proof.
unfold re_sub. induction s as [|c s IH]; intro LF.
- apply scan_nil_no_match. now rewrite match_at_suffix_pattern.
- assert (LF' : mem c_lf s = false).
  { unfold mem in *. cbn [existsb] in LF.
    now apply orb_false_iff in LF as [_ LF]. }
  cbn [cut_suffix]. destruct (slash_next (c :: s)) eqn:SN.
  + rewrite scan_match with (m := c :: s) (rest := []) (cs := []).
    * apply scan_nil_no_match. now rewrite match_at_suffix_pattern.
    * now rewrite match_at_suffix_pattern, SN.
    * now rewrite app_nil_r.
    * discriminate.
  + rewrite scan_no_match.
    * cbn [app]. now rewrite IH.
    * now rewrite match_at_suffix_pattern, SN.
Qed.

Lemma slash_next_app (x y : str) :
mem c_slash x = false ->
slash_next (x ++ c_slash :: y) = forallb is_space x.
Proof.
unfold slash_next, mem. induction x as [|c x IH];
  cbn [app existsb forallb drop_while]; intro H.
- reflexivity.
- apply orb_false_iff in H as [H1 H2]. destruct (is_space c).
  + now apply IH.
  + unfold char_eqb in *. now rewrite N.eqb_sym, H1.
Qed.

Lemma cut_suffix_slash (x y : str) :
mem c_slash x = false -> cut_suffix (x ++ c_slash :: y) = rstrip x.
Proof.
induction x as [|c x IH]; intro H.
- reflexivity.
- assert (H' : mem c_slash x = false).
  { unfold mem in *. cbn [existsb] in H.
    now apply orb_false_iff in H as [_ H]. }
  change ((c :: x) ++ c_slash :: y) with (c :: (x ++ c_slash :: y)).
  cbn [cut_suffix].
  change (c :: (x ++ c_slash :: y)) with ((c :: x) ++ c_slash :: y).
  rewrite slash_next_app, rstrip_cons by assumption.
  destruct (forallb is_space (c :: x)); [reflexivity|].
  now rewrite IH.
Qed.

Lemma mem_split (x : char) (s : str) :
mem x s = true ->
exists y, s = take_while (not_char x) s ++ x :: y /\
          mem x (take_while (not_char x) s) = false.
Proof.
unfold mem, not_char, char_eqb.
induction s as [|c s IH]; cbn [existsb take_while]; [discriminate|].
rewrite (N.eqb_sym c x). destruct (N.eqb_spec x c) as [->|N].
- intros _. exists s. auto.
- cbn [orb negb]. intro H. destruct (IH H) as (y & Ey & My).
  exists y. cbn [app existsb]. rewrite <- Ey.
  split; [reflexivity|]. apply N.eqb_neq in N. now rewrite N.
Qed.

(** *** The normalised label holds no line feed *)

Lemma split_go_no_space : forall s cur w,
forallb no_space cur = true -> In w (split_go s cur) ->
forallb no_space w = true.
Proof.
assert (F : forall cur w, forallb no_space cur = true ->
                          In w (flush cur) -> forallb no_space w = true).
{ intros [|x cur] w H; simpl; [tauto|]. intros [<-|[]].
  change (rev cur ++ [x]) with (rev (x :: cur)).
  now rewrite forallb_rev. }
induction s as [|c s IH]; intros cur w H; cbn [split_go].
- now apply F.
- destruct (is_space c) eqn:S.
  + rewrite in_app_iff. intros [I|I]; [now apply (F cur) | now apply (IH [])].
  + apply IH. cbn [forallb]. unfold no_space at 1. now rewrite S.
Qed.

Lemma mem_flat_map (x : char) (f : char -> str) (s : str) :
(forall c, In c s -> mem x (f c) = false) -> mem x (flat_map f s) = false.
Proof.
induction s as [|c s IH]; intro H; cbn [flat_map]; [reflexivity|].
rewrite mem_app, H by now left. apply IH. intros; apply H; now right.
Qed.

Lemma mem_join (x : char) (sep : str) (l : list str) :
mem x sep = false -> (forall w, In w l -> mem x w = false) ->
mem x (join sep l) = false.
Proof.
intros Hs. induction l as [|w l IH]; intro H; [reflexivity|].
destruct l as [|w' l].
- apply H. now left.
- change (join sep (w :: w' :: l)) with (w ++ sep ++ join sep (w' :: l)).
  rewrite !mem_app, Hs, H by now left. apply IH.
  intros; apply H; now right.
Qed.

Hypothesis lower_no_lf :
forall c, (128 <= c)%N -> mem c_lf (unicode_lower c) = false.

Lemma spec_lower_no_lf (c : char) :
no_space c = true -> mem c_lf (spec_lower c) = false.
Proof.
intro S. unfold spec_lower.
repeat match goal with
       | |- context [N.eqb c ?n] => destruct (N.eqb c n); [reflexivity|]
       end.
unfold py_lower, is_ascii_upper.
destruct (N.leb_spec 65 c); cbn [andb].
- destruct (N.leb_spec c 90).
  + unfold mem, c_lf, char_eqb. cbn [existsb]. rewrite orb_false_r.
    apply N.eqb_neq. lia.
  + destruct (N.ltb_spec c 128).
    * unfold mem, c_lf, char_eqb. cbn [existsb]. rewrite orb_false_r.
      apply N.eqb_neq. lia.
    * now apply lower_no_lf.
- destruct (N.ltb_spec c 128); [|now apply lower_no_lf].
  unfold mem, char_eqb. cbn [existsb]. rewrite orb_false_r.
  apply N.eqb_neq. intros <-. discriminate.
Qed.

Lemma clean_text_no_lf (text : str) : mem c_lf (clean_text text) = false.
Proof.
rewrite clean_text_spec. unfold spec_normalize.
apply mem_join; [reflexivity|]. intros w' I.
apply in_map_iff in I as (w & <- & I).
apply split_go_no_space in I; [|reflexivity].
destruct w as [|c rest]; [reflexivity|]. cbn [spec_title_word].
cbn [forallb] in I. apply andb_true_iff in I as [Ic Ir].
change (c :: flat_map spec_lower rest)
  with ([c] ++ flat_map spec_lower rest).
rewrite mem_app. apply orb_false_iff. split.
- unfold mem, char_eqb. cbn [existsb]. rewrite orb_false_r.
  apply N.eqb_neq. intros <-. discriminate.
- apply mem_flat_map. intros x Ix. apply spec_lower_no_lf.
  rewrite forallb_forall in Ir. now apply Ir.
Qed.

Lemma neighborhood_loop_spec : forall matches acc st,
exists st',
  neighborhood_loop matches acc st
  = (Ok (acc ++ map record_of (filter not_placeholder matches)), st') /\
  world st' = world st /\ sent st' = sent st /\
  console st' = console st /\ files st' = files st.
Proof.
induction matches as [|[id name] matches IH]; intros acc st.
- exists st. cbn. now rewrite app_nil_r.
- cbn [neighborhood_loop filter map]. unfold not_placeholder at 1.
  cbn [fst]. destruct (str_eqb id placeholder); cbn [negb].
  + apply IH.
  + unfold bind, count_neighborhood.
    match goal with
    | |- context [neighborhood_loop matches ?a ?s] =>
        destruct (IH a s) as (st' & -> & W & S & C & F)
    end.
    exists st'. cbn [map]. rewrite <- app_assoc. auto.
Qed.

(** The record of a label with a postal code and a slash. *)
Lemma neighborhood_record_split (id label pre code post : str) :
clean_text label = pre ++ code ++ post ->
length code = 5 ->
forallb is_digit code = true ->
first_code (pre ++ firstn 4 code) = None ->
mem c_slash (clean_text label) = true ->
posta_kodu (neighborhood_record id label) = Some code /\
mahalle_adi (neighborhood_record id label)
= rstrip (take_while (not_char c_slash) (clean_text label)).
Proof.
intros Hc L D F S. split.
- unfold neighborhood_record. cbn [posta_kodu]. unfold search.
  rewrite Hc, (search_postal code post L D pre [] F). reflexivity.
- unfold neighborhood_record. cbn [mahalle_adi].
  rewrite re_sub_suffix by apply clean_text_no_lf.
  destruct (mem_split _ _ S) as (y & Ey & My).
  rewrite Ey at 1. now apply cut_suffix_slash.
Qed.
End Label.

Lemma stub_lower_no_lf (c : char) :
  (128 <= c)%N -> mem c_lf (@unicode_lower stub_env c) = false.
Proof.
  intro H. change (@unicode_lower stub_env c) with [c].
  unfold mem, char_eqb. cbn [existsb]. rewrite orb_false_r.
  apply N.eqb_neq. unfold c_lf. lia.
Qed.

(** ** The list parsers and the hidden fields *)

Section Parsers.
Context {E : Env}.

Lemma field_absent (name html : str) :
substr name html = false ->
group1 (search (field_pattern name) html) = None.
Proof.
intro A. assert (S : search (field_pattern name) html = None).
{ apply search_none. intros a b ->. apply match_at_none. intros rest cs D.
  unfold field_pattern in D.
  inversion D as [| | | |r1 r2 s0 cs0 s1 cs1 s2 cs2 D1 D2| |]; subst.
  inversion D1 as [l s0 cs0| | | | | |]; subst.
  rewrite substr_false in A.
  apply (A a ([c_dquote] ++ u " value=" ++ [c_dquote] ++ s1)).
  now rewrite <- !app_assoc. }
now rewrite S.
Qed.

Lemma get_neighborhoods_no_tokens (pid did html : str) (st : state) :
falsy (fst (extract_viewstate_and_validation html))
|| falsy (snd (extract_viewstate_and_validation html)) = true ->
get_neighborhoods pid did html st = (Ok [], st).
Proof.
intro H. unfold get_neighborhoods.
destruct (extract_viewstate_and_validation html) as [vs ev].
cbn [fst snd] in H. now rewrite H.
Qed.

(** C5.  On a district page without the two state-token fields
  [get_neighborhoods] returns the empty list and leaves the state as it
  was, so that nothing was sent; the loop over the districts goes on to the
  next district, this one recorded without neighborhoods. *)
Theorem missing_tokens_short_circuit (pid did html : str) (st : state) :
substr (u "__VIEWSTATE") html = false ->
substr (u "__EVENTVALIDATION") html = false ->
get_neighborhoods pid did html st = (Ok [], st) /\
forall name total districts index current address_data,
  district_loop pid html total ((did, name) :: districts) index current
    address_data st
  = let current' :=
      append_district current
        {| ilce_id := did; ilce_adi := clean_text name; mahalleler := [] |}
    in
    district_loop pid html total districts (S index) current'
      (update_address_data address_data pid current')
      (snd (print (u "  [" ++ str_of_nat index ++ u "/"
                     ++ str_of_nat total ++ u "] " ++ clean_text name
                     ++ u " ilçesi işleniyor...") st)).
Proof.
intros V W.
assert (G : forall st', get_neighborhoods pid did html st' = (Ok [], st')).
{ intro st'. apply get_neighborhoods_no_tokens.
  unfold extract_viewstate_and_validation. cbn [fst snd].
  now rewrite (field_absent _ _ V). }
split; [apply G|]. intros name total districts index current address_data.
cbn [district_loop]. unfold bind at 1. cbn [print snd].
unfold bind at 1. rewrite G. reflexivity.
Qed.

Lemma get_neighborhoods_records (pid did html : str) (st st' : state)
    (l : list neighborhood) :
get_neighborhoods pid did html st = (Ok l, st') ->
exists matches, l = map record_of (filter not_placeholder matches).
Proof.
unfold get_neighborhoods.
destruct (extract_viewstate_and_validation html) as [vs ev].
destruct (falsy vs || falsy ev).
- intro H. injection H as <- _. now exists [].
- unfold bind.
  destruct (send (POST BASE_URL (neighborhood_form vs ev pid did)) st)
    as [[page|e] st1]; [|discriminate].
  destruct (search (select_pattern neighborhood_marker) page)
    as [[[pre rest] cs]|].
  + match goal with
    | |- context [neighborhood_loop ?m [] st1] =>
        destruct (neighborhood_loop_spec m [] st1) as (st2 & -> & _);
        intro H; injection H as <- _; now exists m
    end.
  + intro H. injection H as <- _. now exists [].
Qed.

Lemma clean_id_not_placeholder (s : str) : clean_id s <> placeholder.
Proof.
intro H. pose proof (clean_id_word s) as W. rewrite H in W. discriminate.
Qed.

End Parsers.

Lemma missing_tokens_short_circuit_witness :
  @get_neighborhoods stub_env (u "1") (u "7") stub_neighborhood_page stub_state
  = (Ok [], stub_state).
Proof.
  apply (@missing_tokens_short_circuit stub_env (u "1") (u "7")
           stub_neighborhood_page stub_state); reflexivity.
Defined.

(** ** Missing drop-down lists *)

Section Anchors.
Context {E : Env}.

Lemma select_den (name t rest : str) (cs : caps) :
den (select_pattern name) t [] rest cs ->
exists b c,
  t = (name ++ [c_dquote]) ++ b ++ [c_gt] ++ c ++ u "</select>" ++ rest.
Proof.
unfold select_pattern. intro D.
inversion D as [| | | |r1 r2 s0 cs0 s1 cs1 s2 cs2 D1 D2| |]; subst.
inversion D1 as [l s0 cs0| | | | | |]; subst.
inversion D2 as [| | | |r1 r2 s0 cs0 s3 cs3 s4 cs4 D3 D4| |]; subst.
inversion D3 as [| | |p b s0 cs0 Hb| | |]; subst.
inversion D4 as [| | | |r1 r2 s0 cs0 s5 cs5 s6 cs6 D5 D6| |]; subst.
inversion D5 as [l s0 cs0| | | | | |]; subst.
inversion D6 as [| | | |r1 r2 s0 cs0 s7 cs7 s8 cs8 D7 D8| |]; subst.
inversion D7 as [| | | | |n r s0 cs0 s9 cs9 D9|]; subst.
inversion D9 as [| | |p c s0 cs0 Hc| | |]; subst.
inversion D8 as [l s0 cs0| | | | | |]; subst.
exists b, c. reflexivity.
Qed.

Lemma forallb_any (s : str) : forallb any_char s = true.
Proof. induction s; simpl; auto. Qed.

Lemma select_den_intro (name b c rest : str) :
exists cs,
  den (select_pattern name)
    ((name ++ [c_dquote]) ++ b ++ [c_gt] ++ c ++ u "</select>" ++ rest)
    [] rest cs.
Proof.
eexists. unfold select_pattern.
eapply den_seq; [apply den_lit|].
eapply den_seq; [apply den_starL, forallb_any|].
eapply den_seq; [apply (den_lit [c_gt])|].
eapply den_seq; [apply den_group, den_starL, forallb_any|].
apply den_lit.
Qed.

Lemma search_select_none (name html : str) :
search (select_pattern name) html = None <-> ~ has_select_block name html.
Proof.
rewrite search_none. split.
- intros H (a & b & c & d & ->).
  destruct (select_den_intro name b c d) as (cs & D).
  apply match_at_complete in D as (res & D).
  rewrite (H a _ eq_refl) in D. discriminate.
- intros H a t ->. apply match_at_none. intros rest cs D.
  apply select_den in D as (b & c & ->). apply H. now exists a, b, c, rest.
Qed.

Lemma marker_absent_no_block (name html : str) :
substr name html = false -> ~ has_select_block name html.
Proof.
intros A (a & b & c & d & ->). rewrite substr_false in A.
apply (A a ([c_dquote] ++ b ++ [c_gt] ++ c ++ u "</select>" ++ d)).
now rewrite <- !app_assoc.
Qed.

Lemma get_provinces_raises (html : str) :
get_provinces html = Raise (Exception no_list_message) <->
~ has_select_block province_marker html.
Proof.
rewrite <- search_select_none. unfold get_provinces.
destruct (search (select_pattern province_marker) html)
  as [[[pre rest] cs]|]; split; intro H; try discriminate; reflexivity.
Qed.

(** C4, as amended.  [get_provinces] raises exactly when the markup holds no
  province drop-down list, that is no occurrence of its name followed by a
  [>] and a later closing tag of the list; in particular it raises when
  the name is missing.  When the name of their list is missing,
  [get_districts] returns the empty list, and so does [get_neighborhoods]
  on the answer to its form. *)
Theorem missing_anchor (html : str) :
(get_provinces html = Raise (Exception no_list_message) <->
 ~ has_select_block province_marker html) /\
(substr province_marker html = false ->
 get_provinces html = Raise (Exception no_list_message)) /\
(forall pid,
   substr district_marker html = false -> get_districts pid html = []) /\
(forall pid did district_html st vs ev w',
   extract_viewstate_and_validation district_html = (vs, ev) ->
   falsy vs || falsy ev = false ->
   http (POST BASE_URL (neighborhood_form vs ev pid did)) (world st)
   = (Some html, w') ->
   substr neighborhood_marker html = false ->
   fst (get_neighborhoods pid did district_html st) = Ok []).
Proof.
split; [apply get_provinces_raises|]. split; [|split].
- intro A. now apply get_provinces_raises, marker_absent_no_block.
- intros pid A. unfold get_districts.
  apply marker_absent_no_block, search_select_none in A. now rewrite A.
- intros pid did district_html st vs ev w' X F H A.
  unfold get_neighborhoods. rewrite X, F. unfold bind, send. rewrite H.
  apply marker_absent_no_block, search_select_none in A. now rewrite A.
Qed.
End Anchors.

Lemma missing_anchor_witness :
  @get_provinces bare_env bare_page = Raise (Exception no_list_message) /\
  @get_districts bare_env (u "1") bare_page = [] /\
  fst (@get_neighborhoods bare_env (u "1") (u "7") stub_district_page
         bare_state) = Ok [].
Proof.
  destruct (@missing_anchor bare_env bare_page) as (_ & P & D & N).
  split; [|split].
  - apply P. reflexivity.
  - apply D. reflexivity.
  - apply (N (u "1") (u "7") stub_district_page bare_state
             (Some (u "V1")) (Some (u "E1")) tt); reflexivity.
Defined.

(** Raising is not tied to the name of the list alone: on a page cut short before the
    closing tag of the list the name of the province list is there and
    [get_provinces] raises all the same. *)
Lemma anchor_present_yet_raises :
  ~ (@get_provinces stub_env truncated_page
     = Raise (Exception no_list_message) <->
     substr province_marker truncated_page = false).
Proof.
  intros [H _]. assert (R : @get_provinces stub_env truncated_page
                            = Raise (Exception no_list_message))
    by reflexivity.
  apply H in R. discriminate.
Qed.

(** ** The accumulated list *)

Lemma upd_ids_snoc (l : list str) (pid : str) :
  upd_ids (l ++ [pid]) pid = l ++ [pid].
Proof.
  unfold upd_ids. destruct (l ++ [pid]) as [|x t] eqn:X.
  - now apply app_eq_nil in X as [_ X].
  - rewrite <- X, last_last, str_eqb_refl. reflexivity.
Qed.

Lemma upd_ids_cases (ids : list str) (pid : str) :
  (upd_ids ids pid = ids /\ ids <> [] /\ last ids [] = pid) \/
  (upd_ids ids pid = ids ++ [pid] /\ (ids <> [] -> last ids [] <> pid)).
Proof.
  unfold upd_ids. destruct ids as [|x t].
  - right. split; [reflexivity | congruence].
  - destruct (str_eqb (last (x :: t) []) pid) eqn:X.
    + left. apply str_eqb_eq in X. repeat split; [discriminate | assumption].
    + right. apply str_eqb_neq in X. auto.
Qed.

Lemma upd_ids_idempotent (ids : list str) (pid : str) :
  upd_ids (upd_ids ids pid) pid = upd_ids ids pid.
Proof.
  destruct (upd_ids_cases ids pid) as [(-> & N & L)|(-> & _)].
  - unfold upd_ids. destruct ids as [|x t]; [congruence|].
    apply str_eqb_eq in L. now rewrite L.
  - apply upd_ids_snoc.
Qed.

Lemma adjacent_distinct_snoc (l : list str) (pid : str) :
  adjacent_distinct l -> (l <> [] -> last l [] <> pid) ->
  adjacent_distinct (l ++ [pid]).
Proof.
  induction l as [|x l IH]; intros A L; [exact I|].
  destruct l as [|y l].
  - cbn. split; [|exact I]. apply L. discriminate.
  - destruct A as [N A]. change ((x :: y :: l) ++ [pid])
      with (x :: (y :: l) ++ [pid]).
    cbn [app adjacent_distinct]. split; [exact N|].
    apply IH; [exact A|]. intros _. apply L. discriminate.
Qed.

Lemma adjacent_distinct_upd (ids : list str) (pid : str) :
  adjacent_distinct ids -> adjacent_distinct (upd_ids ids pid).
Proof.
  intro A. destruct (upd_ids_cases ids pid) as [(-> & _)|(-> & L)];
    [assumption | now apply adjacent_distinct_snoc].
Qed.

Lemma adjacent_distinct_fold (sel ids : list str) :
  adjacent_distinct ids -> adjacent_distinct (fold_left upd_ids sel ids).
Proof.
  revert ids; induction sel as [|p sel IH]; intros ids A; cbn [fold_left];
    [assumption|]. now apply IH, adjacent_distinct_upd.
Qed.

Lemma fold_upd_nodup (sel ids : list str) :
  NoDup (ids ++ sel) -> fold_left upd_ids sel ids = ids ++ sel.
Proof.
  revert ids; induction sel as [|p sel IH]; intros ids N; cbn [fold_left].
  - now rewrite app_nil_r.
  - destruct (upd_ids_cases ids p) as [(_ & Ne & L)|(-> & _)].
    + exfalso. apply NoDup_remove_2 in N. apply N. apply in_or_app. left.
      rewrite <- L. destruct (exists_last Ne) as (l0 & x & ->).
      rewrite last_last. apply in_or_app. right. now left.
    + rewrite IH; rewrite <- app_assoc; [reflexivity | exact N].
Qed.

Lemma subseq_in {A : Type} (l1 l2 : list A) (x : A) :
  subseq l1 l2 -> In x l1 -> In x l2.
Proof.
  induction 1 as [|y l1 l2 S IH|y l1 l2 S IH]; cbn; intro H; auto.
  destruct H as [->|H]; auto.
Qed.

Lemma subseq_nodup {A : Type} (l1 l2 : list A) :
  subseq l1 l2 -> NoDup l2 -> NoDup l1.
Proof.
  induction 1 as [|y l1 l2 S IH|y l1 l2 S IH]; intro N.
  - constructor.
  - inversion N; subst. now apply IH.
  - inversion N as [|? ? Ny N']; subst. constructor; [|now apply IH].
    intro H. apply Ny. eapply subseq_in; eassumption.
Qed.

Lemma upd_ids_last (l : list str) (y pid : str) :
  upd_ids (l ++ [y]) pid
  = if str_eqb y pid then l ++ [y] else (l ++ [y]) ++ [pid].
Proof.
  unfold upd_ids. destruct (l ++ [y]) as [|h t] eqn:X.
  - now apply app_eq_nil in X as [_ X].
  - rewrite <- X, last_last. reflexivity.
Qed.

Lemma update_last (ad0 : list province) (x : province) (pid : str)
      (cur : province) :
  update_address_data (ad0 ++ [x]) pid cur
  = if str_eqb (il_id x) pid then ad0 ++ [cur] else (ad0 ++ [x]) ++ [cur].
Proof.
  unfold update_address_data. destruct (ad0 ++ [x]) as [|h t] eqn:X.
  - now apply app_eq_nil in X as [_ X].
  - rewrite <- X, length_app, Nat.add_sub.
    rewrite nth_error_app2, Nat.sub_diag by lia. cbn [nth_error].
    rewrite firstn_app, Nat.sub_diag, firstn_all. cbn [firstn].
    now rewrite app_nil_r.
Qed.

Lemma update_ids (ad : list province) (pid : str) (cur : province) :
  il_id cur = pid ->
  map il_id (update_address_data ad pid cur) = upd_ids (map il_id ad) pid.
Proof.
  intro C. destruct ad as [|a ad'] using rev_ind; [cbn; now rewrite C|].
  rewrite update_last, map_app. cbn [map]. rewrite upd_ids_last.
  destruct (str_eqb (il_id a) pid) eqn:Q.
  - apply str_eqb_eq in Q. rewrite map_app. cbn [map]. congruence.
  - rewrite !map_app. cbn [map]. now rewrite C.
Qed.

Lemma update_in (ad : list province) (pid : str) (cur rec : province) :
  In rec (update_address_data ad pid cur) -> In rec ad \/ rec = cur.
Proof.
  unfold update_address_data. destruct ad as [|a ad'].
  - cbn. intros [<-|[]]. now right.
  - set (l := a :: ad').
    destruct (nth_error l (length l - 1)) as [x|].
    + destruct (str_eqb (il_id x) pid).
      * rewrite in_app_iff. intros [H|[<-|[]]]; [left|now right].
        rewrite <- (firstn_skipn (length l - 1) l). apply in_or_app. now left.
      * rewrite in_app_iff. intros [H|[<-|[]]]; auto.
    + rewrite in_app_iff. intros [H|[<-|[]]]; auto.
Qed.

(** ** The loops of the orchestrator *)

Section Orchestrator.
Context {E : Env}.

Lemma bind_print {A : Type} (line : str) (f : unit -> M A) (st : state) :
bind (print line) f st = f tt (snd (print line st)).
Proof. reflexivity. Qed.

Lemma sent_print (line : str) (st : state) :
sent (snd (print line st)) = sent st.
Proof. reflexivity. Qed.

Lemma get_neighborhoods_sent (pid did html : str) (st : state) :
exists new,
  sent (snd (get_neighborhoods pid did html st)) = sent st ++ new /\
  Forall (hood_exchange pid html) new.
Proof.
unfold get_neighborhoods.
pose (T := extract_viewstate_and_validation html).
assert (X : forall resp,
           hood_exchange pid html
             (POST BASE_URL (neighborhood_form (fst T) (snd T) pid did),
              resp)).
{ intro resp. now exists did, resp. }
fold T. destruct T as [vs ev]. cbn [fst snd] in X.
destruct (falsy vs || falsy ev).
- exists []. cbn. now rewrite app_nil_r.
- unfold bind, send.
  destruct (http (POST BASE_URL (neighborhood_form vs ev pid did))
              (world st)) as [[page|] w'].
  + exists [(POST BASE_URL (neighborhood_form vs ev pid did), Some page)].
    split; [|now constructor].
    destruct (search (select_pattern neighborhood_marker) page)
      as [[[pre rest] cs]|]; [|reflexivity].
    match goal with
    | |- context [neighborhood_loop ?m [] ?s] =>
        destruct (neighborhood_loop_spec m [] s) as (st2 & -> & _ & S & _)
    end.
    exact S.
  + exists [(POST BASE_URL (neighborhood_form vs ev pid did), None)].
    split; [reflexivity | now constructor].
Qed.

Lemma district_loop_cons (pid html : str) (total : nat) (did name : str)
    (districts : list (str * str)) (index : nat) (current : province)
    (address_data : list province) (st : state) :
district_loop pid html total ((did, name) :: districts) index current
  address_data st
= match get_neighborhoods pid did html
          (snd (print (district_line index total name) st)) with
  | (Ok hoods, st2) =>
      district_loop pid html total districts (S index)
        (append_district current
           {| ilce_id := did; ilce_adi := clean_text name;
              mahalleler := hoods |})
        (update_address_data address_data pid
           (append_district current
              {| ilce_id := did; ilce_adi := clean_text name;
                 mahalleler := hoods |}))
        st2
  | (Raise e, st2) => (Raise e, st2)
  end.
Proof.
cbn [district_loop]. rewrite bind_print. unfold bind at 1.
fold (district_line index total name).
destruct (get_neighborhoods pid did html
            (snd (print (district_line index total name) st)))
  as [[hoods|e] st2]; reflexivity.
Qed.

Lemma district_loop_run (pid html : str) (total : nat) :
forall districts index current address_data st,
  il_id current = pid ->
  (exists new,
     sent (snd (district_loop pid html total districts index current
                  address_data st)) = sent st ++ new /\
     Forall (hood_exchange pid html) new) /\
  forall out,
    fst (district_loop pid html total districts index current
           address_data st) = Ok out ->
    map il_id out
    = match districts with
      | [] => map il_id address_data
      | _ :: _ => upd_ids (map il_id address_data) pid
      end /\
    forall rec, In rec out ->
      In rec address_data \/
      (il_id rec = pid /\ ilceler rec <> [] /\ districts <> []).
Proof.
induction districts as [|[did name] districts IH];
  intros index current address_data st C.
- cbn. split.
  + exists []. now rewrite app_nil_r.
  + intros out H. injection H as <-. auto.
- rewrite district_loop_cons.
  set (st1 := snd (print _ st)).
  assert (S1 : sent st1 = sent st) by reflexivity. clearbody st1.
  destruct (get_neighborhoods_sent pid did html st1) as (new1 & N1 & F1).
  destruct (get_neighborhoods pid did html st1) as [[hoods|e] st2].
  + cbn [snd] in N1.
    set (cur' := append_district current _).
    set (ad1 := update_address_data address_data pid cur').
    assert (C' : il_id cur' = pid) by exact C.
    destruct (IH (S index) cur' ad1 st2 C') as ((new2 & N2 & F2) & O).
    split.
    * exists (new1 ++ new2). rewrite N2, N1, S1, app_assoc.
      split; [reflexivity | now apply Forall_app].
    * intros out H. destruct (O out H) as (I & R). split.
      -- rewrite I. unfold ad1. rewrite update_ids by exact C'.
         destruct districts; [reflexivity | apply upd_ids_idempotent].
      -- intros rec Hr. destruct (R rec Hr) as [Hin|(A & B & _)].
         ++ apply update_in in Hin as [Hin| ->]; [now left|].
            right. repeat split; [exact C' | | discriminate].
            unfold cur', append_district. cbn [ilceler].
            intro Z. now apply app_eq_nil in Z as [_ Z].
         ++ right. repeat split; [assumption.. | discriminate].
  + cbn [snd fst] in *. split.
    * exists new1. now rewrite N1, S1.
    * discriminate.
Qed.

Lemma has_districts_app (l1 l2 : list (request * option str)) (pid : str) :
has_districts l1 pid \/ has_districts l2 pid ->
has_districts (l1 ++ l2) pid.
Proof.
intros [(vs & ev & html & I & D)|(vs & ev & html & I & D)];
  exists vs, ev, html; (split; [apply in_or_app; auto | exact D]).
Qed.

Lemma province_loop_cons (total : nat) (pid name : str)
    (provinces : list (str * str)) (index : nat) (vs ev : option str)
    (address_data : list province) (st : state) :
province_loop total ((pid, name) :: provinces) index vs ev address_data st
= match send (POST BASE_URL (province_form vs ev pid))
          (snd (print (province_line index total name) st)) with
  | (Ok html, st2) =>
      match district_loop pid html (length (get_districts pid html))
              (get_districts pid html) 1
              {| il_id := pid; il_adi := clean_text name; ilceler := [] |}
              address_data (snd (print (districts_line html pid) st2)) with
      | (Ok ad1, st4) =>
          province_loop total provinces (S index)
            (fst (extract_viewstate_and_validation html))
            (snd (extract_viewstate_and_validation html)) ad1 st4
      | (Raise e, st4) => (Raise e, st4)
      end
  | (Raise e, st2) => (Raise e, st2)
  end.
Proof.
cbn [province_loop]. rewrite bind_print. unfold bind at 1.
fold (province_line index total name).
destruct (send (POST BASE_URL (province_form vs ev pid))
            (snd (print (province_line index total name) st)))
  as [[html|e] st2]; [|reflexivity].
destruct (extract_viewstate_and_validation html) as [vs' ev'].
rewrite bind_print. unfold bind at 1. fold (districts_line html pid).
destruct (district_loop pid html (length (get_districts pid html))
            (get_districts pid html) 1
            {| il_id := pid; il_adi := clean_text name; ilceler := [] |}
            address_data (snd (print (districts_line html pid) st2)))
  as [[ad1|e] st4]; reflexivity.
Qed.

Lemma send_run (rq : request) (st : state) :
sent (snd (send rq st))
= sent st ++ [(rq, match fst (send rq st) with
                   | Ok text => Some text
                   | Raise _ => None
                   end)].
Proof.
unfold send. destruct (http rq (world st)) as [[text|] w']; reflexivity.
Qed.

Lemma province_loop_run (total : nat) :
forall provinces index vs ev address_data st,
  exists new,
    sent (snd (province_loop total provinces index vs ev address_data st))
    = sent st ++ new /\
    province_blocks new /\
    forall out,
      fst (province_loop total provinces index vs ev address_data st)
      = Ok out ->
      (exists sel,
         subseq sel (map fst provinces) /\
         map il_id out = fold_left upd_ids sel (map il_id address_data)) /\
      forall rec, In rec out ->
        In rec address_data \/
        (ilceler rec <> [] /\ has_districts new (il_id rec)).
Proof.
induction provinces as [|[pid name] provinces IH];
  intros index vs ev address_data st.
- exists []. cbn. rewrite app_nil_r. split; [reflexivity|].
  split; [constructor|]. intros out H. injection H as <-. split; [|auto].
  exists []. split; [constructor | reflexivity].
- rewrite province_loop_cons.
  set (st1 := snd (print _ st)).
  assert (S1 : sent st1 = sent st) by reflexivity. clearbody st1.
  pose proof (send_run (POST BASE_URL (province_form vs ev pid)) st1) as S2.
  destruct (send (POST BASE_URL (province_form vs ev pid)) st1)
    as [[html|e] st2]; cbn [fst snd] in S2; rewrite S1 in S2.
  + set (st3 := snd (print _ st2)).
    assert (S3 : sent st3 = sent st2) by reflexivity. clearbody st3.
    set (cur := Build_province pid (clean_text name) []).
    destruct (district_loop_run pid html
                (length (get_districts pid html))
                (get_districts pid html) 1 cur address_data st3 eq_refl)
      as ((newd & Nd & Fd) & O).
    destruct (district_loop pid html (length (get_districts pid html))
                (get_districts pid html) 1 cur address_data st3)
      as [[ad1|e] st4]; cbn [snd fst] in *.
    * destruct (IH (S index)
                  (fst (extract_viewstate_and_validation html))
                  (snd (extract_viewstate_and_validation html)) ad1 st4)
        as (newr & Nr & Br & R).
      exists ((POST BASE_URL (province_form vs ev pid), Some html)
                :: newd ++ newr).
      split; [|split].
      -- rewrite Nr, Nd, S3, S2, <- !app_assoc. reflexivity.
      -- now constructor.
      -- intros out H. destruct (R out H) as ((sel & Ss & Is) & Rr).
         destruct (O ad1 eq_refl) as (I1 & R1). split.
         ++ cbn [map fst]. destruct (get_districts pid html).
            ** exists sel. split; [now constructor|]. now rewrite Is, I1.
            ** exists (pid :: sel). split; [now constructor|].
               cbn [fold_left]. now rewrite Is, I1.
         ++ intros rec Hr. destruct (Rr rec Hr) as [Hin|(A & B)].
            ** destruct (R1 rec Hin) as [Hin'|(A & B & C)]; [now left|].
               right. split; [exact B|].
               exists vs, ev, html. split; [left; now rewrite A|].
               now rewrite A.
            ** right. split; [exact A|].
               apply (has_districts_app
                        [(POST BASE_URL (province_form vs ev pid),
                          Some html)] (newd ++ newr)).
               right. apply has_districts_app. now right.
    * exists ((POST BASE_URL (province_form vs ev pid), Some html)
                :: newd ++ []).
      split; [|split].
      -- rewrite Nd, S3, S2, app_nil_r, <- app_assoc. reflexivity.
      -- constructor; [exact Fd | constructor].
      -- discriminate.
  + exists [(POST BASE_URL (province_form vs ev pid), None)].
    split; [exact S2|]. split; [constructor | discriminate].
Qed.
End Orchestrator.

(** ** The whole run *)

Section Run.
Context {E : Env}.

Lemma scrape_run (st : state) :
exists new,
  sent (snd (scrape st))
  = sent st ++ (GET BASE_URL, fst (http (GET BASE_URL) (world st))) :: new /\
  province_blocks new /\
  forall out,
    fst (scrape st) = Ok out ->
    exists html provinces,
      fst (http (GET BASE_URL) (world st)) = Some html /\
      get_provinces html = Ok provinces /\
      (exists sel,
         subseq sel (map fst provinces) /\
         map il_id out = fold_left upd_ids sel []) /\
      forall rec, In rec out ->
        ilceler rec <> [] /\ has_districts new (il_id rec).
Proof.
destruct (scrape st) as [r st'] eqn:S. cbn [fst snd].
unfold scrape in S. rewrite bind_print in S.
set (st0 := snd (print _ st)) in S.
assert (S0 : sent st0 = sent st) by reflexivity.
assert (W0 : world st0 = world st) by reflexivity. clearbody st0.
unfold bind at 1 in S. unfold send in S. rewrite W0, S0 in S.
destruct (http (GET BASE_URL) (world st)) as [[html|] w1]; cbn [fst].
- unfold bind at 1 in S. destruct (get_provinces html) as [provinces|e] eqn:GP.
  + cbn [lift ret] in S. rewrite bind_print in S.
    set (st2 := snd (print _ _)) in S.
    assert (S2 : sent st2 = sent st ++ [(GET BASE_URL, Some html)])
      by reflexivity. clearbody st2.
    destruct (extract_viewstate_and_validation html) as [vs ev].
    destruct (falsy vs || falsy ev).
    * injection S as <- <-. exists []. rewrite S2.
      split; [reflexivity|]. split; [constructor | discriminate].
    * unfold bind at 1 in S.
      destruct (province_loop_run (length provinces) provinces 1 vs ev []
                  st2) as (new & N & B & R).
      destruct (province_loop (length provinces) provinces 1 vs ev [] st2)
        as [[out|e] st3]; cbn [fst snd] in *.
      -- rewrite bind_print in S. unfold bind at 1 in S.
         cbn [get_total_neighborhoods] in S. rewrite bind_print in S.
         injection S as <- <-. exists new. cbn [sent print snd].
         rewrite N, S2, <- app_assoc. split; [reflexivity|].
         split; [exact B|]. intros out' H. injection H as <-.
         exists html, provinces. split; [reflexivity|].
         split; [exact GP|]. destruct (R out eq_refl) as (Sel & Rec).
         split; [exact Sel|]. intros rec Hr.
         destruct (Rec rec Hr) as [[]|]. assumption.
      -- injection S as <- <-. exists new. rewrite N, S2, <- app_assoc.
         split; [reflexivity|]. split; [exact B | discriminate].
  + cbn [lift raise] in S. injection S as <- <-. exists [].
    split; [reflexivity|]. split; [constructor | discriminate].
- injection S as <- <-. exists [].
  split; [reflexivity|]. split; [constructor | discriminate].
Qed.

(** C7, as amended.  A record whose province identifier is the one of the
  last entry replaces that entry instead of being appended, so no two
  neighbours of the list [scrape] returns share an [il_id]; when the
  identifiers parsed from the root page are pairwise distinct, no two
  entries of the list share one. *)
Theorem province_ids_kept_apart :
(forall ad0 x pid cur,
   il_id x = pid ->
   update_address_data (ad0 ++ [x]) pid cur = ad0 ++ [cur]) /\
(forall st out,
   fst (scrape st) = Ok out ->
   adjacent_distinct (map il_id out) /\
   (forall html provinces,
      fst (http (GET BASE_URL) (world st)) = Some html ->
      get_provinces html = Ok provinces ->
      NoDup (map fst provinces) ->
      NoDup (map il_id out))).
Proof.
split.
- intros ad0 x pid cur X. rewrite update_last.
  apply str_eqb_eq in X. now rewrite X.
- intros st out H. destruct (scrape_run st) as (new & _ & _ & R).
  destruct (R out H) as (html & provinces & G & P & (sel & Ss & Is) & _).
  split.
  + rewrite Is. now apply adjacent_distinct_fold.
  + intros html' provinces' G' P' N. rewrite G in G'. injection G' as <-.
    rewrite P in P'. injection P' as <-.
    rewrite Is, (fold_upd_nodup sel []); cbn [app];
      now apply subseq_nodup with (l2 := map fst provinces).
Qed.


End Run.

(** ** The fields of the submitted forms *)

Section FieldsFacts.
Context {E : Env}.

Lemma province_form_selects (vs ev : option str) (pid : str) :
selection_of pid (province_form vs ev pid).
Proof. split; vm_compute; reflexivity. Qed.

Lemma hood_exchange_tokens (pid html : str) (x : request * option str) :
hood_exchange pid html x -> token_submission pid html x.
Proof.
intros (did & resp & ->).
exists (neighborhood_form (fst (extract_viewstate_and_validation html))
          (snd (extract_viewstate_and_validation html)) pid did), resp.
split; [reflexivity|].
generalize (fst (extract_viewstate_and_validation html)),
  (snd (extract_viewstate_and_validation html)).
intros vs ev. repeat split; vm_compute; reflexivity.
Qed.

Lemma blocks_tokens (log : list (request * option str)) :
province_blocks log -> token_blocks log.
Proof.
induction 1 as [|vs ev pid|vs ev pid html hoods rest F B IH].
- constructor.
- apply token_blocks_fail with (pid := pid). apply province_form_selects.
- apply token_blocks_cons with (pid := pid);
    [apply province_form_selects | | exact IH].
  eapply Forall_impl; [|exact F]. intro x. apply hood_exchange_tokens.
Qed.

Lemma get_neighborhoods_request (pid did name html : str) (st : state)
    (l : list neighborhood) :
falsy (fst (extract_viewstate_and_validation html))
|| falsy (snd (extract_viewstate_and_validation html)) = false ->
fst (get_neighborhoods pid did html st) = Ok l ->
exists page,
  sent (snd (get_neighborhoods pid did html st))
  = sent st ++ [(district_submission pid html (did, name), Some page)].
Proof.
unfold get_neighborhoods, district_submission. cbn [fst].
destruct (extract_viewstate_and_validation html) as [vs ev].
cbn [fst snd]. intros ->. unfold bind, send.
destruct (http (POST BASE_URL (neighborhood_form vs ev pid did)) (world st))
  as [[page|] w']; [|discriminate].
intros _. exists page.
destruct (search (select_pattern neighborhood_marker) page)
  as [[[pre rest] cs]|]; [|reflexivity].
match goal with
| |- context [neighborhood_loop ?m [] ?s] =>
    destruct (neighborhood_loop_spec m [] s) as (st2 & -> & _ & S & _)
end.
exact S.
Qed.

Lemma district_loop_requests (pid html : str) (total : nat) :
falsy (fst (extract_viewstate_and_validation html))
|| falsy (snd (extract_viewstate_and_validation html)) = false ->
forall districts index current address_data st out,
  fst (district_loop pid html total districts index current address_data st)
  = Ok out ->
  exists new,
    sent (snd (district_loop pid html total districts index current
                 address_data st)) = sent st ++ new /\
    map fst new = map (district_submission pid html) districts.
Proof.
intro T. induction districts as [|[did name] districts IH];
  intros index current address_data st out H.
- exists []. cbn. now rewrite app_nil_r.
- rewrite district_loop_cons in H |- *.
  destruct (get_neighborhoods pid did html
              (snd (print (district_line index total name) st)))
    as [[hoods|e] st2] eqn:G; [|discriminate].
  destruct (get_neighborhoods_request pid did name html
              (snd (print (district_line index total name) st)) hoods T)
    as (page & S); [now rewrite G|].
  rewrite G in S. cbn [snd] in S. rewrite sent_print in S.
  destruct (IH _ _ _ _ _ H) as (new & N & M).
  exists ((district_submission pid html (did, name), Some page) :: new).
  split.
  + rewrite N, S, <- app_assoc. reflexivity.
  + cbn [map fst]. now rewrite M.
Qed.

(** C8.  In the log of a run every neighborhood submission of a province
  carries, in its two state fields, the state tokens taken from the page
  that answered the selection of that province: after the first request
  the log is a sequence of blocks, each the selection of a province
  followed by district submissions for that province whose fields
  [__VIEWSTATE] and [__EVENTVALIDATION] hold the tokens of its page.
  Nothing is fetched in between: when the page has both tokens, the loop
  over its districts, if it ends well, sends exactly one such submission
  for each district, in their order. *)
Theorem tokens_reused_within_province :
(forall st,
   exists new,
     sent (snd (scrape st))
     = sent st
         ++ (GET BASE_URL, fst (http (GET BASE_URL) (world st))) :: new /\
     token_blocks new) /\
(forall total provinces index vs ev address_data st,
   exists new,
     sent (snd (province_loop total provinces index vs ev address_data st))
     = sent st ++ new /\
     token_blocks new) /\
(forall pid html total districts index current address_data st out,
   falsy (fst (extract_viewstate_and_validation html))
   || falsy (snd (extract_viewstate_and_validation html)) = false ->
   fst (district_loop pid html total districts index current address_data
          st) = Ok out ->
   exists new,
     sent (snd (district_loop pid html total districts index current
                  address_data st)) = sent st ++ new /\
     Forall (token_submission pid html) new /\
     map fst new = map (district_submission pid html) districts).
Proof.
split; [|split].
- intro st. destruct (scrape_run st) as (new & N & B & _). exists new.
  split; [exact N | now apply blocks_tokens].
- intros total provinces index vs ev address_data st.
  destruct (province_loop_run total provinces index vs ev address_data st)
    as (new & N & B & _).
  exists new. split; [exact N | now apply blocks_tokens].
- intros pid html total districts index current address_data st out T H.
  destruct (district_loop_requests pid html total T districts index current
              address_data st out H) as (new & N & M).
  exists new. split; [exact N|]. split; [|exact M].
  assert (X : forall l : list (request * option str),
            map fst l = map (district_submission pid html) districts ->
            Forall (token_submission pid html) l).
  { clear. induction districts as [|d districts IH]; intros [|[rq resp] l] Eq;
      try discriminate; constructor.
    - cbn [map fst] in Eq. injection Eq as -> _.
      apply hood_exchange_tokens. now exists (fst d), resp.
    - apply IH. cbn [map] in Eq. now injection Eq. }
  now apply X.
Qed.
End FieldsFacts.

Lemma province_ids_kept_apart_witness :
  update_address_data
    ([] ++ [{| il_id := u "1"; il_adi := u "Adana"; ilceler := [] |}])
    (u "1") {| il_id := u "1"; il_adi := u "Adana (2)"; ilceler := [] |}
  = [] ++ [{| il_id := u "1"; il_adi := u "Adana (2)"; ilceler := [] |}] /\
  adjacent_distinct
    (map il_id
       (match fst (@scrape sparse_env sparse_state) with
        | Ok out => out
        | Raise _ => []
        end)) /\
  NoDup
    (map il_id
       (match fst (@scrape sparse_env sparse_state) with
        | Ok out => out
        | Raise _ => []
        end)).
Proof.
  destruct (@province_ids_kept_apart sparse_env) as (U & P).
  split; [apply U; reflexivity|].
  destruct (fst (@scrape sparse_env sparse_state)) as [out|e] eqn:S;
    [|vm_compute in S; discriminate].
  destruct (P sparse_state out S) as (A & N). split; [exact A|].
  apply (N sparse_root_page [(u "1", u "ADANA"); (u "2", u "ADIYAMAN")]).
  - reflexivity.
  - reflexivity.
  - repeat constructor; cbn; intuition discriminate.
Defined.

(** The identifiers 1, 2, 1 of the canned root page all reach the output:
    the list has two entries with the identifier 1. *)
Lemma duplicate_province_ids :
  exists out,
    fst (@scrape stub_env stub_state) = Ok out /\
    ~ NoDup (map il_id out).
Proof.
  eexists. split; [vm_compute; reflexivity|].
  intro N. inversion N as [|x l Nx _]; subst. apply Nx. right. now left.
Qed.



(** ** The status document *)

Lemma spaces_then_mark (a b r r' : str) (x x' : char) :
  forallb is_space a = true -> forallb is_space b = true ->
  is_space x = false -> is_space x' = false ->
  a ++ x :: r = b ++ x' :: r' -> a = b /\ x :: r = x' :: r'.
Proof.
  intros A B X X' H.
  assert (T : take_while is_space (a ++ x :: r)
              = take_while is_space (b ++ x' :: r')) by now rewrite H.
  rewrite !take_while_app in T by assumption. cbn [take_while] in T.
  rewrite X, X', !app_nil_r in T. subst b. split; [reflexivity|].
  now apply app_inv_head in H.
Qed.

Lemma stamp_den (s rest : str) (cs : caps) :
  den last_updated_pattern s [] rest cs ->
  exists a1 a2 c line,
    forallb is_space a1 = true /\ forallb is_space a2 = true /\
    not_char c_lf c = true /\ forallb (not_char c_lf) line = true /\
    s = stamp_heading ++ (a1 ++ c_lf :: a2) ++ stamp_label ++ c :: line ++ rest.
Proof.
  unfold last_updated_pattern, PlusG. intro D.
  inversion D as [| | | |r1 r2 s0 cs0 s1 cs1 s2 cs2 D1 D2| |]; subst.
  inversion D1 as [| | | | |n r s0 cs0 s3 cs3 D3|]; subst.
  inversion D3 as [| | | |r1 r2 s0 cs0 s4 cs4 s5 cs5 D4 D5| |]; subst.
  inversion D4 as [l s0 cs0| | | | | |]; subst.
  inversion D5 as [| | | |r1 r2 s0 cs0 s6 cs6 s7 cs7 D6 D7| |]; subst.
  inversion D6 as [| |p a1 s0 cs0 A1| | | |]; subst.
  inversion D7 as [| | | |r1 r2 s0 cs0 s8 cs8 s9 cs9 D8 D9| |]; subst.
  inversion D8 as [l s0 cs0| | | | | |]; subst.
  inversion D9 as [| | | |r1 r2 s0 cs0 s10 cs10 s11 cs11 D10 D11| |]; subst.
  inversion D10 as [| |p a2 s0 cs0 A2| | | |]; subst.
  inversion D11 as [l s0 cs0| | | | | |]; subst.
  inversion D2 as [| | | |r1 r2 s0 cs0 s12 cs12 s13 cs13 D12 D13| |]; subst.
  inversion D12 as [|p c s0 cs0 C| | | | |]; subst.
  inversion D13 as [| |p line s0 cs0 L| | | |]; subst.
  exists a1, a2, c, line. repeat split; try assumption.
  now rewrite <- !app_assoc.
Qed.

Lemma label_head : exists l, stamp_label = 42%N :: l.
Proof. eexists. vm_compute. reflexivity. Qed.

Lemma stamp_here_intro (a1 a2 line : str) (c : char) :
  forallb is_space a1 = true -> forallb is_space a2 = true ->
  not_char c_lf c = true ->
  stamp_here
    (stamp_heading ++ (a1 ++ c_lf :: a2) ++ stamp_label ++ c :: line) = true.
Proof.
  intros A1 A2 C. unfold stamp_here. rewrite strip_prefix_app.
  assert (W : forallb is_space (a1 ++ c_lf :: a2) = true).
  { rewrite forallb_app, A1. cbn [forallb]. now rewrite A2. }
  rewrite take_while_app, drop_while_app by exact W.
  destruct label_head as (l & EL).
  assert (TW : take_while is_space (stamp_label ++ c :: line) = [])
    by (rewrite EL; reflexivity).
  assert (DW : drop_while is_space (stamp_label ++ c :: line)
               = stamp_label ++ c :: line)
    by (rewrite EL; reflexivity).
  rewrite TW, DW, strip_prefix_app, app_nil_r, mem_app.
  unfold not_char in C. rewrite C, andb_true_r. apply orb_true_iff. right.
  unfold mem. cbn [existsb]. unfold char_eqb at 1. now rewrite N.eqb_refl.
Qed.

Lemma no_stamp_no_match (s : str) :
  stamp_here s = false -> match_at last_updated_pattern false s = None.
Proof.
  intro H. apply match_at_none. intros rest cs D.
  apply stamp_den in D as (a1 & a2 & c & line & A1 & A2 & C & L & ->).
  change (stamp_heading ++ (a1 ++ c_lf :: a2) ++ stamp_label
            ++ c :: line ++ rest)
    with (stamp_heading ++ (a1 ++ c_lf :: a2) ++ stamp_label
            ++ c :: (line ++ rest)) in H.
  now rewrite stamp_here_intro in H.
Qed.

Lemma heading_den (s rest : str) (cs cs' : caps) :
  den heading_pattern s cs rest cs' ->
  exists a1 a2,
    forallb is_space a1 = true /\ forallb is_space a2 = true /\
    s = stamp_heading ++ (a1 ++ c_lf :: a2) ++ stamp_label ++ rest /\
    cs' = cs.
Proof.
  unfold heading_pattern. intro D.
  inversion D as [| | | |r1 r2 s0 cs0 s4 cs4 s5 cs5 D4 D5| |]; subst.
  inversion D4 as [l s0 cs0| | | | | |]; subst.
  inversion D5 as [| | | |r1 r2 s0 cs0 s6 cs6 s7 cs7 D6 D7| |]; subst.
  inversion D6 as [| |p a1 s0 cs0 A1| | | |]; subst.
  inversion D7 as [| | | |r1 r2 s0 cs0 s8 cs8 s9 cs9 D8 D9| |]; subst.
  inversion D8 as [l s0 cs0| | | | | |]; subst.
  inversion D9 as [| | | |r1 r2 s0 cs0 s10 cs10 s11 cs11 D10 D11| |]; subst.
  inversion D10 as [| |p a2 s0 cs0 A2| | | |]; subst.
  inversion D11 as [l s0 cs0| | | | | |]; subst.
  exists a1, a2. repeat split; try assumption. now rewrite <- !app_assoc.
Qed.

Lemma heading_den_intro (w1 w2 rest : str) (cs : caps) :
  forallb is_space w1 = true -> forallb is_space w2 = true ->
  den heading_pattern
    (stamp_heading ++ (w1 ++ c_lf :: w2) ++ stamp_label ++ rest) cs rest cs.
Proof.
  intros W1 W2. unfold heading_pattern.
  eapply den_seq; [apply den_lit|]. rewrite <- app_assoc.
  eapply den_seq; [apply den_starG, W1|].
  eapply den_seq; [apply (den_lit [c_lf])|]. cbn [app].
  eapply den_seq; [apply den_starG, W2|]. apply den_lit.
Qed.

Lemma plus_tail (p : char -> bool) (c : char) (line post : str) (cs : caps) :
  p c = true -> forallb p line = true -> drop_while p post = post ->
  rmatch (PlusG p) (c :: line ++ post) cs (fun s' cs' => Some (s', cs'))
  = Some (post, cs).
Proof.
  intros C L P. unfold PlusG. cbn [rmatch]. rewrite C.
  apply starG_greedy. now rewrite drop_while_app, P.
Qed.

Lemma line_ends_drop (post : str) :
  line_ends post = true -> drop_while (not_char c_lf) post = post.
Proof.
  destruct post as [|c post]; [reflexivity|]. cbn [line_ends drop_while].
  unfold not_char. now intros ->.
Qed.

Lemma stamp_match (ws line post : str) (c : char) :
  forallb is_space ws = true -> mem c_lf ws = true ->
  not_char c_lf c = true -> forallb (not_char c_lf) line = true ->
  line_ends post = true ->
  match_at last_updated_pattern false
    (stamp_heading ++ ws ++ stamp_label ++ c :: line ++ post)
  = Some (post, [(1, stamp_heading ++ ws ++ stamp_label)]).
Proof.
  intros W M C L P.
  apply mem_In, in_split in M as (w1 & w2 & ->).
  rewrite forallb_app in W. apply andb_true_iff in W as [W1 W2].
  cbn [forallb] in W2. apply andb_true_iff in W2 as [_ W2].
  set (ws := w1 ++ c_lf :: w2).
  set (s := stamp_heading ++ ws ++ stamp_label ++ c :: line ++ post).
  set (K := fun (s' : str) (cs' : caps) =>
              rmatch (PlusG (not_char c_lf)) s'
                ((1, firstn (length s - length s') s) :: cs')
                (fun s'' cs'' => Some (s'', cs''))).
  change (rmatch heading_pattern s [] K
          = Some (post, [(1, stamp_heading ++ ws ++ stamp_label)])).
  assert (V : K (c :: line ++ post) []
              = Some (post, [(1, stamp_heading ++ ws ++ stamp_label)])).
  { unfold K. rewrite plus_tail; auto using line_ends_drop.
    replace s with ((stamp_heading ++ ws ++ stamp_label)
                      ++ c :: line ++ post)
      by (unfold s; now rewrite <- !app_assoc).
    rewrite length_app, Nat.add_sub, firstn_app, Nat.sub_diag, firstn_all.
    cbn [firstn]. now rewrite app_nil_r. }
  pose proof (heading_den_intro w1 w2 (c :: line ++ post) [] W1 W2) as D.
  fold ws in D. fold s in D.
  destruct (rmatch_complete _ _ _ _ _ _ D K _ V) as (x & X).
  rewrite X.
  apply rmatch_sound in X as (s' & cs' & D' & X).
  apply heading_den in D' as (a1 & a2 & A1 & A2 & ES & ->).
  unfold s in ES. apply app_inv_head in ES.
  destruct label_head as (l & EL). rewrite EL in ES.
  assert (Q : ws ++ 42%N :: (l ++ c :: line ++ post)
              = (a1 ++ c_lf :: a2) ++ 42%N :: (l ++ s')) by exact ES.
  apply spaces_then_mark in Q as [_ Q]; try reflexivity.
  - injection Q as Q. apply app_inv_head in Q. subst s'. now rewrite <- X.
  - unfold ws. rewrite forallb_app, W1. cbn [forallb]. now rewrite W2.
  - rewrite forallb_app, A1. cbn [forallb]. now rewrite A2.
Qed.

Lemma scan_match_at {A : Type} (r : regex) (on_match : caps -> list A)
      (on_char : char -> list A) (s m rest : str) (cs : caps) :
  match_at r false s = Some (rest, cs) -> s = m ++ rest -> m <> [] ->
  scan r on_match on_char s O
  = on_match ((O, m) :: cs) ++ scan r on_match on_char rest O.
Proof.
  intros H X Hm. destruct s as [|c s].
  - symmetry in X. apply app_eq_nil in X as [X _]. contradiction.
  - now apply scan_match.
Qed.

Lemma sub_no_stamp (tpl : list titem) (s : str) :
  no_stamp s = true -> re_sub last_updated_pattern tpl s = s.
Proof.
  unfold re_sub. induction s as [|c s IH]; cbn [no_stamp]; intro H;
    apply andb_true_iff in H as [H1 H2]; apply negb_true_iff in H1.
  - apply scan_nil_no_match. now apply no_stamp_no_match.
  - rewrite scan_no_match by now apply no_stamp_no_match.
    cbn [app]. now rewrite IH.
Qed.

Lemma sub_before_stamp (tpl : list titem) (pre t : str) :
  no_stamp_in pre t = true ->
  re_sub last_updated_pattern tpl (pre ++ t)
  = pre ++ re_sub last_updated_pattern tpl t.
Proof.
  unfold re_sub. induction pre as [|c pre IH]; cbn [no_stamp_in]; intro H;
    [reflexivity|].
  apply andb_true_iff in H as [H1 H2]; apply negb_true_iff in H1.
  cbn [app] in *. rewrite scan_no_match by now apply no_stamp_no_match.
  cbn [app]. now rewrite IH.
Qed.

Lemma parse_plain (s : str) (cs : caps) :
  mem c_backslash s = false -> expand (parse_template s) cs = s.
Proof.
  unfold mem, expand. induction s as [|c s IH]; cbn [existsb parse_template];
    [reflexivity|].
  intro H. apply orb_false_iff in H as [H1 H2].
  unfold char_eqb in *. rewrite N.eqb_sym, H1. cbn [flat_map expand_item app].
  now rewrite IH.
Qed.

Lemma template_expand (date g1 : str) (cs : caps) :
  mem c_backslash date = false -> group cs 1 = Some g1 ->
  expand (parse_template ([c_backslash] ++ u "1 " ++ date)) cs
  = g1 ++ u " " ++ date.
Proof.
  intros D G.
  change (parse_template ([c_backslash] ++ u "1 " ++ date))
    with (TGroup 1 :: parse_template (c_space :: date)).
  unfold expand. cbn [flat_map expand_item]. rewrite G. f_equal.
  apply (parse_plain (c_space :: date)).
  unfold mem in *. cbn [existsb]. now rewrite D.
Qed.

Lemma mem_str_of_nat (n : nat) : mem c_backslash (str_of_nat n) = false.
Proof.
  unfold str_of_nat. induction (Nat.to_uint n); cbn [str_of_uint];
    [reflexivity|..];
    match goal with
    | H : _ |- _ => exact H
    end.
Qed.

Lemma mem_fmt_02d (n : nat) : mem c_backslash (fmt_02d n) = false.
Proof.
  unfold fmt_02d. pose proof (mem_str_of_nat n) as H.
  destruct (str_of_nat n) as [|a [|b d]]; exact H.
Qed.

Lemma mem_month (k : nat) : mem c_backslash (nth k turkish_months []) = false.
Proof. do 12 (destruct k as [|k]; [reflexivity|]). now destruct k. Qed.

Lemma formatted_date_plain (now : datetime) :
  mem c_backslash (formatted_date now) = false.
Proof.
  unfold formatted_date.
  rewrite !mem_app, !mem_str_of_nat, !mem_fmt_02d, mem_month. reflexivity.
Qed.

Lemma universal_newlines_plain (s : str) :
  mem c_cr s = false -> universal_newlines s = s.
Proof.
  induction s as [|c s IH]; intro H; [reflexivity|].
  cbn [mem existsb] in H. apply orb_false_iff in H as [Hc Hs].
  unfold char_eqb in Hc. rewrite N.eqb_sym in Hc.
  cbn [universal_newlines]. unfold char_eqb at 1. rewrite Hc.
  f_equal. now apply IH.
Qed.

Lemma universal_newlines_clean : forall n s,
  length s <= n -> mem c_cr (universal_newlines s) = false.
Proof.
  induction n as [|n IH]; intros s L.
  - destruct s; [reflexivity | cbn [length] in L; lia].
  - destruct s as [|c s]; [reflexivity|]. cbn [length] in L.
    cbn [universal_newlines]. destruct (char_eqb c c_cr) eqn:Q.
    + cbn [mem existsb]. change (char_eqb c_cr c_lf) with false. cbn [orb].
      destruct s as [|d s]; [reflexivity|]. cbn [length] in L.
      destruct (char_eqb d c_lf); apply IH; cbn [length]; lia.
    + cbn [mem existsb]. unfold char_eqb in *.
      rewrite N.eqb_sym, Q. cbn [orb]. apply IH. lia.
Qed.

Lemma universal_newlines_no_cr (s : str) :
  mem c_cr (universal_newlines s) = false.
Proof. now apply (universal_newlines_clean (length s)). Qed.

Section Readme.
Context {E : Env}.

Lemma update_readme_found_eq (path doc : str) (st : state) :
files st path = Some (Text doc) ->
update_readme path st
= print (u "README güncellendi: Son güncelleme tarihi eklendi ("
           ++ formatted_date (clock (world st)) ++ u ")")
    (store path
       (re_sub last_updated_pattern
          (parse_template
             ([c_backslash] ++ u "1 "
                ++ formatted_date (clock (world st))))
          (universal_newlines doc)) st).
Proof.
intro F. unfold update_readme, bind, path_exists, read_file, write_file.
rewrite F. cbn [negb]. cbv beta. rewrite F. unfold datetime_now.
cbv beta iota. rewrite F. reflexivity.
Qed.

Lemma update_readme_found (path doc : str) (st : state) :
files st path = Some (Text doc) ->
fst (update_readme path st) = Ok tt /\
files (snd (update_readme path st)) path
= Some (Text (re_sub last_updated_pattern
                (parse_template
                   ([c_backslash] ++ u "1 "
                      ++ formatted_date (clock (world st))))
                (universal_newlines doc))) /\
forall p, p <> path -> files (snd (update_readme path st)) p = files st p.
Proof.
intro F. rewrite (update_readme_found_eq path doc st F).
cbn [print store fst snd files].
rewrite str_eqb_refl. split; [reflexivity|]. split; [reflexivity|].
intros p N. apply str_eqb_neq in N. now rewrite N.
Qed.

(** C9, as amended.  On a status document in UTF-8 that holds no carriage
  return and one last-updated stamp [update_readme] rewrites the rest of
  the stamped line, replacing it by a space and the formatted date, and
  leaves the text before the stamp, the heading and label of the stamp,
  the text after the line and every other file as they were; when the
  document does not exist it prints a notice and changes no file. *)
Theorem readme_only_stamp_line_changes (path : str) (st : state) :
(files st path = None ->
 fst (update_readme path st) = Ok tt /\
 files (snd (update_readme path st)) = files st /\
 console (snd (update_readme path st))
 = console st ++ [missing_notice path]) /\
(forall pre ws old post,
   files st path
   = Some (Text (pre ++ (stamp_heading ++ ws ++ stamp_label) ++ old ++ post)) ->
   mem c_cr (pre ++ (stamp_heading ++ ws ++ stamp_label) ++ old ++ post)
   = false ->
   forallb is_space ws = true -> mem c_lf ws = true ->
   old <> [] -> forallb (not_char c_lf) old = true ->
   line_ends post = true ->
   no_stamp_in pre ((stamp_heading ++ ws ++ stamp_label) ++ old ++ post)
   = true ->
   no_stamp post = true ->
   fst (update_readme path st) = Ok tt /\
   files (snd (update_readme path st)) path
   = Some (Text (pre ++ (stamp_heading ++ ws ++ stamp_label) ++ u " "
                   ++ formatted_date (clock (world st)) ++ post)) /\
   forall p, p <> path ->
     files (snd (update_readme path st)) p = files st p).
Proof.
split.
- intro F. unfold update_readme, bind, path_exists. rewrite F.
  cbn [negb]. unfold print. cbn [fst snd files console].
  split; [reflexivity|]. split; [reflexivity|].
  unfold missing_notice. reflexivity.
- intros pre ws old post F Cr W M O L P B A.
  destruct (update_readme_found path _ st F) as (R & C & K).
  split; [exact R|]. split; [|exact K]. rewrite C. do 2 f_equal.
  rewrite universal_newlines_plain by exact Cr.
  rewrite sub_before_stamp by exact B. f_equal.
  destruct old as [|c line]; [congruence|].
  cbn [forallb] in L. apply andb_true_iff in L as [Lc Ll].
  unfold re_sub.
  rewrite scan_match_at
    with (m := (stamp_heading ++ ws ++ stamp_label) ++ c :: line)
         (rest := post) (cs := [(1, stamp_heading ++ ws ++ stamp_label)]).
  + rewrite template_expand
      with (g1 := stamp_heading ++ ws ++ stamp_label);
      [|apply formatted_date_plain|reflexivity].
    fold (re_sub last_updated_pattern
            (parse_template
               ([c_backslash] ++ u "1 "
                  ++ formatted_date (clock (world st)))) post).
    rewrite sub_no_stamp by exact A. now rewrite <- !app_assoc.
  + rewrite <- stamp_match with (ws := ws) (line := line) (c := c)
      by assumption.
    f_equal. now rewrite <- !app_assoc.
  + apply app_assoc.
  + intro Z. apply app_eq_nil in Z as [_ Z]. discriminate.
Qed.
End Readme.

Lemma readme_only_stamp_line_changes_witness :
  files (snd (@update_readme stub_env (u "README.md") stub_state))
    (u "README.md")
  = Some (Text ([35; 32; 80; 84; 84; 10]%N
                  ++ (stamp_heading ++ [10; 10]%N ++ stamp_label) ++ u " "
                  ++ u "15 Ocak 2024, 14:05" ++ [10]%N ++ u "Veri: PTT"
                  ++ [10]%N)) /\
  files (snd (@update_readme stub_env (u "LICENSE") stub_state))
  = files stub_state.
Proof.
  split.
  - apply (proj2 (@readme_only_stamp_line_changes stub_env (u "README.md")
                    stub_state)
             [35; 32; 80; 84; 84; 10]%N [10; 10]%N
             (u " 1 Ocak 2020, 00:00") ([10]%N ++ u "Veri: PTT" ++ [10]%N));
      try (vm_compute; reflexivity).
    discriminate.
  - apply (proj1 (@readme_only_stamp_line_changes stub_env (u "LICENSE")
                    stub_state)).
    reflexivity.
Defined.

(** On a document whose lines end in a carriage return and a line feed the
    text outside the stamped line changes too: every line end is written
    back as a line feed. *)
Lemma crlf_document_rewritten :
  exists pre ws old post,
    files crlf_state (u "README.md")
    = Some (Text (pre ++ (stamp_heading ++ ws ++ stamp_label) ++ old ++ post))
    /\
    forallb is_space ws = true /\ mem c_lf ws = true /\
    old <> [] /\ forallb (not_char c_lf) old = true /\
    line_ends post = true /\
    no_stamp_in pre ((stamp_heading ++ ws ++ stamp_label) ++ old ++ post)
    = true /\
    no_stamp post = true /\
    files (snd (@update_readme stub_env (u "README.md") crlf_state))
      (u "README.md")
    <> Some (Text (pre ++ (stamp_heading ++ ws ++ stamp_label) ++ u " "
                     ++ formatted_date (clock (world crlf_state)) ++ post)).
Proof.
  exists [35; 32; 80; 84; 84; 13; 10]%N, [13; 10; 13; 10]%N,
    (u " 1 Ocak 2020, 00:00" ++ [13]%N),
    ([10]%N ++ u "Veri: PTT" ++ [13; 10]%N).
  split; [vm_compute; reflexivity|].
  split; [vm_compute; reflexivity|].
  split; [vm_compute; reflexivity|].
  split; [discriminate|].
  split; [vm_compute; reflexivity|].
  split; [vm_compute; reflexivity|].
  split; [vm_compute; reflexivity|].
  split; [vm_compute; reflexivity|].
  intro H. vm_compute in H. discriminate.
Qed.

(** * Further properties

    ** Identifier cleaning, character by character *)

Lemma replace_char_length (old x : char) (s : str) :
  length (replace_char old [x] s) = length s.
Proof.
  induction s as [|c s IH]; [reflexivity|].
  unfold replace_char in *. cbn [flat_map].
  destruct (char_eqb c old); cbn [app length]; now rewrite IH.
Qed.

Lemma filter_length_le (p : char -> bool) (s : str) :
  length (filter p s) <= length s.
Proof.
  induction s as [|c s IH]; [reflexivity|]. cbn [filter].
  destruct (p c); cbn [length]; lia.
Qed.

(** X1.  [clean_id] works on each character by itself: a slash or a
    backslash becomes an underscore, a character of [a-zA-Z0-9_] is kept
    and any other one is dropped.  So the identifier of a concatenation is
    the concatenation of the identifiers, and cleaning never makes an
    identifier longer. *)
Theorem clean_id_charwise (a b : str) (c : char) :
  clean_id (a ++ b) = clean_id a ++ clean_id b /\
  clean_id [c]
  = (if char_eqb c c_slash || char_eqb c c_backslash then [c_underscore]
     else if is_word_ascii c then [c] else []) /\
  length (clean_id a) <= length a.
Proof.
  rewrite !clean_id_filter. split; [|split].
  - unfold replace_char. now rewrite !flat_map_app, filter_app.
  - unfold replace_char, char_eqb. cbn [flat_map app].
    destruct (N.eqb_spec c c_backslash) as [->|Nb]; [reflexivity|].
    rewrite orb_false_r. cbn [flat_map app].
    destruct (N.eqb_spec c c_slash) as [->|Ns]; [reflexivity|].
    cbn [filter]. reflexivity.
  - eapply Nat.le_trans; [apply filter_length_le|].
    now rewrite !replace_char_length.
Qed.

(** ** The label of a neighborhood, in general *)

Lemma re_sub_no_match (r : regex) (tpl : list titem) (s : str) :
  (forall a b, s = a ++ b -> match_at r false b = None) ->
  re_sub r tpl s = s.
Proof.
  unfold re_sub. induction s as [|c s IH]; intro H.
  - apply scan_nil_no_match. now apply (H [] []).
  - rewrite scan_no_match by now apply (H [] (c :: s)).
    cbn [app]. f_equal. apply IH. intros a b ->.
    now apply (H (c :: a) b).
Qed.

Lemma suffix_den_slash (s rest : str) (cs cs' : caps) :
  den suffix_pattern s cs rest cs' -> mem c_slash s = true.
Proof.
  unfold suffix_pattern. intro D.
  inversion D as [| | | |r1 r2 s0 cs0 s1 cs1 s2 cs2 D1 D2| |]; subst.
  inversion D1 as [| |p a s0 cs0 Ha| | | |]; subst.
  inversion D2 as [| | | |r1 r2 s0 cs0 s3 cs3 s4 cs4 D3 D4| |]; subst.
  inversion D3 as [l s0 cs0| | | | | |]; subst.
  apply mem_In, in_or_app. right. now left.
Qed.

Section LabelEdges.
Context {E : Env}.

Lemma search_from_postal : forall s bef,
group1 (search_from postal_code_pattern bef s) = first_code s.
Proof.
induction s as [|c s IH]; intro bef.
- reflexivity.
- cbn [search_from first_code]. rewrite match_at_postal.
  destruct (digits5 (c :: s)); [reflexivity | apply IH].
Qed.

Lemma digits5_length (s : str) :
digits5 s = true ->
length (firstn 5 s) = 5 /\ forallb is_digit (firstn 5 s) = true.
Proof.
destruct s as [|a [|b [|c [|d [|e s]]]]]; try discriminate.
cbn [digits5 firstn length forallb]. intro H.
apply andb_true_iff in H as [H He]. apply andb_true_iff in H as [H Hd].
apply andb_true_iff in H as [H Hc]. apply andb_true_iff in H as [Ha Hb].
now rewrite Ha, Hb, Hc, Hd, He.
Qed.

Lemma first_code_some : forall s code,
first_code s = Some code ->
length code = 5 /\ forallb is_digit code = true /\
exists a b, s = a ++ code ++ b.
Proof.
induction s as [|c s IH]; intros code H.
- discriminate.
- cbn [first_code] in H. destruct (digits5 (c :: s)) eqn:D.
  + injection H as <-. destruct (digits5_length _ D) as (L & F).
    split; [exact L|]. split; [exact F|].
    exists [], (skipn 5 (c :: s)).
    exact (eq_sym (firstn_skipn 5 (c :: s))).
  + destruct (IH code H) as (L & F & a & b & ->).
    split; [exact L|]. split; [exact F|]. now exists (c :: a), b.
Qed.

Lemma first_code_none : forall s,
first_code s = None <-> (forall a b, s = a ++ b -> digits5 b = false).
Proof.
induction s as [|c s IH].
- split; [|reflexivity]. intros _ a b Eq. symmetry in Eq.
  apply app_eq_nil in Eq as [_ ->]. reflexivity.
- cbn [first_code]. destruct (digits5 (c :: s)) eqn:D.
  + split; [discriminate|]. intro H. rewrite (H [] (c :: s) eq_refl) in D.
    discriminate.
  + rewrite IH. split.
    * intros H [|x a] b Eq.
      -- cbn [app] in Eq. now subst b.
      -- injection Eq as -> ->. now apply (H a b).
    * intros H a b ->. now apply (H (c :: a) b).
Qed.

(** X2.  The postal code of a record is the leftmost run of five digits of
  the normalised label, wherever it stands, and [None] when the label has
  no such run. *)
Theorem postal_code_leftmost_run (id label : str) :
posta_kodu (neighborhood_record id label) = first_code (clean_text label) /\
(forall code,
   posta_kodu (neighborhood_record id label) = Some code ->
   length code = 5 /\ forallb is_digit code = true /\
   exists a b, clean_text label = a ++ code ++ b) /\
(posta_kodu (neighborhood_record id label) = None <->
 forall a b, clean_text label = a ++ b -> digits5 b = false).
Proof.
assert (P : posta_kodu (neighborhood_record id label)
            = first_code (clean_text label)) by apply search_from_postal.
rewrite P. split; [reflexivity|]. split.
- intros code H. now apply first_code_some.
- apply first_code_none.
Qed.

(** X3.  A normalised label without a slash is stored as it is, a postal
  code in it included: only a slash cuts the name.  The identifier stored
  is made of characters of [a-zA-Z0-9_] only. *)
Theorem label_without_slash_kept (id label : str) :
mem c_slash (clean_text label) = false ->
mahalle_adi (neighborhood_record id label) = clean_text label /\
forallb is_word_ascii (mahalle_id (neighborhood_record id label)) = true.
Proof.
intro H. split; [|apply clean_id_word].
cbn [neighborhood_record mahalle_adi]. apply re_sub_no_match.
intros a b Eq. apply match_at_none. intros rest cs D.
apply suffix_den_slash in D. rewrite Eq, mem_app, D, orb_true_r in H.
discriminate.
Qed.
End LabelEdges.

Lemma label_without_slash_kept_witness :
  mahalle_adi (@neighborhood_record stub_env (u "44") (u "KADIKÖY 34710"))
  = u "Kadıköy 34710" /\
  forallb is_word_ascii
    (mahalle_id (@neighborhood_record stub_env (u "44") (u "KADIKÖY 34710")))
  = true.
Proof.
  destruct (@label_without_slash_kept stub_env (u "44") (u "KADIKÖY 34710"))
    as (A & B); [reflexivity|].
  split; [rewrite A; reflexivity | exact B].
Defined.

Lemma postal_code_leftmost_run_witness :
  posta_kodu
    (@neighborhood_record stub_env (u "44") (u "KADIKÖY 34710 / 123456"))
  = Some (u "34710") /\
  posta_kodu (@neighborhood_record stub_env (u "1") (u "MERKEZ 1234")) = None.
Proof.
  split.
  - rewrite (proj1 (@postal_code_leftmost_run stub_env (u "44")
                      (u "KADIKÖY 34710 / 123456"))).
    reflexivity.
  - rewrite (proj1 (@postal_code_leftmost_run stub_env (u "1")
                      (u "MERKEZ 1234"))).
    reflexivity.
Defined.

(** ** The shape of a normalised text *)

Lemma split_go_word : forall w rest cur,
  forallb no_space w = true ->
  split_go (w ++ rest) cur = split_go rest (rev w ++ cur).
Proof.
  induction w as [|c w IH]; intros rest cur H; [reflexivity|].
  cbn [forallb] in H. apply andb_true_iff in H as [Hc Hw].
  cbn [app rev]. rewrite split_go_cons.
  unfold no_space in Hc. apply negb_true_iff in Hc. rewrite Hc.
  rewrite IH by exact Hw. now rewrite <- app_assoc.
Qed.

Lemma flush_rev (w : str) : w <> [] -> flush (rev w) = [w].
Proof.
  intro H. destruct (rev w) as [|x l] eqn:R.
  - exfalso. apply H. now rewrite <- (rev_involutive w), R.
  - cbn [flush]. now rewrite <- R, rev_involutive.
Qed.

Lemma split_join (ws : list str) :
  (forall w, In w ws -> w <> [] /\ forallb no_space w = true) ->
  split (join [c_space] ws) = ws.
Proof.
  unfold split. induction ws as [|w ws IH]; intro H; [reflexivity|].
  destruct (H w (or_introl eq_refl)) as (Hn & Hs).
  destruct ws as [|w' ws].
  - cbn [join]. rewrite <- (app_nil_r w) at 1.
    rewrite split_go_word by exact Hs. cbn [split_go]. rewrite app_nil_r.
    now apply flush_rev.
  - change (join [c_space] (w :: w' :: ws))
      with (w ++ c_space :: join [c_space] (w' :: ws)).
    rewrite split_go_word by exact Hs. rewrite split_go_cons.
    change (is_space c_space) with true. cbv iota.
    rewrite app_nil_r, flush_rev by exact Hn. cbn [app]. f_equal.
    apply IH. intros x I. apply H. now right.
Qed.

Lemma split_go_nil : forall s cur,
  split_go s cur = [] -> cur = [] /\ forallb is_space s = true.
Proof.
  induction s as [|c s IH]; intros cur H.
  - cbn [split_go] in H. destruct cur; [split; reflexivity | discriminate].
  - rewrite split_go_cons in H. cbn [forallb]. destruct (is_space c).
    + apply app_eq_nil in H as [F G]. apply IH in G as [_ G].
      destruct cur; [split; [reflexivity | exact G] | discriminate].
    + apply IH in H as [H _]. discriminate.
Qed.

Lemma split_nil (s : str) : split s = [] <-> forallb is_space s = true.
Proof.
  split.
  - intro H. now apply split_go_nil in H.
  - intro H. unfold split. now rewrite split_go_spaces.
Qed.

Lemma join_nil (sep : str) (l : list str) :
  (forall w, In w l -> w <> []) -> join sep l = [] -> l = [].
Proof.
  intros H J. destruct l as [|w l]; [reflexivity|]. exfalso.
  apply (H w (or_introl eq_refl)).
  destruct l as [|w' l].
  - exact J.
  - change (join sep (w :: w' :: l)) with (w ++ sep ++ join sep (w' :: l))
      in J.
    now apply app_eq_nil in J.
Qed.

Lemma forallb_flat_map (p : char -> bool) (f : char -> str) (s : str) :
  (forall c, In c s -> forallb p (f c) = true) ->
  forallb p (flat_map f s) = true.
Proof.
  induction s as [|c s IH]; intro H; [reflexivity|]. cbn [flat_map].
  rewrite forallb_app, H by now left. apply IH. intros; apply H; now right.
Qed.

Lemma is_space_printable (c : char) :
  (33 <= c)%N -> (c < 133)%N -> is_space c = false.
Proof.
  intros L U. unfold is_space.
  replace (N.leb c 13) with false by (symmetry; apply N.leb_gt; lia).
  replace (N.leb c 32) with false by (symmetry; apply N.leb_gt; lia).
  replace (N.leb 8192 c) with false by (symmetry; apply N.leb_gt; lia).
  repeat match goal with
         | |- context [N.eqb c ?n] =>
             replace (N.eqb c n) with false
               by (symmetry; apply N.eqb_neq; lia)
         end.
  now rewrite !andb_false_r.
Qed.

Lemma join_ends (ws : list str) :
  ws <> [] ->
  (forall w, In w ws -> w <> [] /\ forallb no_space w = true) ->
  (exists c t, join [c_space] ws = c :: t /\ is_space c = false) /\
  (exists t c, join [c_space] ws = t ++ [c] /\ is_space c = false).
Proof.
  induction ws as [|w ws IH]; intros N H; [contradiction|].
  destruct (H w (or_introl eq_refl)) as (Hn & Hs).
  assert (Hd : exists c t, w = c :: t /\ is_space c = false).
  { destruct w as [|c t]; [contradiction|]. exists c, t.
    split; [reflexivity|]. cbn [forallb] in Hs.
    apply andb_true_iff in Hs as [Hs _]. now apply negb_true_iff in Hs. }
  destruct ws as [|w' ws].
  - cbn [join]. split; [exact Hd|].
    destruct (exists_last Hn) as (t & c & ->). exists t, c.
    split; [reflexivity|]. rewrite forallb_app in Hs.
    apply andb_true_iff in Hs as [_ Hs]. cbn [forallb] in Hs.
    rewrite andb_true_r in Hs. now apply negb_true_iff in Hs.
  - change (join [c_space] (w :: w' :: ws))
      with (w ++ c_space :: join [c_space] (w' :: ws)).
    destruct IH as (_ & t & c & -> & Sc);
      [discriminate | intros x I; apply H; now right |].
    split.
    + destruct Hd as (c0 & t0 & -> & S0). exists c0. eexists.
      split; [reflexivity | exact S0].
    + exists (w ++ c_space :: t), c. split; [|exact Sc].
      now rewrite <- app_assoc.
Qed.

Lemma strip_join (ws : list str) :
  (forall w, In w ws -> w <> [] /\ forallb no_space w = true) ->
  strip (join [c_space] ws) = join [c_space] ws.
Proof.
  intro H. destruct ws as [|w ws]; [reflexivity|].
  destruct (join_ends (w :: ws)) as ((c & t & Eh & Sh) & (t' & c' & Et & St));
    [discriminate | exact H |].
  unfold strip. rewrite Eh. cbn [lstrip]. rewrite Sh, <- Eh, Et.
  unfold rstrip. rewrite rev_app_distr. cbn [rev app lstrip]. rewrite St.
  now rewrite <- (rev_involutive t') at 2.
Qed.

Section Shape.
Context {E : Env}.

Lemma title_word_nonempty (w : str) : w <> [] -> spec_title_word w <> [].
Proof. destruct w; [contradiction | discriminate]. Qed.

(** X4.  [clean_text] returns the empty string exactly when the text, once
  its character references are decoded, is white space only. *)
Theorem clean_text_empty (text : str) :
clean_text text = [] <-> forallb is_space (html_unescape text) = true.
Proof.
rewrite clean_text_spec, <- split_nil. unfold spec_normalize. split.
- intro J. apply join_nil in J.
  + now apply map_eq_nil in J.
  + intros w' I. apply in_map_iff in I as (w & <- & I).
    apply title_word_nonempty. now apply split_go_nonempty in I.
- intros ->. reflexivity.
Qed.

(** The lower-case form of a digit or of a lower-case ASCII letter is the
  character itself. *)
Lemma spec_lower_small (c : char) :
is_ascii_lower c || is_ascii_digit c = true -> spec_lower c = [c].
Proof.
unfold is_ascii_lower, is_ascii_digit. intro H.
assert (R : (97 <= c /\ c <= 122)%N \/ (48 <= c /\ c <= 57)%N).
{ apply orb_true_iff in H as [H|H]; apply andb_true_iff in H as [A B];
    apply N.leb_le in A, B; [left | right]; now split. }
clear H. unfold spec_lower.
repeat match goal with
       | |- context [N.eqb c ?n] =>
           replace (N.eqb c n) with false
             by (symmetry; apply N.eqb_neq; lia)
       end.
unfold py_lower, is_ascii_upper.
replace (N.leb 65 c && N.leb c 90) with false.
- replace (N.ltb c 128) with true by (symmetry; apply N.ltb_lt; lia).
  reflexivity.
- symmetry. apply andb_false_iff.
  destruct R; [right; apply N.leb_gt | left; apply N.leb_gt]; lia.
Qed.

Lemma small_no_space (c : char) :
is_ascii_lower c || is_ascii_digit c = true -> no_space c = true.
Proof.
unfold is_ascii_lower, is_ascii_digit, no_space. intro H.
apply negb_true_iff, is_space_printable;
  apply orb_true_iff in H as [H|H]; apply andb_true_iff in H as [A B];
  apply N.leb_le in A, B; lia.
Qed.

(** X5.  The normaliser never turns a letter into upper case: a text of
  words made of digits and lower-case ASCII letters, separated by single
  spaces, comes back unchanged. *)
Theorem lower_case_text_unchanged (ws : list str) :
(forall w, In w ws ->
   w <> [] /\
   forallb (fun c => is_ascii_lower c || is_ascii_digit c) w = true) ->
capitalize_first_letter (join [c_space] ws) = join [c_space] ws.
Proof.
intro H. rewrite capitalize_first_letter_spec. unfold spec_normalize.
rewrite split_join.
- f_equal. rewrite <- (map_id ws) at 2. apply map_ext_in. intros w I.
  destruct (H w I) as (_ & F). destruct w as [|c rest]; [reflexivity|].
  cbn [spec_title_word]. f_equal. cbn [forallb] in F.
  apply andb_true_iff in F as [_ F]. clear I.
  induction rest as [|x rest IH]; [reflexivity|]. cbn [forallb] in F.
  apply andb_true_iff in F as [Fx F]. cbn [flat_map].
  now rewrite spec_lower_small, IH.
- intros w I. destruct (H w I) as (N & F). split; [exact N|].
  apply forallb_forall. intros c Ic. apply small_no_space.
  rewrite forallb_forall in F. now apply F.
Qed.

Hypothesis lower_no_space :
forall c, (128 <= c)%N -> no_space c = true ->
          forallb no_space (unicode_lower c) = true.

Lemma spec_lower_no_space (c : char) :
no_space c = true -> forallb no_space (spec_lower c) = true.
Proof.
intro S. unfold spec_lower.
repeat match goal with
       | |- context [N.eqb c ?n] => destruct (N.eqb c n); [reflexivity|]
       end.
unfold py_lower, is_ascii_upper.
destruct (N.leb_spec 65 c); cbn [andb].
- destruct (N.leb_spec c 90).
  + cbn [forallb]. rewrite andb_true_r. unfold no_space.
    apply negb_true_iff, is_space_printable; lia.
  + destruct (N.ltb_spec c 128); [|now apply lower_no_space].
    cbn [forallb]. now rewrite S.
- destruct (N.ltb_spec c 128); [|now apply lower_no_space].
  cbn [forallb]. now rewrite S.
Qed.

Lemma title_word_ok (w : str) (text : str) :
In w (split text) ->
spec_title_word w <> [] /\ forallb no_space (spec_title_word w) = true.
Proof.
intro I. pose proof (split_go_nonempty _ _ _ I) as N.
apply split_go_no_space in I; [|reflexivity].
split; [now apply title_word_nonempty|].
destruct w as [|c rest]; [contradiction|]. cbn [spec_title_word forallb].
cbn [forallb] in I. apply andb_true_iff in I as [Ic Ir]. rewrite Ic.
apply forallb_flat_map. intros x Ix. apply spec_lower_no_space.
rewrite forallb_forall in Ir. now apply Ir.
Qed.

Lemma split_clean_text (text : str) :
split (clean_text text)
= map spec_title_word (split (html_unescape text)).
Proof.
rewrite clean_text_spec. unfold spec_normalize. apply split_join.
intros w' I. apply in_map_iff in I as (w & <- & I).
now apply title_word_ok in I.
Qed.

(** X6.  A normalised text is its words joined by single spaces: it has no
  white space at its ends and none but single spaces between its words;
  it has as many words as the text it was made from, and normalising its
  white space again changes nothing. *)
Theorem clean_text_single_spaced (text : str) :
join [c_space] (split (clean_text text)) = clean_text text /\
length (split (clean_text text)) = length (split (html_unescape text)) /\
strip (clean_text text) = clean_text text.
Proof.
split; [|split].
- rewrite split_clean_text. symmetry. apply clean_text_spec.
- now rewrite split_clean_text, length_map.
- rewrite clean_text_spec. unfold spec_normalize.
  rewrite <- split_clean_text. apply strip_join.
  intros w' I. rewrite split_clean_text in I.
  apply in_map_iff in I as (w & <- & I). exact (title_word_ok _ _ I).
Qed.
End Shape.

Lemma clean_text_single_spaced_witness :
  join [c_space] (split (@clean_text stub_env (u "  KADIKÖY   MERKEZ ")))
  = u "Kadıköy Merkez" /\
  length (split (@clean_text stub_env (u "  KADIKÖY   MERKEZ "))) = 2 /\
  strip (@clean_text stub_env (u "  KADIKÖY   MERKEZ ")) = u "Kadıköy Merkez".
Proof.
  assert (L : forall c, (128 <= c)%N -> no_space c = true ->
                        forallb no_space (@unicode_lower stub_env c) = true).
  { intros c _ S. cbn [unicode_lower stub_env forallb]. now rewrite S. }
  destruct (@clean_text_single_spaced stub_env L (u "  KADIKÖY   MERKEZ "))
    as (A & B & C).
  rewrite A, B, C. repeat split; reflexivity.
Defined.

Lemma lower_case_text_unchanged_witness :
  @capitalize_first_letter stub_env
    (join [c_space] [u "adana"; u "merkez"; u "2"])
  = join [c_space] [u "adana"; u "merkez"; u "2"].
Proof.
  apply (@lower_case_text_unchanged stub_env).
  intros w [<-|[<-|[<-|[]]]]; split; (discriminate || reflexivity).
Defined.

(** ** The hidden state fields, in general *)

Lemma firstn_prefix (x y : str) :
  firstn (length (x ++ y) - length y) (x ++ y) = x.
Proof.
  rewrite length_app, Nat.add_sub, firstn_app, Nat.sub_diag, firstn_all.
  cbn [firstn]. apply app_nil_r.
Qed.

Lemma not_char_mem (x : char) (s : str) :
  forallb (not_char x) s = true <-> mem x s = false.
Proof.
  induction s as [|c s IH]; [split; reflexivity|].
  cbn [forallb mem existsb]. fold (mem x s). unfold not_char at 1.
  unfold char_eqb. rewrite (N.eqb_sym x c).
  destruct (N.eqb c x); cbn [negb andb orb]; [split; discriminate | exact IH].
Qed.

Lemma search_from_first (r : regex) : forall a bef t rest cs,
  (forall a1 a2, a = a1 ++ a2 -> a2 <> [] ->
     match_at r false (a2 ++ t) = None) ->
  match_at r false t = Some (rest, cs) ->
  search_from r bef (a ++ t) = Some (rev bef ++ a, rest, cs).
Proof.
  induction a as [|c a IH]; intros bef t rest cs H M.
  - cbn [app]. destruct t; cbn [search_from]; rewrite M, app_nil_r;
      reflexivity.
  - cbn [app search_from].
    change (c :: a ++ t) with ((c :: a) ++ t).
    rewrite (H [] (c :: a) eq_refl) by discriminate.
    rewrite (IH (c :: bef) t rest cs).
    + cbn [rev]. now rewrite <- app_assoc.
    + intros a1 a2 -> N. now apply (H (c :: a1) a2).
    + exact M.
Qed.

Lemma search_first (r : regex) (a t rest : str) (cs : caps) :
  (forall a1 a2, a = a1 ++ a2 -> a2 <> [] ->
     match_at r false (a2 ++ t) = None) ->
  match_at r false t = Some (rest, cs) ->
  search r (a ++ t) = Some (a, rest, cs).
Proof. intros H M. unfold search. now rewrite (search_from_first r a [] t rest cs). Qed.

(** No occurrence of [m] starts in [pre] when [pre] and [m] less its last
    character hold none. *)
Lemma first_occurrence (m pre rest : str) :
  m <> [] -> substr m (pre ++ removelast m) = false ->
  forall a1 a2, pre = a1 ++ a2 -> a2 <> [] ->
    strip_prefix m (a2 ++ m ++ rest) = None.
Proof.
  intros Hm S a1 a2 -> N.
  destruct (strip_prefix m (a2 ++ m ++ rest)) as [r|] eqn:P; [|reflexivity].
  exfalso. apply strip_prefix_some in P. rewrite substr_false in S.
  destruct (exists_last Hm) as (n & l & ->).
  rewrite removelast_last in S.
  assert (L : length (n ++ [l]) <= length (a2 ++ n)).
  { rewrite !length_app. destruct a2; [contradiction|]. cbn [length]. lia. }
  assert (R : firstn (length (n ++ [l])) ((n ++ [l]) ++ r) = n ++ [l]).
  { rewrite firstn_app, Nat.sub_diag, firstn_all. cbn [firstn].
    apply app_nil_r. }
  assert (Q : firstn (length (n ++ [l])) (a2 ++ (n ++ [l]) ++ rest)
              = firstn (length (n ++ [l])) (a2 ++ n)).
  { rewrite <- (app_assoc n [l] rest), (app_assoc a2 n).
    rewrite (firstn_app _ (a2 ++ n)).
    replace (length (n ++ [l]) - length (a2 ++ n)) with 0 by lia.
    cbn [firstn]. apply app_nil_r. }
  rewrite P, R in Q.
  apply (S a1 (skipn (length (n ++ [l])) (a2 ++ n))).
  rewrite Q at 1. rewrite firstn_skipn. now rewrite app_assoc.
Qed.

Lemma field_den (name s rest : str) (cs : caps) :
  den (field_pattern name) s [] rest cs ->
  exists c v,
    not_char c_dquote c = true /\ forallb (not_char c_dquote) v = true /\
    s = field_marker name ++ (c :: v) ++ c_dquote :: rest /\
    cs = [(1, c :: v)].
Proof.
  unfold field_pattern. intro D.
  inversion D as [| | | |r1 r2 s0 cs0 s1 cs1 s2 cs2 D1 D2| |]; subst.
  inversion D1 as [l s0 cs0| | | | | |]; subst.
  inversion D2 as [| | | |r1 r2 s0 cs0 s3 cs3 s4 cs4 D3 D4| |]; subst.
  inversion D3 as [| | | | |n r s0 cs0 s5 cs5 D5|]; subst.
  inversion D4 as [l s0 cs0| | | | | |]; subst.
  unfold PlusG in D5.
  inversion D5 as [| | | |r1 r2 s0 cs0 s6 cs6 s7 cs7 D6 D7| |]; subst.
  inversion D6 as [|p c s0 cs0 Hc| | | | |]; subst.
  inversion D7 as [| |p v s0 cs0 Hv| | | |]; subst.
  exists c, v. split; [exact Hc|]. split; [exact Hv|]. split; [reflexivity|].
  change (c :: v ++ [c_dquote] ++ rest) with ((c :: v) ++ c_dquote :: rest).
  now rewrite firstn_prefix.
Qed.

Lemma match_at_field (name v rest : str) :
  v <> [] -> mem c_dquote v = false ->
  match_at (field_pattern name) false
    (field_marker name ++ v ++ c_dquote :: rest)
  = Some (rest, [(1, v)]).
Proof.
  intros N Q. destruct v as [|c v]; [contradiction|].
  apply not_char_mem in Q. cbn [forallb] in Q.
  apply andb_true_iff in Q as [Qc Qv].
  unfold match_at, field_pattern, field_marker, PlusG. cbn [rmatch].
  rewrite strip_prefix_app. cbn [app]. rewrite Qc.
  erewrite starG_greedy; [reflexivity|].
  rewrite drop_while_app by exact Qv.
  rewrite drop_while_head by reflexivity.
  cbn [strip_prefix]. unfold char_eqb at 1. rewrite N.eqb_refl.
  cbn [andb]. do 2 f_equal.
  change (c :: v ++ c_dquote :: rest) with ((c :: v) ++ c_dquote :: rest).
  now rewrite firstn_prefix.
Qed.

Lemma field_marker_nonempty (name : str) : field_marker name <> [].
Proof. unfold field_marker. intro H. now apply app_eq_nil in H as [_ H]. Qed.

Lemma field_value_sound (name html v : str) :
  group1 (search (field_pattern name) html) = Some v ->
  v <> [] /\ mem c_dquote v = false /\
  exists a b, html = a ++ field_marker name ++ v ++ c_dquote :: b.
Proof.
  destruct (search (field_pattern name) html) as [[[pre rest] cs]|] eqn:S;
    [|discriminate].
  cbn [group1]. intro G. apply search_some in S as (t & -> & M & _).
  apply match_at_sound, field_den in M as (c & w & Hc & Hw & -> & ->).
  cbn in G. injection G as <-. split; [discriminate|]. split.
  - apply not_char_mem. cbn [forallb]. now rewrite Hc.
  - now exists pre, rest.
Qed.

Lemma field_value_first (name a v b : str) :
  v <> [] -> mem c_dquote v = false ->
  substr (field_marker name) (a ++ removelast (field_marker name)) = false ->
  group1 (search (field_pattern name)
            (a ++ field_marker name ++ v ++ c_dquote :: b)) = Some v.
Proof.
  intros N Q F.
  rewrite (search_first (field_pattern name) a _ b [(1, v)]).
  - reflexivity.
  - intros a1 a2 Ea Na. unfold match_at, field_pattern. cbn [rmatch].
    fold (field_marker name).
    now rewrite (first_occurrence (field_marker name) a _
                   (field_marker_nonempty name) F a1 a2 Ea Na).
  - now apply match_at_field.
Qed.

(** X7.  A state token that [extract_viewstate_and_validation] returns is
    the text between the double quotes of a [value] attribute that follows
    the name of its field in the markup; it is never empty, so a token
    counts as missing only when it is [None].  When the field occurs, with a
    non-empty value, at the first place where its name and [value=] stand,
    that value is the token. *)
Theorem state_tokens_extracted (html : str) :
  (forall v,
     fst (extract_viewstate_and_validation html) = Some v ->
     falsy (Some v) = false /\ mem c_dquote v = false /\
     exists a b,
       html = a ++ field_marker (u "__VIEWSTATE") ++ v ++ c_dquote :: b) /\
  (forall v,
     snd (extract_viewstate_and_validation html) = Some v ->
     falsy (Some v) = false /\ mem c_dquote v = false /\
     exists a b,
       html
       = a ++ field_marker (u "__EVENTVALIDATION") ++ v ++ c_dquote :: b) /\
  (forall a v b,
     html = a ++ field_marker (u "__VIEWSTATE") ++ v ++ c_dquote :: b ->
     v <> [] -> mem c_dquote v = false ->
     substr (field_marker (u "__VIEWSTATE"))
       (a ++ removelast (field_marker (u "__VIEWSTATE"))) = false ->
     fst (extract_viewstate_and_validation html) = Some v) /\
  (forall a v b,
     html = a ++ field_marker (u "__EVENTVALIDATION") ++ v ++ c_dquote :: b ->
     v <> [] -> mem c_dquote v = false ->
     substr (field_marker (u "__EVENTVALIDATION"))
       (a ++ removelast (field_marker (u "__EVENTVALIDATION"))) = false ->
     snd (extract_viewstate_and_validation html) = Some v).
Proof.
  unfold extract_viewstate_and_validation. cbn [fst snd].
  assert (F : forall v : str, v <> [] -> falsy (Some v) = false).
  { intros [|c v] N; [contradiction | reflexivity]. }
  split; [|split; [|split]].
  - intros v H. apply field_value_sound in H as (N & Q & D). auto.
  - intros v H. apply field_value_sound in H as (N & Q & D). auto.
  - intros a v b -> N Q S. now apply field_value_first.
  - intros a v b -> N Q S. now apply field_value_first.
Qed.

Lemma state_tokens_extracted_witness :
  fst (extract_viewstate_and_validation stub_root_page) = Some (u "V0") /\
  snd (extract_viewstate_and_validation stub_root_page) = Some (u "E0").
Proof.
  destruct (state_tokens_extracted stub_root_page) as (_ & _ & V & W).
  split.
  - apply (V (dq (u "<input id='"))
             (u "V0")
             (dq (u " /><input id='__EVENTVALIDATION' value='E0' /><select id='MainContent_DropDownList1'><option value='-1'>Seciniz</option><option value='1'>ADANA</option><option value='2'>ADIYAMAN</option><option value='1'>ADANA</option></select>")));
      [vm_compute; reflexivity | discriminate | vm_compute; reflexivity
      | vm_compute; reflexivity].
  - apply (W (dq (u "<input id='__VIEWSTATE' value='V0' /><input id='"))
             (u "E0")
             (dq (u " /><select id='MainContent_DropDownList1'><option value='-1'>Seciniz</option><option value='1'>ADANA</option><option value='2'>ADIYAMAN</option><option value='1'>ADANA</option></select>")));
      [vm_compute; reflexivity | discriminate | vm_compute; reflexivity
      | vm_compute; reflexivity].
Defined.

(** ** The list parsers, in general *)

Lemma clash_none : forall l s rest,
  clash l s = true -> strip_prefix l (s ++ rest) = None.
Proof.
  induction l as [|x l IH]; intros [|y s] rest H; try discriminate.
  cbn [clash] in H. cbn [app strip_prefix].
  destruct (char_eqb x y); [now apply IH | reflexivity].
Qed.

Lemma clash_all_spec (l : str) : forall x,
  clash_all l x = true ->
  forall x1 x2 rest, x = x1 ++ x2 -> x2 <> [] ->
    strip_prefix l (x2 ++ rest) = None.
Proof.
  induction x as [|c x IH]; intros H x1 x2 rest Eq N.
  - symmetry in Eq. apply app_eq_nil in Eq as [_ ->]. contradiction.
  - cbn [clash_all] in H. apply andb_true_iff in H as [H1 H2].
    destruct x1 as [|c1 x1].
    + cbn [app] in Eq. subst x2. now apply clash_none.
    + injection Eq as -> ->. now apply (IH H2 x1 x2).
Qed.

Lemma clash_app : forall l x y, clash l x = true -> clash l (x ++ y) = true.
Proof.
  induction l as [|a l IH]; intros [|b x] y H; try discriminate.
  cbn [clash app] in *. destruct (char_eqb a b); [now apply IH | reflexivity].
Qed.

Lemma clash_all_app (l : str) : forall x y,
  clash_all l x = true -> clash_all l y = true ->
  clash_all l (x ++ y) = true.
Proof.
  induction x as [|c x IH]; intros y Hx Hy; [exact Hy|].
  cbn [clash_all] in Hx. apply andb_true_iff in Hx as [H1 H2].
  change ((c :: x) ++ y) with (c :: x ++ y). cbn [clash_all].
  rewrite IH by assumption.
  change (c :: x ++ y) with ((c :: x) ++ y). now rewrite clash_app.
Qed.

Lemma clash_all_absent (l0 : char) (l x : str) :
  mem l0 x = false -> clash_all (l0 :: l) x = true.
Proof.
  induction x as [|c x IH]; intro H; [reflexivity|].
  cbn [mem existsb] in H. apply orb_false_iff in H as [H1 H2].
  cbn [clash_all clash]. rewrite H1. now apply IH.
Qed.

Lemma starL_first {R : Type} (p : char -> bool) (k : str -> option R) :
  forall a b x,
    forallb p a = true ->
    (forall a1 a2, a = a1 ++ a2 -> a2 <> [] -> k (a2 ++ b) = None) ->
    k b = Some x -> starL p (a ++ b) k = Some x.
Proof.
  induction a as [|c a IH]; intros b x P H K.
  - cbn [app]. destruct b; cbn [starL]; now rewrite K.
  - cbn [forallb] in P. apply andb_true_iff in P as [Pc Pa].
    cbn [app starL]. change (c :: a ++ b) with ((c :: a) ++ b).
    rewrite (H [] (c :: a) eq_refl) by discriminate. rewrite Pc.
    apply IH; [exact Pa | | exact K].
    intros a1 a2 -> N. now apply (H (c :: a1) a2).
Qed.

Lemma match_at_select (name attrs content post : str) :
  mem c_gt attrs = false -> clash_all (u "</select>") content = true ->
  match_at (select_pattern name) false
    ((name ++ [c_dquote]) ++ attrs ++ [c_gt] ++ content
       ++ u "</select>" ++ post)
  = Some (post, [(1, content)]).
Proof.
  intros A C. unfold match_at, select_pattern. cbn [rmatch].
  rewrite strip_prefix_app.
  erewrite starL_first; [reflexivity | apply forallb_any | |].
  - intros a1 a2 Ea Na.
    now rewrite (clash_all_spec [c_gt] attrs (clash_all_absent _ _ _ A)
                   a1 a2 _ Ea Na).
  - rewrite (strip_prefix_app [c_gt]).
    erewrite starL_first; [reflexivity | apply forallb_any | |].
    + intros c1 c2 Ec Nc.
      now rewrite (clash_all_spec _ content C c1 c2 _ Ec Nc).
    + rewrite strip_prefix_app, firstn_prefix. cbn [andb]. reflexivity.
Qed.

Lemma removelast_snoc (s : str) (c : char) : removelast (s ++ [c]) = s.
Proof. apply removelast_last. Qed.

Lemma search_select (name pre attrs content post : str) :
  substr (name ++ [c_dquote]) (pre ++ name) = false ->
  mem c_gt attrs = false -> clash_all (u "</select>") content = true ->
  search (select_pattern name)
    (pre ++ (name ++ [c_dquote]) ++ attrs ++ [c_gt] ++ content
       ++ u "</select>" ++ post)
  = Some (pre, post, [(1, content)]).
Proof.
  intros F A C. apply search_first; [|now apply match_at_select].
  intros a1 a2 Ea Na. unfold match_at, select_pattern. cbn [rmatch].
  rewrite <- (removelast_snoc name c_dquote) in F at 2.
  assert (Nm : name ++ [c_dquote] <> []).
  { intro H. now apply app_eq_nil in H as [_ H]. }
  now rewrite (first_occurrence (name ++ [c_dquote]) pre _ Nm F a1 a2 Ea Na).
Qed.

Lemma match_at_den (r : regex) (b : bool) (s rest : str) (cs : caps) :
  match_at r b s = Some (rest, cs) -> den r s [] rest cs.
Proof.
  unfold match_at. intro H.
  apply rmatch_sound in H as (s' & cs' & D & K).
  destruct (b && Nat.eqb (length s') (length s)); [discriminate|].
  now injection K as <- <-.
Qed.

(** Whatever a scan returns for a match comes from a match of the pattern
    at a position of the subject. *)
Lemma scan_in {A : Type} (r : regex) (on_match : caps -> list A) :
  forall s skip x,
    In x (scan r on_match (fun _ => []) s skip) ->
    exists a t rest cs,
      s = a ++ t /\ den r t [] rest cs /\ In x (on_match (whole t rest cs)).
Proof.
  assert (Shift : forall c s x,
    (exists a t rest cs,
       s = a ++ t /\ den r t [] rest cs /\
       In x (on_match (whole t rest cs))) ->
    exists a t rest cs,
      c :: s = a ++ t /\ den r t [] rest cs /\
      In x (on_match (whole t rest cs))).
  { intros c s x (a & t & rest & cs & -> & D & I).
    now exists (c :: a), t, rest, cs. }
  induction s as [|c s IH]; intros skip x H.
  - cbn [scan] in H. destruct skip; [|contradiction].
    destruct (match_at r false []) as [[rest cs]|] eqn:M; [|contradiction].
    exists [], [], rest, cs. split; [reflexivity|].
    split; [now apply match_at_den in M | exact H].
  - cbn [scan] in H. destruct skip as [|n].
    + destruct (match_at r false (c :: s)) as [[rest cs]|] eqn:M.
      * assert (Here : In x (on_match (whole (c :: s) rest cs)) ->
                       exists a t rest0 cs0,
                         c :: s = a ++ t /\ den r t [] rest0 cs0 /\
                         In x (on_match (whole t rest0 cs0))).
        { intro I. exists [], (c :: s), rest, cs. split; [reflexivity|].
          split; [now apply match_at_den in M | exact I]. }
        destruct (length (c :: s) - length rest).
        -- apply in_app_or in H as [H|H]; [now apply Here|].
           destruct (match_at r true (c :: s)) as [[rest' cs']|] eqn:M'.
           ++ apply in_app_or in H as [H|H].
              ** exists [], (c :: s), rest', cs'. split; [reflexivity|].
                 split; [now apply match_at_den in M' | exact H].
              ** apply Shift. now apply IH in H.
           ++ cbn [app] in H. apply Shift. now apply IH in H.
        -- apply in_app_or in H as [H|H]; [now apply Here|].
           apply Shift. now apply IH in H.
      * cbn [app] in H. apply Shift. now apply IH in H.
    + apply Shift. now apply IH in H.
Qed.

Lemma drop_while_close (rest : str) :
  drop_while (not_char c_lt) (option_close ++ rest) = option_close ++ rest.
Proof. reflexivity. Qed.

Section OptionPattern.
Variable p : char -> bool.

Let option_pattern : regex :=
Seq (Lit option_open)
  (Seq (Group 1 (PlusG p))
     (Seq (Lit option_mid)
        (Seq (Group 2 (PlusG (not_char c_lt))) (Lit option_close)))).

Lemma option_den (s rest : str) (cs : caps) :
den option_pattern s [] rest cs ->
exists o,
  well_formed p o = true /\ s = render_option o ++ rest /\
  cs = [(2, snd o); (1, fst o)].
Proof.
unfold option_pattern, PlusG. intro D.
inversion D as [| | | |r1 r2 s0 cs0 s1 cs1 s2 cs2 D1 D2| |]; subst.
inversion D1 as [l s0 cs0| | | | | |]; subst.
inversion D2 as [| | | |r1 r2 s0 cs0 s3 cs3 s4 cs4 D3 D4| |]; subst.
inversion D3 as [| | | | |n r s0 cs0 s5 cs5 D5|]; subst.
inversion D5 as [| | | |r1 r2 s0 cs0 s6 cs6 s7 cs7 D6 D7| |]; subst.
inversion D6 as [|q c s0 cs0 Hc| | | | |]; subst.
inversion D7 as [| |q v s0 cs0 Hv| | | |]; subst.
inversion D4 as [| | | |r1 r2 s0 cs0 s8 cs8 s9 cs9 D8 D9| |]; subst.
inversion D8 as [l s0 cs0| | | | | |]; subst.
inversion D9 as [| | | |r1 r2 s0 cs0 s10 cs10 s11 cs11 D10 D11| |]; subst.
inversion D10 as [| | | | |n r s0 cs0 s12 cs12 D12|]; subst.
inversion D11 as [l s0 cs0| | | | | |]; subst.
inversion D12 as [| | | |r1 r2 s0 cs0 s13 cs13 s14 cs14 D13 D14| |]; subst.
inversion D13 as [|q c' s0 cs0 Hc'| | | | |]; subst.
inversion D14 as [| |q w s0 cs0 Hw| | | |]; subst.
exists (c :: v, c' :: w). cbn [fst snd well_formed forallb].
rewrite Hc, Hv, Hc', Hw. split; [reflexivity|]. split.
- unfold render_option. cbn [fst snd]. now rewrite <- !app_assoc.
- change (c' :: w ++ option_close ++ rest)
    with ((c' :: w) ++ option_close ++ rest).
  rewrite firstn_prefix.
  change (c :: v ++ option_mid ++ (c' :: w) ++ option_close ++ rest)
    with ((c :: v) ++ option_mid ++ (c' :: w) ++ option_close ++ rest).
  now rewrite firstn_prefix.
Qed.

Hypothesis quote_outside : p c_dquote = false.

Lemma match_at_option (o : str * str) (rest : str) :
well_formed p o = true ->
match_at option_pattern false (render_option o ++ rest)
= Some (rest, [(2, snd o); (1, fst o)]).
Proof.
destruct o as [[|c v] [|c' w]]; try discriminate.
cbn [well_formed fst snd forallb]. intro H.
apply andb_true_iff in H as [H1 H2].
apply andb_true_iff in H1 as [Hc Hv]. apply andb_true_iff in H2 as [Hc' Hw].
unfold match_at, option_pattern, PlusG, render_option. cbn [rmatch fst snd].
rewrite <- !app_assoc, strip_prefix_app. cbn [app]. rewrite Hc.
erewrite starG_greedy; [reflexivity|].
rewrite drop_while_app by exact Hv.
change (option_mid ++ c' :: w ++ option_close ++ rest)
  with (c_dquote :: c_gt :: c' :: w ++ option_close ++ rest).
rewrite drop_while_head by exact quote_outside.
change (c_dquote :: c_gt :: c' :: w ++ option_close ++ rest)
  with (option_mid ++ c' :: w ++ option_close ++ rest).
rewrite strip_prefix_app. rewrite Hc'.
erewrite starG_greedy; [reflexivity|].
rewrite drop_while_app by exact Hw.
rewrite drop_while_close.
rewrite strip_prefix_app. cbn [andb].
change (c' :: w ++ option_close ++ rest)
  with ((c' :: w) ++ option_close ++ rest).
rewrite firstn_prefix.
change (c :: v ++ option_mid ++ (c' :: w) ++ option_close ++ rest)
  with ((c :: v) ++ option_mid ++ (c' :: w) ++ option_close ++ rest).
now rewrite firstn_prefix.
Qed.

Lemma findall2_rendered (opts : list (str * str)) :
forallb (well_formed p) opts = true ->
findall2 option_pattern (concat (map render_option opts)) = opts.
Proof.
unfold findall2. induction opts as [|o opts IH]; intro H.
- reflexivity.
- cbn [forallb] in H. apply andb_true_iff in H as [Ho H].
  cbn [map concat].
  rewrite (scan_match_at _ _ _ _ (render_option o)
             (concat (map render_option opts)) [(2, snd o); (1, fst o)]).
  + rewrite IH by exact H. destruct o. reflexivity.
  + now apply match_at_option.
  + reflexivity.
  + unfold render_option. intro Z. apply app_eq_nil in Z as [Z _].
    discriminate.
Qed.

Lemma findall2_sound (s : str) (o : str * str) :
In o (findall2 option_pattern s) ->
well_formed p o = true /\ exists a b, s = a ++ render_option o ++ b.
Proof.
unfold findall2. intro H. apply scan_in in H as (a & t & rest & cs & -> & D & I).
apply option_den in D as (o' & W & -> & ->).
unfold whole in I. cbn [group Nat.eqb] in I. destruct I as [<-|[]].
destruct o'. split; [exact W|]. now exists a, rest.
Qed.
End OptionPattern.

Lemma select_den_group (name t rest : str) (cs : caps) :
  den (select_pattern name) t [] rest cs ->
  exists b c,
    t = (name ++ [c_dquote]) ++ b ++ [c_gt] ++ c ++ u "</select>" ++ rest /\
    group cs 1 = Some c.
Proof.
  unfold select_pattern. intro D.
  inversion D as [| | | |r1 r2 s0 cs0 s1 cs1 s2 cs2 D1 D2| |]; subst.
  inversion D1 as [l s0 cs0| | | | | |]; subst.
  inversion D2 as [| | | |r1 r2 s0 cs0 s3 cs3 s4 cs4 D3 D4| |]; subst.
  inversion D3 as [| | |p b s0 cs0 Hb| | |]; subst.
  inversion D4 as [| | | |r1 r2 s0 cs0 s5 cs5 s6 cs6 D5 D6| |]; subst.
  inversion D5 as [l s0 cs0| | | | | |]; subst.
  inversion D6 as [| | | |r1 r2 s0 cs0 s7 cs7 s8 cs8 D7 D8| |]; subst.
  inversion D7 as [| | | | |n r s0 cs0 s9 cs9 D9|]; subst.
  inversion D9 as [| | |p c s0 cs0 Hc| | |]; subst.
  inversion D8 as [l s0 cs0| | | | | |]; subst.
  exists b, c. split; [reflexivity|]. cbn [group Nat.eqb].
  now rewrite firstn_prefix.
Qed.

Section StarMin.
Variable R : Type.

Lemma starL_min (p : char -> bool) (k : str -> option R) : forall s x,
starL p s k = Some x ->
exists a b,
  s = a ++ b /\ forallb p a = true /\ k b = Some x /\
  forall a1 a2, a = a1 ++ a2 -> a2 <> [] -> k (a2 ++ b) = None.
Proof.
induction s as [|c s IH]; intros x H.
- cbn [starL] in H. destruct (k []) eqn:K; [|discriminate].
  injection H as ->. exists [], []. repeat split; try assumption.
  intros a1 a2 Ea Na. symmetry in Ea. apply app_eq_nil in Ea as [_ ->].
  contradiction.
- cbn [starL] in H. destruct (k (c :: s)) eqn:K.
  + injection H as ->. exists [], (c :: s). repeat split; try assumption.
    intros a1 a2 Ea Na. symmetry in Ea. apply app_eq_nil in Ea as [_ ->].
    contradiction.
  + destruct (p c) eqn:Pc; [|discriminate].
    destruct (IH x H) as (a & b & -> & Pa & Kb & Min).
    exists (c :: a), b. split; [reflexivity|]. split.
    { cbn [forallb]. now rewrite Pc. }
    split; [exact Kb|].
    intros a1 a2 Ea Na. destruct a1 as [|c1 a1].
    * cbn [app] in Ea. subst a2. exact K.
    * injection Ea as _ ->. now apply (Min a1 a2).
Qed.
End StarMin.

Lemma removelast_length (m : str) :
  m <> [] -> length m = S (length (removelast m)).
Proof.
  intro N. destruct (exists_last N) as (n & l & ->).
  rewrite removelast_last, length_app. cbn [length]. lia.
Qed.

(** An occurrence that starts inside [pre]. *)
Lemma earlier_occurrence (m pre : str) :
  m <> [] -> substr m (pre ++ removelast m) = true ->
  exists a1 a2 w, pre = a1 ++ a2 /\ a2 <> [] /\ a2 ++ m = m ++ w.
Proof.
  intros N S. apply substr_true in S as (x & y & Eq).
  pose proof (removelast_length m N) as L.
  destruct (exists_last N) as (n & l & Em).
  apply app_eq_app in Eq as (z & [[Ep Ez]|[Ex Ez]]).
  - exists x, z, (y ++ [l]). split; [exact Ep|]. split.
    + intros ->. apply (f_equal (@length char)) in Ez.
      rewrite length_app in Ez. cbn [app] in Ez. lia.
    + rewrite Em at 1. rewrite Em, removelast_last in Ez.
      rewrite app_assoc, <- Ez, <- Em. now rewrite <- app_assoc.
  - apply (f_equal (@length char)) in Ez. rewrite !length_app in Ez. lia.
Qed.

Lemma first_after_intro (m pre : str) :
  m <> [] ->
  (forall a1 a2 w, pre = a1 ++ a2 -> a2 <> [] -> a2 ++ m <> m ++ w) ->
  first_after m pre = true.
Proof.
  intros N H. unfold first_after. apply negb_true_iff.
  destruct (substr m (pre ++ removelast m)) eqn:S; [|reflexivity].
  apply (earlier_occurrence m pre N) in S as (a1 & a2 & w & Ep & Na & Ew).
  now destruct (H a1 a2 w Ep Na).
Qed.

Lemma select_tail_den (x rest : str) (cs : caps) :
  exists cs',
    den select_tail ([c_gt] ++ x ++ u "</select>" ++ rest) cs rest cs'.
Proof.
  eexists. unfold select_tail.
  eapply den_seq; [apply (den_lit [c_gt])|].
  eapply den_seq; [apply den_group, den_starL, forallb_any | apply den_lit].
Qed.

Lemma search_select_first (name html pre rest : str) (cs : caps) :
  search (select_pattern name) html = Some (pre, rest, cs) ->
  exists b c,
    html = pre ++ (name ++ [c_dquote]) ++ b ++ [c_gt] ++ c
             ++ u "</select>" ++ rest /\
    group cs 1 = Some c /\
    first_after (name ++ [c_dquote]) pre = true /\
    mem c_gt b = false /\
    first_after (u "</select>") c = true.
Proof.
  intro S. apply search_some in S as (t & -> & M & Min).
  unfold match_at in M.
  change (select_pattern name)
    with (Seq (Lit (name ++ [c_dquote])) (Seq (StarL any_char) select_tail))
    in M.
  cbn [rmatch] in M.
  destruct (strip_prefix (name ++ [c_dquote]) t) as [t1|] eqn:P1;
    [|discriminate].
  apply strip_prefix_some in P1 as ->.
  apply starL_min in M as (b & t2 & -> & _ & K1 & Min1).
  assert (T2 : exists c,
            t2 = [c_gt] ++ c ++ u "</select>" ++ rest /\
            group cs 1 = Some c /\
            first_after (u "</select>") c = true).
  { unfold select_tail in K1. cbn [rmatch] in K1.
    destruct (strip_prefix [c_gt] t2) as [t3|] eqn:P2; [|discriminate].
    apply strip_prefix_some in P2 as ->.
    apply starL_min in K1 as (c & t4 & -> & _ & K2 & Min2).
    destruct (strip_prefix (u "</select>") t4) as [r|] eqn:P3;
      [|discriminate].
    apply strip_prefix_some in P3 as ->. cbn [andb] in K2.
    injection K2 as <- <-. exists c. split; [reflexivity|]. split.
    - cbn [group Nat.eqb]. now rewrite firstn_prefix.
    - apply first_after_intro; [discriminate|].
      intros a1 a2 w Ec Na Ew.
      specialize (Min2 a1 a2 Ec Na). cbv beta in Min2.
      rewrite app_assoc, Ew, <- app_assoc, strip_prefix_app in Min2.
      discriminate. }
  destruct T2 as (c & -> & G & Fc). exists b, c.
  split; [now rewrite <- !app_assoc|]. split; [exact G|].
  split; [|split; [|exact Fc]].
  - apply first_after_intro.
    { intro Z. now apply app_eq_nil in Z as [_ Z]. }
    intros a1 a2 w Ep Na Ew.
    specialize (Min a1 a2 Ep Na).
    destruct (select_den_intro name (w ++ b) c rest) as (cs' & D).
    apply match_at_complete in D as (res & D).
    replace ((name ++ [c_dquote]) ++ (w ++ b) ++ [c_gt] ++ c
               ++ u "</select>" ++ rest)
      with (a2 ++ (name ++ [c_dquote]) ++ b ++ [c_gt] ++ c
              ++ u "</select>" ++ rest) in D
      by (rewrite app_assoc, Ew, <- !app_assoc; reflexivity).
    rewrite D in Min. discriminate.
  - destruct (mem c_gt b) eqn:Mb; [|reflexivity]. exfalso.
    apply mem_In, in_split in Mb as (b1 & b2 & Eb).
    specialize (Min1 b1 (c_gt :: b2) Eb). cbv beta in Min1.
    destruct (select_tail_den (b2 ++ c_gt :: c) rest []) as (cs' & D).
    replace ([c_gt] ++ (b2 ++ c_gt :: c) ++ u "</select>" ++ rest)
      with ((c_gt :: b2) ++ [c_gt] ++ c ++ u "</select>" ++ rest) in D
      by (cbn [app]; now rewrite <- app_assoc).
    match type of Min1 with
    | _ -> rmatch _ _ _ ?k = None =>
        destruct (rmatch_complete _ _ _ _ _ _ D k (rest, cs') eq_refl)
          as (x & Dx)
    end.
    assert (N : c_gt :: b2 <> []) by discriminate.
    rewrite (Min1 N) in Dx. discriminate.
Qed.

Lemma listed_intro (name pre b c rest x y : str) (o : str * str) :
  c = x ++ render_option o ++ y ->
  first_after (name ++ [c_dquote]) pre = true ->
  mem c_gt b = false ->
  first_after (u "</select>") c = true ->
  listed name
    (pre ++ (name ++ [c_dquote]) ++ b ++ [c_gt] ++ c ++ u "</select>" ++ rest)
    o.
Proof. intros -> Fp Mb Fc. now exists pre, b, x, y, rest. Qed.

Section ParsersGeneral.
Context {E : Env}.

Lemma digit_not (c : char) :
(c < 128)%N -> is_ascii_digit c = false -> forall x, is_digit x = true -> x <> c.
Proof.
intros L D x H ->. unfold is_digit in H.
apply N.ltb_lt in L. rewrite L, D in H. discriminate.
Qed.

Lemma digits_free (c : char) (s : str) :
(c < 128)%N -> is_ascii_digit c = false ->
forallb is_digit s = true -> mem c s = false.
Proof.
intros L D F. destruct (mem c s) eqn:M; [|reflexivity].
apply mem_In in M. rewrite forallb_forall in F.
now destruct (digit_not c L D c (F c M)).
Qed.

(** X8.  Every pair the province and the district parsers return is an
  option that stands in the drop-down list of the markup: after the first
  occurrence of the name of the list and its closing quote, between the
  first [>] that follows it and the first closing tag after that [>]; its
  value is a non-empty run of digits and its label is not empty and holds
  no [<]. *)
Theorem parsed_options_listed :
(forall html l o,
   get_provinces html = Ok l -> In o l ->
   well_formed is_digit o = true /\ listed province_marker html o) /\
(forall pid html o,
   In o (get_districts pid html) ->
   well_formed is_digit o = true /\ listed district_marker html o).
Proof.
assert (G : forall name html pre rest cs o,
          search (select_pattern name) html = Some (pre, rest, cs) ->
          In o (filter not_placeholder
                  (findall2 digit_option_pattern
                     match group cs 1 with Some g => g | None => [] end)) ->
          well_formed is_digit o = true /\ listed name html o).
{ intros name html pre rest cs o S I.
  apply search_select_first in S as (b & c & -> & Gc & Fp & Mb & Fc).
  rewrite Gc in I. apply filter_In in I as [I _].
  apply (findall2_sound is_digit) in I as (W & x & y & Ec).
  split; [exact W | now apply (listed_intro name pre b c rest x y)]. }
split.
- intros html l o. unfold get_provinces.
  destruct (search (select_pattern province_marker) html)
    as [[[pre rest] cs]|] eqn:S; [|discriminate].
  intros H I. injection H as <-. exact (G _ _ _ _ _ _ S I).
- intros pid html o. unfold get_districts.
  destruct (search (select_pattern district_marker) html)
    as [[[pre rest] cs]|] eqn:S; [|contradiction].
  intro I. exact (G _ _ _ _ _ _ S I).
Qed.

Lemma render_option_clash (o : str * str) :
mem c_lt (fst o) = false -> mem c_lt (snd o) = false ->
clash_all (u "</select>") (render_option o) = true.
Proof.
intros I N. unfold render_option.
assert (L : exists t, u "</select>" = c_lt :: t) by (eexists; reflexivity).
destruct L as (t & L).
repeat apply clash_all_app;
  try (rewrite L; now apply clash_all_absent); vm_compute; reflexivity.
Qed.

Lemma rendered_clash (opts : list (str * str)) :
(forall o, In o opts ->
   mem c_lt (fst o) = false /\ mem c_lt (snd o) = false) ->
clash_all (u "</select>") (concat (map render_option opts)) = true.
Proof.
induction opts as [|o opts IH]; intro H; [reflexivity|].
cbn [map concat]. apply clash_all_app.
- apply render_option_clash; now apply H; left.
- apply IH. intros x I. apply H. now right.
Qed.

Lemma well_formed_parts (p : char -> bool) (o : str * str) :
well_formed p o = true ->
fst o <> [] /\ forallb p (fst o) = true /\
snd o <> [] /\ mem c_lt (snd o) = false.
Proof.
destruct o as [[|c v] [|c' w]]; try discriminate. unfold well_formed.
cbn [fst snd]. intro H. apply andb_true_iff in H as [A B].
split; [discriminate|]. split; [exact A|]. split; [discriminate|].
now apply not_char_mem.
Qed.

Lemma digit_options (opts : list (str * str)) :
forallb (well_formed is_digit) opts = true ->
clash_all (u "</select>") (concat (map render_option opts)) = true /\
filter not_placeholder opts = opts.
Proof.
intro H. rewrite forallb_forall in H. split.
- apply rendered_clash. intros o I.
  destruct (well_formed_parts _ _ (H o I)) as (_ & D & _ & N).
  split; [|exact N]. now apply digits_free.
- apply forallb_filter_id. apply forallb_forall. intros o I.
  destruct (well_formed_parts _ _ (H o I)) as (_ & D & _ & _).
  unfold not_placeholder. apply negb_true_iff, str_eqb_neq. intro P.
  rewrite P in D. discriminate.
Qed.

(** X9.  Markup written out from a list of options is parsed back to that
  list: when the first occurrence of the name of the drop-down list and
  its closing quote is followed by a rest of the opening tag without [>],
  by options with digit values and labels without [<], and by the closing
  tag, then [get_provinces], and [get_districts] for its list, return
  exactly these options, in their order. *)
Theorem rendered_list_parsed (pre attrs post : str)
      (opts : list (str * str)) :
forallb (well_formed is_digit) opts = true ->
mem c_gt attrs = false ->
(substr (province_marker ++ [c_dquote]) (pre ++ province_marker) = false ->
 get_provinces (pre ++ render_list province_marker attrs opts ++ post)
 = Ok opts) /\
(forall pid,
   substr (district_marker ++ [c_dquote]) (pre ++ district_marker) = false ->
   get_districts pid (pre ++ render_list district_marker attrs opts ++ post)
   = opts).
Proof.
intros W A. destruct (digit_options opts W) as (C & F).
assert (S : forall name,
          substr (name ++ [c_dquote]) (pre ++ name) = false ->
          search (select_pattern name)
            (pre ++ render_list name attrs opts ++ post)
          = Some (pre, post, [(1, concat (map render_option opts))])).
{ intros name Fi. unfold render_list. rewrite <- !app_assoc.
  rewrite !(app_assoc name). now apply search_select. }
split.
- intro Fi. unfold get_provinces. rewrite (S _ Fi). cbn [group Nat.eqb].
  unfold digit_option_pattern. rewrite findall2_rendered by easy.
  now rewrite F.
- intros pid Fi. unfold get_districts. rewrite (S _ Fi). cbn [group Nat.eqb].
  unfold digit_option_pattern. rewrite findall2_rendered by easy.
  exact F.
Qed.
End ParsersGeneral.

Lemma parsed_options_listed_witness :
  well_formed (@is_digit stub_env) (u "7", u "MERKEZ") = true /\
  listed district_marker stub_district_page (u "7", u "MERKEZ").
Proof.
  apply (proj2 (@parsed_options_listed stub_env) (u "1")).
  vm_compute. now left.
Defined.

Lemma rendered_list_parsed_witness :
  @get_provinces stub_env
    (dq (u "<select id='")
       ++ render_list province_marker []
            [(u "1", u "ADANA"); (u "2", u "ADIYAMAN")] ++ [])
  = Ok [(u "1", u "ADANA"); (u "2", u "ADIYAMAN")] /\
  @get_districts stub_env (u "1")
    (dq (u "<select id='")
       ++ render_list district_marker []
            [(u "1", u "ADANA"); (u "2", u "ADIYAMAN")] ++ [])
  = [(u "1", u "ADANA"); (u "2", u "ADIYAMAN")].
Proof.
  destruct (@rendered_list_parsed stub_env (dq (u "<select id='")) [] []
              [(u "1", u "ADANA"); (u "2", u "ADIYAMAN")])
    as (P & D); [vm_compute; reflexivity | reflexivity |].
  split; [apply P | apply D]; vm_compute; reflexivity.
Defined.

(** ** The neighborhoods of a district, in general *)

Section Neighborhoods.
Context {E : Env}.

Lemma neighborhood_loop_count : forall matches acc st,
total_neighborhoods (snd (neighborhood_loop matches acc st))
= total_neighborhoods st + length (filter not_placeholder matches).
Proof.
induction matches as [|[id name] matches IH]; intros acc st.
- cbn. lia.
- cbn [neighborhood_loop filter]. unfold not_placeholder at 1.
  cbn [fst]. destruct (str_eqb id placeholder); cbn [negb].
  + apply IH.
  + unfold bind, count_neighborhood. rewrite IH.
    cbn [total_neighborhoods length]. lia.
Qed.

Lemma get_neighborhoods_count (pid did html : str) (st : state) :
total_neighborhoods (snd (get_neighborhoods pid did html st))
= total_neighborhoods st
  + match fst (get_neighborhoods pid did html st) with
    | Ok l => length l
    | Raise _ => 0
    end.
Proof.
unfold get_neighborhoods.
destruct (extract_viewstate_and_validation html) as [vs ev].
destruct (falsy vs || falsy ev).
- cbn. lia.
- unfold bind.
  destruct (send (POST BASE_URL (neighborhood_form vs ev pid did)) st)
    as [[page|e] st1] eqn:S.
  + assert (T : total_neighborhoods st1 = total_neighborhoods st).
    { unfold send in S.
      destruct (http (POST BASE_URL (neighborhood_form vs ev pid did))
                  (world st)) as [[text|] w']; [|discriminate].
      injection S as _ <-. reflexivity. }
    destruct (search (select_pattern neighborhood_marker) page)
      as [[[pre rest] cs]|].
    * match goal with
      | |- context [neighborhood_loop ?m [] st1] =>
          rewrite (neighborhood_loop_count m [] st1);
          destruct (neighborhood_loop_spec m [] st1) as (st2 & -> & _)
      end.
      cbn [fst app]. now rewrite length_map, T.
    * cbn. lia.
  + cbn [fst snd]. unfold send in S.
    destruct (http (POST BASE_URL (neighborhood_form vs ev pid did))
                (world st)) as [[text|] w']; [discriminate|].
    injection S as _ <-. cbn. lia.
Qed.

(** X10.  [get_neighborhoods] adds to the running total exactly the number
  of records it returns, and nothing when it fails or returns early; the
  total is never reset. *)
Theorem neighborhoods_counted (pid did html : str) (st : state) :
total_neighborhoods (snd (get_neighborhoods pid did html st))
= total_neighborhoods st
  + match fst (get_neighborhoods pid did html st) with
    | Ok l => length l
    | Raise _ => 0
    end.
Proof. apply get_neighborhoods_count. Qed.

Lemma get_neighborhoods_rendered (pid did district_html : str)
      (st : state) (vs ev : option str) (w' : World)
      (pre attrs post : str) (opts : list (str * str)) :
extract_viewstate_and_validation district_html = (vs, ev) ->
falsy vs || falsy ev = false ->
http (POST BASE_URL (neighborhood_form vs ev pid did)) (world st)
= (Some (pre ++ render_list neighborhood_marker attrs opts ++ post), w') ->
substr (neighborhood_marker ++ [c_dquote]) (pre ++ neighborhood_marker)
= false ->
mem c_gt attrs = false ->
forallb (well_formed (not_char c_dquote)) opts = true ->
forallb (fun o => negb (mem c_lt (fst o))) opts = true ->
fst (get_neighborhoods pid did district_html st)
= Ok (map record_of (filter not_placeholder opts)).
Proof.
intros T F H Fi A W L. unfold get_neighborhoods. rewrite T, F.
unfold bind, send. rewrite H.
unfold render_list. rewrite <- !app_assoc.
rewrite !(app_assoc neighborhood_marker).
rewrite search_select; [|exact Fi | exact A |].
- cbn [group Nat.eqb]. unfold any_option_pattern.
  rewrite findall2_rendered by easy.
  match goal with
  | |- context [neighborhood_loop ?m [] ?s] =>
      destruct (neighborhood_loop_spec m [] s) as (st2 & -> & _)
  end.
  reflexivity.
- apply rendered_clash. intros o I. rewrite forallb_forall in W, L.
  destruct (well_formed_parts _ _ (W o I)) as (_ & _ & _ & N).
  split; [|exact N]. now apply negb_true_iff, L.
Qed.

(** X11.  When the district page carries both state tokens and the server
  answers the submission with markup whose neighborhood list, at the
  first occurrence of its name, holds options with non-empty values free
  of double quotes and of [<] and with labels free of [<], then
  [get_neighborhoods] returns one record for each option other than the
  placeholder, in the order of the markup. *)
Theorem neighborhoods_of_rendered_list (pid did district_html : str)
      (st : state) (vs ev : option str) (w' : World)
      (pre attrs post : str) (opts : list (str * str)) :
extract_viewstate_and_validation district_html = (vs, ev) ->
falsy vs || falsy ev = false ->
http (POST BASE_URL (neighborhood_form vs ev pid did)) (world st)
= (Some (pre ++ render_list neighborhood_marker attrs opts ++ post), w') ->
substr (neighborhood_marker ++ [c_dquote]) (pre ++ neighborhood_marker)
= false ->
mem c_gt attrs = false ->
forallb (well_formed (not_char c_dquote)) opts = true ->
forallb (fun o => negb (mem c_lt (fst o))) opts = true ->
fst (get_neighborhoods pid did district_html st)
= Ok (map record_of (filter not_placeholder opts)).
Proof. apply get_neighborhoods_rendered. Qed.
End Neighborhoods.

Lemma neighborhoods_of_rendered_list_witness :
  fst (@get_neighborhoods stub_env (u "1") (u "7") stub_district_page
         stub_state)
  = Ok (map (@record_of stub_env)
          [(u "12/3", u "CUMHURİYET MAH   / ALADAĞ / 01720");
           (u "44", u "KADIKÖY / 34710")]).
Proof.
  apply (@neighborhoods_of_rendered_list stub_env (u "1") (u "7")
           stub_district_page stub_state (Some (u "V1")) (Some (u "E1")) tt
           (dq (u "<select id='")) []  []
           [(placeholder, u "Seciniz");
            (u "12/3", u "CUMHURİYET MAH   / ALADAĞ / 01720");
            (u "44", u "KADIKÖY / 34710")]);
    vm_compute; reflexivity.
Defined.

(** ** The records of a list of neighborhoods *)

Section Records.
Context {E : Env}.

Hypothesis lower_no_lf :
forall c, (128 <= c)%N -> mem c_lf (unicode_lower c) = false.

(** C2.  When the normalised label of a neighborhood holds a 5-digit
  numeric substring (the leftmost one is [code]) and a slash, the record
  built for it has that substring as [posta_kodu] and, as [mahalle_adi],
  the normalised label cut before the first slash, without the white
  space in front of the slash; and when the server answers the submission
  of a district with a neighborhood list that has an option with this
  label and a value other than -1, [get_neighborhoods] returns a list
  that holds this record. *)
Theorem neighborhood_label_split (id label pre code post : str) :
clean_text label = pre ++ code ++ post ->
length code = 5 ->
forallb is_digit code = true ->
first_code (pre ++ firstn 4 code) = None ->
mem c_slash (clean_text label) = true ->
posta_kodu (neighborhood_record id label) = Some code /\
mahalle_adi (neighborhood_record id label)
= rstrip (take_while (not_char c_slash) (clean_text label)) /\
(id <> placeholder ->
 forall (pid did district_html : str) (st : state) (vs ev : option str)
        (w' : World) (before attrs after : str) (opts : list (str * str)),
   extract_viewstate_and_validation district_html = (vs, ev) ->
   falsy vs || falsy ev = false ->
   http (POST BASE_URL (neighborhood_form vs ev pid did)) (world st)
   = (Some (before ++ render_list neighborhood_marker attrs opts ++ after),
      w') ->
   substr (neighborhood_marker ++ [c_dquote]) (before ++ neighborhood_marker)
   = false ->
   mem c_gt attrs = false ->
   forallb (well_formed (not_char c_dquote)) opts = true ->
   forallb (fun o => negb (mem c_lt (fst o))) opts = true ->
   In (id, label) opts ->
   exists l,
     fst (get_neighborhoods pid did district_html st) = Ok l /\
     In {| mahalle_id := clean_id id;
           mahalle_adi :=
             rstrip (take_while (not_char c_slash) (clean_text label));
           posta_kodu := Some code |} l).
Proof.
intros Hc L D F S.
destruct (neighborhood_record_split lower_no_lf id label pre code post
            Hc L D F S) as (P & N).
split; [exact P|]. split; [exact N|].
intros Hid pid did district_html st vs ev w' before attrs after opts
       T Fa H Fi A W Lt I.
exists (map record_of (filter not_placeholder opts)). split.
- now apply (get_neighborhoods_rendered pid did district_html st vs ev w'
               before attrs after opts).
- rewrite <- P, <- N.
  change (In (record_of (id, label))
            (map record_of (filter not_placeholder opts))).
  apply in_map, filter_In. split; [exact I|].
  unfold not_placeholder. cbn [fst].
  now apply negb_true_iff, str_eqb_neq.
Qed.

(** C6.  No list a parser returns holds the placeholder.  No pair of
  [get_provinces] or [get_districts] has the identifier -1 and no record
  of [get_neighborhoods] has the [mahalle_id] -1.  The loop over the
  options of a neighborhood list builds a record for every option but
  those with the value -1, so that on a neighborhood list with a
  placeholder among its options [get_neighborhoods] returns the records
  of the other options and nothing else. *)
Theorem placeholder_filtered :
(forall html l o,
   get_provinces html = Ok l -> In o l -> fst o <> placeholder) /\
(forall pid html o,
   In o (get_districts pid html) -> fst o <> placeholder) /\
(forall pid did html st l st' r,
   get_neighborhoods pid did html st = (Ok l, st') -> In r l ->
   mahalle_id r <> placeholder) /\
(forall matches acc st,
   fst (neighborhood_loop matches acc st)
   = Ok (acc ++ map record_of (filter not_placeholder matches))) /\
(forall (pid did district_html : str) (st : state) (vs ev : option str)
        (w' : World) (before attrs after : str) (opts : list (str * str)),
   extract_viewstate_and_validation district_html = (vs, ev) ->
   falsy vs || falsy ev = false ->
   http (POST BASE_URL (neighborhood_form vs ev pid did)) (world st)
   = (Some (before ++ render_list neighborhood_marker attrs opts ++ after),
      w') ->
   substr (neighborhood_marker ++ [c_dquote]) (before ++ neighborhood_marker)
   = false ->
   mem c_gt attrs = false ->
   forallb (well_formed (not_char c_dquote)) opts = true ->
   forallb (fun o => negb (mem c_lt (fst o))) opts = true ->
   fst (get_neighborhoods pid did district_html st)
   = Ok (map record_of (filter not_placeholder opts)) /\
   length (map record_of (filter not_placeholder opts))
   = length opts
     - length (filter (fun o => str_eqb (fst o) placeholder) opts)).
Proof.
assert (F : forall matches o,
           In o (filter not_placeholder matches) -> fst o <> placeholder).
{ intros matches o I. apply filter_In in I as [_ I].
  unfold not_placeholder in I. apply negb_true_iff in I.
  now apply str_eqb_neq. }
split; [|split; [|split; [|split]]].
- intros html l o. unfold get_provinces.
  destruct (search (select_pattern province_marker) html)
    as [[[pre rest] cs]|]; [|discriminate].
  intro H. injection H as <-. apply F.
- intros pid html o. unfold get_districts.
  destruct (search (select_pattern district_marker) html)
    as [[[pre rest] cs]|]; [apply F | intros []].
- intros pid did html st l st' r H I.
  apply get_neighborhoods_records in H as (matches & ->).
  apply in_map_iff in I as (o & <- & I). apply clean_id_not_placeholder.
- intros matches acc st.
  destruct (neighborhood_loop_spec matches acc st) as (st' & -> & _).
  reflexivity.
- intros pid did district_html st vs ev w' before attrs after opts
         T Fa H Fi A W Lt. split.
  + now apply (get_neighborhoods_rendered pid did district_html st vs ev w'
                 before attrs after opts).
  + rewrite length_map. clear. induction opts as [|o opts IH]; [reflexivity|].
    cbn [filter]. unfold not_placeholder at 1.
    destruct (str_eqb (fst o) placeholder); cbn [negb length].
    * rewrite IH.
      pose proof (List.filter_length_le
                    (fun x : str * str => str_eqb (fst x) placeholder) opts).
      lia.
    * rewrite IH.
      pose proof (List.filter_length_le
                    (fun x : str * str => str_eqb (fst x) placeholder) opts).
      lia.
Qed.
End Records.

Lemma neighborhood_label_split_witness :
  posta_kodu (@neighborhood_record stub_env (u "44") (u "KADIKÖY / 34710"))
  = Some (u "34710") /\
  mahalle_adi (@neighborhood_record stub_env (u "44") (u "KADIKÖY / 34710"))
  = rstrip (u "Kadıköy ") /\
  exists l,
    fst (@get_neighborhoods stub_env (u "1") (u "7") stub_district_page
           stub_state)
    = Ok l /\
    In {| mahalle_id := u "44";
          mahalle_adi := u "Kadıköy";
          posta_kodu := Some (u "34710") |} l.
Proof.
  destruct (@neighborhood_label_split stub_env stub_lower_no_lf
              (u "44") (u "KADIKÖY / 34710") (u "Kadıköy / ") (u "34710") [])
    as (P & N & G); try (vm_compute; reflexivity).
  split; [exact P|]. split; [exact N|].
  assert (Hid : u "44" <> placeholder) by discriminate.
  destruct (G Hid (u "1") (u "7") stub_district_page stub_state
              (Some (u "V1")) (Some (u "E1")) tt
              (dq (u "<select id='")) [] []
              [(placeholder, u "Seciniz");
               (u "12/3", u "CUMHURİYET MAH   / ALADAĞ / 01720");
               (u "44", u "KADIKÖY / 34710")])
    as (l & Hl & I); try (vm_compute; reflexivity).
  - right. right. now left.
  - exists l. split; [exact Hl|]. vm_compute in I. vm_compute. exact I.
Defined.

Lemma placeholder_filtered_witness :
  (forall o, In o [(u "1", u "ADANA"); (u "2", u "ADIYAMAN"); (u "1", u "ADANA")]
             -> fst o <> placeholder) /\
  (forall o, In o [(u "7", u "MERKEZ")] -> fst o <> placeholder) /\
  fst (@get_neighborhoods stub_env (u "1") (u "7") stub_district_page
         stub_state)
  = Ok (map (@record_of stub_env)
          [(u "12/3", u "CUMHURİYET MAH   / ALADAĞ / 01720");
           (u "44", u "KADIKÖY / 34710")]).
Proof.
  destruct (@placeholder_filtered stub_env) as (P & D & _ & _ & N).
  split; [|split].
  - intros o I.
    apply (P stub_root_page
             [(u "1", u "ADANA"); (u "2", u "ADIYAMAN"); (u "1", u "ADANA")]
             o); [vm_compute; reflexivity | exact I].
  - intros o I. apply (D (u "1") stub_district_page o). exact I.
  - apply (N (u "1") (u "7") stub_district_page stub_state
             (Some (u "V1")) (Some (u "E1")) tt
             (dq (u "<select id='")) [] []
             [(placeholder, u "Seciniz");
              (u "12/3", u "CUMHURİYET MAH   / ALADAĞ / 01720");
              (u "44", u "KADIKÖY / 34710")]);
      vm_compute; reflexivity.
Defined.

(** ** The tree that a run returns *)

Lemma update_base (ad : list province) (pid : str) :
  exists ad0,
    (forall c, update_address_data ad pid c = ad0 ++ [c]) /\
    (ad0 = ad \/ exists x, ad = ad0 ++ [x] /\ il_id x = pid).
Proof.
  destruct ad as [|y ad'] eqn:Ead.
  - exists []. split; [reflexivity | now left].
  - assert (N : y :: ad' <> []) by discriminate.
    destruct (exists_last N) as (l & x & ->).
    destruct (str_eqb (il_id x) pid) eqn:Q.
    + exists l. split.
      * intro c. now rewrite update_last, Q.
      * right. exists x. split; [reflexivity | now apply str_eqb_eq].
    + exists (l ++ [x]). split.
      * intro c. now rewrite update_last, Q.
      * now left.
Qed.

Lemma update_update (ad : list province) (pid : str) (c1 c2 : province) :
  il_id c1 = pid ->
  update_address_data (update_address_data ad pid c1) pid c2
  = update_address_data ad pid c2.
Proof.
  intro I. destruct (update_base ad pid) as (ad0 & U & _).
  rewrite !U, update_last. apply str_eqb_eq in I. now rewrite I.
Qed.

Lemma hoods_total_app (a b : list province) :
  hoods_total (a ++ b) = hoods_total a + hoods_total b.
Proof. unfold hoods_total. now rewrite map_app, list_sum_app. Qed.

Lemma fold_upd_subseq : forall sel ids,
  exists sel', subseq sel' sel /\ fold_left upd_ids sel ids = ids ++ sel'.
Proof.
  induction sel as [|pid sel IH]; intro ids.
  - exists []. split; [constructor | now rewrite app_nil_r].
  - cbn [fold_left].
    destruct (upd_ids_cases ids pid) as [(U & _)|(U & _)]; rewrite U.
    + destruct (IH ids) as (sel' & S & F). exists sel'.
      split; [now constructor | exact F].
    + destruct (IH (ids ++ [pid])) as (sel' & S & F). exists (pid :: sel').
      split; [now constructor|]. now rewrite F, <- app_assoc.
Qed.

Lemma subseq_trans {A : Type} (l2 l3 : list A) :
  subseq l2 l3 -> forall l1, subseq l1 l2 -> subseq l1 l3.
Proof.
  induction 1 as [|x l2 l3 S IH|x l2 l3 S IH]; intros l1 H.
  - exact H.
  - constructor. now apply IH.
  - inversion H as [|y a b H'|y a b H']; subst.
    + constructor. now apply IH.
    + apply subseq_take. now apply IH.
Qed.

Section Tree.
Context {E : Env}.

Lemma total_print (line : str) (st : state) :
total_neighborhoods (snd (print line st)) = total_neighborhoods st.
Proof. reflexivity. Qed.

Lemma district_loop_shape (pid html : str) (total : nat) :
forall districts index cur ad st out st',
  district_loop pid html total districts index cur ad st = (Ok out, st') ->
  il_id cur = pid ->
  exists ds,
    map ilce_id ds = map fst districts /\
    map ilce_adi ds = map (fun o => clean_text (snd o)) districts /\
    total_neighborhoods st'
    = total_neighborhoods st
      + list_sum (map (fun d => length (mahalleler d)) ds) /\
    out = match districts with
          | [] => ad
          | _ :: _ =>
              update_address_data ad pid
                {| il_id := il_id cur; il_adi := il_adi cur;
                   ilceler := ilceler cur ++ ds |}
          end.
Proof.
induction districts as [|[did name] districts IH];
  intros index cur ad st out st' H C.
- cbn in H. injection H as <- <-. exists []. cbn. repeat split; lia.
- rewrite district_loop_cons in H.
  pose proof (get_neighborhoods_count pid did html
                (snd (print (district_line index total name) st))) as Cn.
  rewrite total_print in Cn.
  destruct (get_neighborhoods pid did html
              (snd (print (district_line index total name) st)))
    as [[hoods|e] st2]; [|discriminate].
  cbn [fst snd] in Cn.
  apply IH in H as (ds & I1 & I2 & I3 & I4); [|exact C].
  exists ({| ilce_id := did; ilce_adi := clean_text name;
             mahalleler := hoods |} :: ds).
  cbn [map fst snd ilce_id ilce_adi].
  rewrite I1, I2. split; [reflexivity|]. split; [reflexivity|].
  split.
  { rewrite I3, Cn. unfold list_sum. cbn [fold_right mahalleler]. lia. }
  rewrite I4. unfold append_district. cbn [il_id il_adi ilceler].
  rewrite <- app_assoc. cbn [app]. destruct districts as [|d districts].
  + destruct ds; [|discriminate]. reflexivity.
  + apply update_update. exact C.
Qed.

Lemma total_send (rq : request) (st : state) :
total_neighborhoods (snd (send rq st)) = total_neighborhoods st.
Proof.
unfold send. destruct (http rq (world st)) as [[text|] w']; reflexivity.
Qed.

Lemma described_weaken (p : str * str) (provinces : list (str * str))
    (log : list (request * option str)) (rec : province) :
described provinces log rec -> described (p :: provinces) log rec.
Proof.
intros (name & vs & ev & html & I & R). exists name, vs, ev, html.
split; [now right | exact R].
Qed.

Lemma province_loop_shape (total : nat) :
forall provinces index vs ev ad st out st',
  province_loop total provinces index vs ev ad st = (Ok out, st') ->
  hoods_total out + total_neighborhoods st
  <= hoods_total ad + total_neighborhoods st' /\
  (NoDup (map il_id ad ++ map fst provinces) ->
   hoods_total out + total_neighborhoods st
   = hoods_total ad + total_neighborhoods st') /\
  forall rec, In rec out -> In rec ad \/ described provinces (sent st') rec.
Proof.
induction provinces as [|[pid name] provinces IH];
  intros index vs ev ad st out st' H.
- cbn in H. injection H as <- <-. split; [lia|]. split; [lia | auto].
- rewrite province_loop_cons in H.
  set (st1 := snd (print (province_line index total name) st)) in H.
  pose proof (send_run (POST BASE_URL (province_form vs ev pid)) st1) as S2.
  pose proof (total_send (POST BASE_URL (province_form vs ev pid)) st1) as T2.
  rewrite (total_print _ st : total_neighborhoods st1 = _) in T2.
  destruct (send (POST BASE_URL (province_form vs ev pid)) st1)
    as [[html|e] st2]; [|discriminate]. cbn [fst snd] in S2, T2.
  set (cur := {| il_id := pid; il_adi := clean_text name; ilceler := [] |})
    in H.
  set (st3 := snd (print (districts_line html pid) st2)) in H.
  destruct (district_loop_run pid html (length (get_districts pid html))
              (get_districts pid html) 1 cur ad st3 eq_refl)
    as ((newd & Nd & _) & _).
  destruct (district_loop pid html (length (get_districts pid html))
              (get_districts pid html) 1 cur ad st3)
    as [[ad1|e] st4] eqn:D; [|discriminate]. cbn [snd] in Nd.
  destruct (province_loop_run total provinces (S index)
              (fst (extract_viewstate_and_validation html))
              (snd (extract_viewstate_and_validation html)) ad1 st4)
    as (newr & Nr & _).
  rewrite H in Nr. cbn [snd] in Nr.
  assert (Log : In (POST BASE_URL (province_form vs ev pid), Some html)
                   (sent st')).
  { rewrite Nr, Nd. change (sent st3) with (sent st2). rewrite S2.
    apply in_or_app. left. apply in_or_app. left. apply in_or_app.
    right. now left. }
  apply IH in H as (Le & Eq & Rec).
  apply district_loop_shape in D as (ds & I1 & I2 & I3 & I4); [|reflexivity].
  change (total_neighborhoods st3) with (total_neighborhoods st2) in I3.
  rewrite T2 in I3. cbn [il_id il_adi ilceler cur app] in I4.
  destruct (get_districts pid html) as [|d districts] eqn:G.
  + destruct ds; [|discriminate]. cbn in I3. subst ad1.
    split; [lia|]. split.
    * intro N. cbn [map fst] in N. apply NoDup_remove_1 in N.
      specialize (Eq N). lia.
    * intros rec I. destruct (Rec rec I) as [A|A]; [now left|].
      right. now apply described_weaken.
  + destruct (update_base ad pid) as (ad0 & U & B). rewrite U in I4.
    assert (Hf : hoods_total ad1
                 = hoods_total ad0
                   + list_sum (map (fun d => length (mahalleler d)) ds)).
    { rewrite I4, hoods_total_app. unfold hoods_total at 2, hoods_in.
      cbn [map ilceler list_sum fold_right]. unfold list_sum. lia. }
    assert (Hb : hoods_total ad0 <= hoods_total ad).
    { destruct B as [->|(x & -> & _)]; [lia|].
      rewrite hoods_total_app. lia. }
    split; [lia|]. split.
    * intro N. cbn [map fst] in N.
      assert (B' : ad0 = ad).
      { destruct B as [B|(x & Ex & Ix)]; [exact B|]. exfalso.
        apply NoDup_remove_2 in N. apply N, in_or_app. left.
        rewrite Ex, map_app. apply in_or_app. right. now left. }
      subst ad0.
      assert (N' : NoDup (map il_id ad1 ++ map fst provinces)).
      { rewrite I4, map_app, <- app_assoc. exact N. }
      specialize (Eq N'). lia.
    * intros rec I. destruct (Rec rec I) as [A|A].
      -- rewrite I4 in A. apply in_app_or in A as [A|[<-|[]]].
         ++ left. destruct B as [->|(x & -> & _)]; [exact A|].
            apply in_or_app. now left.
         ++ right. exists name, vs, ev, html. cbn [il_id il_adi ilceler].
            rewrite G, I1, I2. split; [now left|]. auto.
      -- right. now apply described_weaken.
Qed.
End Tree.

Section WholeTree.
Context {E : Env}.

Lemma scrape_ok (st : state) (out : list province) :
fst (scrape st) = Ok out ->
exists html provinces st2 st3,
  fst (http (GET BASE_URL) (world st)) = Some html /\
  get_provinces html = Ok provinces /\
  total_neighborhoods st2 = total_neighborhoods st /\
  province_loop (length provinces) provinces 1
    (fst (extract_viewstate_and_validation html))
    (snd (extract_viewstate_and_validation html)) [] st2
  = (Ok out, st3) /\
  sent (snd (scrape st)) = sent st3 /\
  total_neighborhoods (snd (scrape st)) = total_neighborhoods st3 /\
  console (snd (scrape st))
  = console st3
      ++ [done_line;
          report_line (length provinces) (total_neighborhoods st3)].
Proof.
destruct (scrape st) as [r st'] eqn:S. cbn [fst snd]. intros ->.
unfold scrape in S. rewrite bind_print in S.
set (st0 := snd (print _ st)) in S.
assert (T0 : total_neighborhoods st0 = total_neighborhoods st)
  by reflexivity.
assert (W0 : world st0 = world st) by reflexivity. clearbody st0.
unfold bind at 1 in S. unfold send in S. rewrite W0 in S.
destruct (http (GET BASE_URL) (world st)) as [[html|] w1]; [|discriminate].
unfold bind at 1 in S.
destruct (get_provinces html) as [provinces|e] eqn:GP; [|discriminate].
cbn [lift ret] in S. rewrite bind_print in S.
set (st2 := snd (print _ _)) in S.
assert (T2 : total_neighborhoods st2 = total_neighborhoods st) by exact T0.
clearbody st2.
destruct (extract_viewstate_and_validation html) as [vs ev] eqn:X.
destruct (falsy vs || falsy ev); [discriminate|].
unfold bind at 1 in S.
destruct (province_loop (length provinces) provinces 1 vs ev [] st2)
  as [[out'|e] st3] eqn:P; [|discriminate].
rewrite bind_print in S. unfold bind at 1 in S.
cbn [get_total_neighborhoods] in S. rewrite bind_print in S.
injection S as <- <-.
exists html, provinces, st2, st3. rewrite X. cbn [fst snd].
split; [reflexivity|]. split; [exact GP|]. split; [exact T2|].
split; [exact P|]. split; [reflexivity|]. split; [reflexivity|].
cbn [print snd console]. now rewrite <- app_assoc.
Qed.

(** X12.  Every record of the tree that [scrape] returns describes a
  province of the list parsed from the root page: it carries the
  identifier of the province, its normalised name and, in the order of the
  markup, the identifiers and normalised names of the districts of the
  page that answered the selection of the province.  The records keep the
  order of the root page. *)
Theorem scrape_output_structure (st : state) (out : list province) :
fst (scrape st) = Ok out ->
exists html provinces,
  fst (http (GET BASE_URL) (world st)) = Some html /\
  get_provinces html = Ok provinces /\
  subseq (map il_id out) (map fst provinces) /\
  forall rec, In rec out -> described provinces (sent (snd (scrape st))) rec.
Proof.
intro H. destruct (scrape_run st) as (new & _ & _ & R).
destruct (R out H) as (html' & provinces' & G' & P' & (sel & Ss & Is) & _).
destruct (scrape_ok st out H)
  as (html & provinces & st2 & st3 & G & P & _ & L & Se & _).
rewrite G in G'. injection G' as <-. rewrite P in P'. injection P' as <-.
exists html, provinces. split; [exact G|]. split; [exact P|]. split.
- destruct (fold_upd_subseq sel []) as (sel' & S' & F).
  rewrite Is, F. cbn [app]. exact (subseq_trans _ _ Ss _ S').
- intros rec I. rewrite Se.
  destruct (province_loop_shape _ _ _ _ _ _ _ _ _ L) as (_ & _ & Rec).
  now destruct (Rec rec I) as [[]|D].
Qed.

(** X13.  The total that [scrape] reports in its last line is the running
  total of the scraper after the run.  The run adds to it at least the
  number of neighborhood records of the tree it returns, and exactly that
  number when the identifiers parsed from the root page are pairwise
  distinct. *)
Theorem neighborhood_total_reported (st : state) (out : list province) :
fst (scrape st) = Ok out ->
hoods_total out + total_neighborhoods st
<= total_neighborhoods (snd (scrape st)) /\
(forall html provinces,
   fst (http (GET BASE_URL) (world st)) = Some html ->
   get_provinces html = Ok provinces ->
   NoDup (map fst provinces) ->
   hoods_total out + total_neighborhoods st
   = total_neighborhoods (snd (scrape st)) /\
   last (console (snd (scrape st))) []
   = report_line (length provinces)
       (total_neighborhoods (snd (scrape st)))).
Proof.
intro H.
destruct (scrape_ok st out H)
  as (html & provinces & st2 & st3 & G & P & T2 & L & _ & T3 & C).
destruct (province_loop_shape _ _ _ _ _ _ _ _ _ L) as (Le & Eq & _).
rewrite T3. change (hoods_total []) with 0 in Le, Eq.
change (map il_id [] ++ map fst provinces) with (map fst provinces) in Eq.
rewrite T2 in Le, Eq. split.
- lia.
- intros html' provinces' G' P' N. rewrite G in G'. injection G' as <-.
  rewrite P in P'. injection P' as <-. split.
  + specialize (Eq N). lia.
  + rewrite C.
    change [done_line; report_line (length provinces) (total_neighborhoods st3)]
      with ([done_line]
              ++ [report_line (length provinces) (total_neighborhoods st3)]).
    now rewrite app_assoc, last_last.
Qed.
End WholeTree.

Lemma scrape_output_structure_witness :
  exists html provinces,
    fst (@http sparse_env (GET BASE_URL) (world sparse_state)) = Some html /\
    @get_provinces sparse_env html = Ok provinces /\
    subseq
      (map il_id
         (match fst (@scrape sparse_env sparse_state) with
          | Ok out => out
          | Raise _ => []
          end)) (map fst provinces).
Proof.
  destruct (fst (@scrape sparse_env sparse_state)) as [out|e] eqn:S;
    [|vm_compute in S; discriminate].
  destruct (@scrape_output_structure sparse_env sparse_state out S)
    as (html & provinces & G & P & O & _).
  exists html, provinces. split; [exact G|]. split; [exact P | exact O].
Defined.

Lemma neighborhood_total_reported_witness :
  hoods_total
    (match fst (@scrape sparse_env sparse_state) with
     | Ok out => out
     | Raise _ => []
     end)
  + total_neighborhoods sparse_state
  = total_neighborhoods (snd (@scrape sparse_env sparse_state)).
Proof.
  destruct (fst (@scrape sparse_env sparse_state)) as [out|e] eqn:S;
    [|vm_compute in S; discriminate].
  destruct (@neighborhood_total_reported sparse_env sparse_state out S)
    as (_ & Eq).
  apply (Eq sparse_root_page [(u "1", u "ADANA"); (u "2", u "ADIYAMAN")]).
  - vm_compute. reflexivity.
  - vm_compute. reflexivity.
  - repeat constructor; cbn; intuition discriminate.
Defined.

(** ** How a run fails *)

Lemma outcome_app {A : Type} (r : result A)
      (new1 new2 : list (request * option str)) :
  forallb answered new1 = true -> loop_outcome r new2 ->
  loop_outcome r (new1 ++ new2).
Proof.
  intros A1. destruct r as [a|e]; cbn [loop_outcome].
  - intro A2. now rewrite forallb_app, A1, A2.
  - intros (-> & rq & log & -> & A2). split; [reflexivity|].
    exists rq, (new1 ++ log). split; [now rewrite app_assoc|].
    now rewrite forallb_app, A1, A2.
Qed.

Section Failures.
Context {E : Env}.

Lemma send_outcome (rq : request) (st : state) :
exists resp,
  sent (snd (send rq st)) = sent st ++ [(rq, resp)] /\
  match fst (send rq st) with
  | Ok text => resp = Some text
  | Raise e => e = HTTPError /\ resp = None
  end.
Proof.
unfold send. destruct (http rq (world st)) as [[text|] w'].
- now exists (Some text).
- now exists None.
Qed.

Lemma get_neighborhoods_outcome (pid did html : str) (st : state) :
exists new,
  sent (snd (get_neighborhoods pid did html st)) = sent st ++ new /\
  loop_outcome (fst (get_neighborhoods pid did html st)) new.
Proof.
unfold get_neighborhoods.
destruct (extract_viewstate_and_validation html) as [vs ev].
destruct (falsy vs || falsy ev).
- exists []. cbn. now rewrite app_nil_r.
- unfold bind.
  destruct (send_outcome (POST BASE_URL (neighborhood_form vs ev pid did))
              st) as (resp & S & O).
  destruct (send (POST BASE_URL (neighborhood_form vs ev pid did)) st)
    as [[page|e] st1]; cbn [fst snd] in S, O.
  + subst resp.
    exists [(POST BASE_URL (neighborhood_form vs ev pid did), Some page)].
    destruct (search (select_pattern neighborhood_marker) page)
      as [[[pre rest] cs]|]; [|now split].
    match goal with
    | |- context [neighborhood_loop ?m [] st1] =>
        destruct (neighborhood_loop_spec m [] st1) as (st2 & -> & _ & S2 & _)
    end.
    cbn [fst snd]. rewrite S2. now split.
  + destruct O as (-> & ->).
    exists [(POST BASE_URL (neighborhood_form vs ev pid did), None)].
    split; [exact S|]. split; [reflexivity|].
    now exists (POST BASE_URL (neighborhood_form vs ev pid did)), [].
Qed.

Lemma district_loop_outcome (pid html : str) (total : nat) :
forall districts index current address_data st,
exists new,
  sent (snd (district_loop pid html total districts index current
               address_data st)) = sent st ++ new /\
  loop_outcome
    (fst (district_loop pid html total districts index current
            address_data st)) new.
Proof.
induction districts as [|[did name] districts IH];
  intros index current address_data st.
- exists []. cbn. now rewrite app_nil_r.
- rewrite district_loop_cons.
  destruct (get_neighborhoods_outcome pid did html
              (snd (print (district_line index total name) st)))
    as (new1 & N1 & O1).
  rewrite sent_print in N1.
  destruct (get_neighborhoods pid did html
              (snd (print (district_line index total name) st)))
    as [[hoods|e] st2]; cbn [fst snd] in N1, O1.
  + match goal with
    | |- context [district_loop pid html total districts ?i ?c ?a st2] =>
        destruct (IH i c a st2) as (new2 & N2 & O2)
    end.
    exists (new1 ++ new2). split.
    * now rewrite N2, N1, app_assoc.
    * now apply outcome_app.
  + exists new1. now split.
Qed.

Lemma province_loop_outcome (total : nat) :
forall provinces index vs ev address_data st,
exists new,
  sent (snd (province_loop total provinces index vs ev address_data st))
  = sent st ++ new /\
  loop_outcome
    (fst (province_loop total provinces index vs ev address_data st)) new.
Proof.
induction provinces as [|[pid name] provinces IH];
  intros index vs ev address_data st.
- exists []. cbn. now rewrite app_nil_r.
- rewrite province_loop_cons.
  destruct (send_outcome (POST BASE_URL (province_form vs ev pid))
              (snd (print (province_line index total name) st)))
    as (resp & Sp & O).
  rewrite sent_print in Sp.
  destruct (send (POST BASE_URL (province_form vs ev pid))
              (snd (print (province_line index total name) st)))
    as [[html|e] st2]; cbn [fst snd] in Sp, O.
  + subst resp.
    destruct (district_loop_outcome pid html
                (length (get_districts pid html)) (get_districts pid html) 1
                {| il_id := pid; il_adi := clean_text name; ilceler := [] |}
                address_data (snd (print (districts_line html pid) st2)))
      as (newd & Nd & Od).
    rewrite sent_print in Nd.
    destruct (district_loop pid html (length (get_districts pid html))
                (get_districts pid html) 1
                {| il_id := pid; il_adi := clean_text name; ilceler := [] |}
                address_data (snd (print (districts_line html pid) st2)))
      as [[ad1|e] st4]; cbn [fst snd] in Nd, Od.
    * destruct (IH (S index)
                  (fst (extract_viewstate_and_validation html))
                  (snd (extract_viewstate_and_validation html)) ad1 st4)
        as (newr & Nr & Or).
      exists ([(POST BASE_URL (province_form vs ev pid), Some html)]
                ++ newd ++ newr).
      split.
      -- now rewrite Nr, Nd, Sp, <- !app_assoc.
      -- apply outcome_app; [reflexivity|]. now apply outcome_app.
    * exists ([(POST BASE_URL (province_form vs ev pid), Some html)]
                ++ newd).
      cbn [fst snd]. split.
      -- now rewrite Nd, Sp, <- !app_assoc.
      -- now apply outcome_app.
  + destruct O as (-> & ->).
    exists [(POST BASE_URL (province_form vs ev pid), None)].
    split; [exact Sp|]. split; [reflexivity|].
    now exists (POST BASE_URL (province_form vs ev pid)), [].
Qed.

(** X14.  How a run ends.  When [scrape] returns, every request of the run
  got a response.  When it raises a transport error, the request that
  failed is the last one sent: the run stops at the first failure.  Any
  other exception is one of the two of the root page, the missing
  province list or the missing state tokens, and is raised before any form
  is submitted. *)
Theorem scrape_outcomes (st : state) :
exists new,
  sent (snd (scrape st)) = sent st ++ new /\
  match fst (scrape st) with
  | Ok _ => forallb answered new = true
  | Raise HTTPError =>
      exists rq log,
        new = log ++ [(rq, None)] /\ forallb answered log = true
  | Raise (Exception msg) =>
      (msg = no_list_message \/ msg = tokens_message) /\
      exists html, new = [(GET BASE_URL, Some html)]
  end.
Proof.
destruct (scrape st) as [r st'] eqn:S. cbn [fst snd].
unfold scrape in S. rewrite bind_print in S.
set (st0 := snd (print _ st)) in S.
assert (S0 : sent st0 = sent st) by reflexivity. clearbody st0.
unfold bind at 1 in S.
destruct (send_outcome (GET BASE_URL) st0) as (resp & Sg & Og).
rewrite S0 in Sg.
destruct (send (GET BASE_URL) st0) as [[html|e] st1];
  cbn [fst snd] in Sg, Og.
- subst resp. unfold bind at 1 in S.
  destruct (get_provinces html) as [provinces|e] eqn:GP.
  + cbn [lift ret] in S. rewrite bind_print in S.
    set (st2 := snd (print _ st1)) in S.
    assert (S2 : sent st2 = sent st ++ [(GET BASE_URL, Some html)])
      by exact Sg.
    clearbody st2.
    destruct (extract_viewstate_and_validation html) as [vs ev].
    destruct (falsy vs || falsy ev).
    * injection S as <- <-. exists [(GET BASE_URL, Some html)].
      split; [exact S2|]. split; [|now exists html].
      right. unfold tokens_message. reflexivity.
    * unfold bind at 1 in S.
      destruct (province_loop_outcome (length provinces) provinces 1 vs ev
                  [] st2) as (new & N & O).
      destruct (province_loop (length provinces) provinces 1 vs ev [] st2)
        as [[out|e] st3]; cbn [fst snd] in N, O.
      -- rewrite bind_print in S. unfold bind at 1 in S.
         cbn [get_total_neighborhoods] in S. rewrite bind_print in S.
         injection S as <- <-.
         exists ([(GET BASE_URL, Some html)] ++ new). split.
         ++ cbn [print snd sent]. now rewrite N, S2, <- app_assoc.
         ++ cbn [forallb app answered snd]. exact O.
      -- injection S as <- <-. destruct O as (-> & rq & log & -> & A).
         exists ([(GET BASE_URL, Some html)] ++ log ++ [(rq, None)]).
         split; [now rewrite N, S2, <- app_assoc|].
         exists rq, ([(GET BASE_URL, Some html)] ++ log).
         split; [now rewrite <- app_assoc | exact A].
  + cbn [lift raise] in S. injection S as <- <-.
    exists [(GET BASE_URL, Some html)]. split; [exact Sg|].
    unfold get_provinces in GP.
    destruct (search (select_pattern province_marker) html)
      as [[[pre rest] cs]|]; [discriminate|].
    injection GP as <-. split; [|now exists html].
    left. unfold no_list_message. reflexivity.
- destruct Og as (-> & ->). injection S as <- <-.
  exists [(GET BASE_URL, None)]. split; [exact Sg|].
  now exists (GET BASE_URL), [].
Qed.

(** X15.  The three failures of the root page are fatal, and each stops
  the run before any form is submitted: a failed request, a page without
  the province list, and a page with the list but without one of the two
  state tokens. *)
Theorem root_page_failures (st : state) :
(fst (http (GET BASE_URL) (world st)) = None ->
 fst (scrape st) = Raise HTTPError /\
 sent (snd (scrape st)) = sent st ++ [(GET BASE_URL, None)]) /\
(forall html,
   fst (http (GET BASE_URL) (world st)) = Some html ->
   ~ has_select_block province_marker html ->
   fst (scrape st) = Raise (Exception no_list_message) /\
   sent (snd (scrape st)) = sent st ++ [(GET BASE_URL, Some html)]) /\
(forall html,
   fst (http (GET BASE_URL) (world st)) = Some html ->
   has_select_block province_marker html ->
   falsy (fst (extract_viewstate_and_validation html))
   || falsy (snd (extract_viewstate_and_validation html)) = true ->
   fst (scrape st) = Raise (Exception tokens_message) /\
   sent (snd (scrape st)) = sent st ++ [(GET BASE_URL, Some html)]).
Proof.
assert (Root : forall r st', scrape st = (r, st') ->
  match fst (http (GET BASE_URL) (world st)) with
  | None => r = Raise HTTPError /\ sent st' = sent st ++ [(GET BASE_URL, None)]
  | Some html =>
      match get_provinces html with
      | Raise e =>
          r = Raise e /\ sent st' = sent st ++ [(GET BASE_URL, Some html)]
      | Ok _ =>
          falsy (fst (extract_viewstate_and_validation html))
          || falsy (snd (extract_viewstate_and_validation html)) = true ->
          r = Raise (Exception tokens_message) /\
          sent st' = sent st ++ [(GET BASE_URL, Some html)]
      end
  end).
{ intros r st' S. unfold scrape in S. rewrite bind_print in S.
  set (st0 := snd (print _ st)) in S.
  assert (S0 : sent st0 = sent st) by reflexivity.
  assert (W0 : world st0 = world st) by reflexivity. clearbody st0.
  unfold bind at 1 in S. unfold send in S. rewrite W0, S0 in S.
  destruct (http (GET BASE_URL) (world st)) as [[html|] w1]; cbn [fst].
  - unfold bind at 1 in S.
    destruct (get_provinces html) as [provinces|e].
    + cbn [lift ret] in S. rewrite bind_print in S.
      destruct (extract_viewstate_and_validation html) as [vs ev].
      cbn [fst snd]. intro F. rewrite F in S. injection S as <- <-.
      split; [unfold tokens_message; reflexivity | reflexivity].
    + cbn [lift raise] in S. injection S as <- <-. split; reflexivity.
  - injection S as <- <-. split; reflexivity. }
destruct (scrape st) as [r st'] eqn:S. specialize (Root r st' eq_refl).
cbn [fst snd]. split; [|split].
- intro H. now rewrite H in Root.
- intros html H N. rewrite H in Root.
  apply get_provinces_raises in N. now rewrite N in Root.
- intros html H B F. rewrite H in Root.
  destruct (get_provinces html) as [provinces|e] eqn:GP; [now apply Root|].
  exfalso. unfold get_provinces in GP.
  destruct (search (select_pattern province_marker) html)
    as [[[pre rest] cs]|] eqn:Se; [discriminate|].
  now apply search_select_none in Se.
Qed.
End Failures.

Lemma scrape_outcomes_witness :
  forallb answered (sent (snd (@scrape sparse_env sparse_state))) = true.
Proof.
  destruct (@scrape_outcomes sparse_env sparse_state) as (new & N & O).
  destruct (fst (@scrape sparse_env sparse_state)) as [out|e] eqn:S;
    [|vm_compute in S; discriminate].
  rewrite N. exact O.
Defined.

Lemma root_page_failures_witness :
  fst (@scrape bare_env bare_state) = Raise (Exception no_list_message) /\
  sent (snd (@scrape bare_env bare_state))
  = sent bare_state ++ [(GET BASE_URL, Some bare_page)].
Proof.
  apply (proj1 (proj2 (@root_page_failures bare_env bare_state)) bare_page).
  - reflexivity.
  - apply marker_absent_no_block. vm_compute. reflexivity.
Defined.

(** ** The status document, in general *)

Lemma restamp_step (date pre ws old post : str) :
  mem c_backslash date = false ->
  forallb is_space ws = true -> mem c_lf ws = true ->
  old <> [] -> forallb (not_char c_lf) old = true ->
  line_ends post = true ->
  no_stamp_in pre ((stamp_heading ++ ws ++ stamp_label) ++ old ++ post)
  = true ->
  restamp date (pre ++ (stamp_heading ++ ws ++ stamp_label) ++ old ++ post)
  = pre ++ (stamp_heading ++ ws ++ stamp_label) ++ u " " ++ date
      ++ restamp date post.
Proof.
  intros D W M O L P B. unfold restamp.
  rewrite sub_before_stamp by exact B. f_equal.
  destruct old as [|c line]; [congruence|].
  cbn [forallb] in L. apply andb_true_iff in L as [Lc Ll].
  unfold re_sub.
  rewrite scan_match_at
    with (m := (stamp_heading ++ ws ++ stamp_label) ++ c :: line)
         (rest := post) (cs := [(1, stamp_heading ++ ws ++ stamp_label)]).
  - rewrite template_expand
      with (g1 := stamp_heading ++ ws ++ stamp_label);
      [|exact D|reflexivity].
    now rewrite <- !app_assoc.
  - rewrite <- stamp_match with (ws := ws) (line := line) (c := c)
      by assumption.
    f_equal. now rewrite <- !app_assoc.
  - apply app_assoc.
  - intro Z. apply app_eq_nil in Z as [_ Z]. discriminate.
Qed.

Section ReadmeGeneral.
Context {E : Env}.

Lemma update_readme_restamp (path doc : str) (st : state) :
files st path = Some (Text doc) ->
fst (update_readme path st) = Ok tt /\
files (snd (update_readme path st)) path
= Some (Text (restamp (formatted_date (clock (world st)))
                (universal_newlines doc))) /\
(forall p, p <> path -> files (snd (update_readme path st)) p = files st p) /\
console (snd (update_readme path st))
= console st ++ [updated_notice (clock (world st))].
Proof.
intro F. destruct (update_readme_found path doc st F) as (R & C & K).
split; [exact R|]. split; [exact C|]. split; [exact K|].
rewrite (update_readme_found_eq path doc st F).
unfold updated_notice. reflexivity.
Qed.

(** X16.  On a status document in UTF-8 without a last-updated stamp
  [update_readme] writes the document back with every carriage return, and
  the line feed after it, turned into one line feed, so it changes no file
  when the document holds no carriage return.  It still reports on the
  console that the date was added. *)
Theorem readme_without_stamp (path doc : str) (st : state) :
files st path = Some (Text doc) ->
no_stamp (universal_newlines doc) = true ->
fst (update_readme path st) = Ok tt /\
files (snd (update_readme path st)) path
= Some (Text (universal_newlines doc)) /\
(forall p, p <> path -> files (snd (update_readme path st)) p = files st p) /\
(mem c_cr doc = false ->
 forall p, files (snd (update_readme path st)) p = files st p) /\
console (snd (update_readme path st))
= console st ++ [updated_notice (clock (world st))].
Proof.
intros F N. destruct (update_readme_restamp path doc st F) as (R & C & K & P).
assert (C' : files (snd (update_readme path st)) path
             = Some (Text (universal_newlines doc))).
{ rewrite C. do 2 f_equal. now apply sub_no_stamp. }
split; [exact R|]. split; [exact C'|]. split; [exact K|]. split; [|exact P].
intros Cr p. destruct (str_eqb p path) eqn:Q.
- apply str_eqb_eq in Q. subst p.
  now rewrite C', F, universal_newlines_plain.
- apply K. now apply str_eqb_neq.
Qed.

(** X17.  [update_readme] rewrites every stamp of the document, not only
  the first one: up to the end of the first stamped line the text it
  read changes as for a single stamp, and the text after that line is
  rewritten in the same way as a document of its own. *)
Theorem every_stamp_rewritten (path doc : str) (st : state)
      (pre ws old post : str) :
files st path = Some (Text doc) ->
universal_newlines doc
= pre ++ (stamp_heading ++ ws ++ stamp_label) ++ old ++ post ->
forallb is_space ws = true -> mem c_lf ws = true ->
old <> [] -> forallb (not_char c_lf) old = true ->
line_ends post = true ->
no_stamp_in pre ((stamp_heading ++ ws ++ stamp_label) ++ old ++ post)
= true ->
files (snd (update_readme path st)) path
= Some (Text (pre ++ (stamp_heading ++ ws ++ stamp_label) ++ u " "
                ++ formatted_date (clock (world st))
                ++ restamp (formatted_date (clock (world st))) post)) /\
forall st2,
  files st2 path = Some (Text post) ->
  clock (world st2) = clock (world st) ->
  files (snd (update_readme path st2)) path
  = Some (Text (restamp (formatted_date (clock (world st))) post)).
Proof.
intros F U W M O L P B.
destruct (update_readme_restamp path _ st F) as (_ & C & _). split.
- rewrite C, U. do 2 f_equal. apply restamp_step; try assumption.
  apply formatted_date_plain.
- intros st2 F2 K.
  destruct (update_readme_restamp path _ st2 F2) as (_ & C2 & _).
  rewrite C2, K. rewrite universal_newlines_plain; [reflexivity|].
  pose proof (universal_newlines_no_cr doc) as Cr. rewrite U in Cr.
  rewrite !mem_app in Cr. repeat apply orb_false_iff in Cr as [_ Cr].
  exact Cr.
Qed.
End ReadmeGeneral.

Lemma readme_without_stamp_witness :
  files (snd (@update_readme stub_env (u "NOTES.md") plain_state))
    (u "NOTES.md") = Some (Text (u "# PTT")) /\
  console (snd (@update_readme stub_env (u "NOTES.md") plain_state))
  = [u "README güncellendi: Son güncelleme tarihi eklendi (15 Ocak 2024, 14:05)"].
Proof.
  destruct (@readme_without_stamp stub_env (u "NOTES.md") (u "# PTT")
              plain_state) as (_ & F & _ & _ & C);
    [vm_compute; reflexivity | vm_compute; reflexivity |].
  split.
  - rewrite F. vm_compute. reflexivity.
  - rewrite C. vm_compute. reflexivity.
Defined.

Lemma every_stamp_rewritten_witness :
  files (snd (@update_readme stub_env (u "README.md") twice_state))
    (u "README.md")
  = Some (Text
            ([35; 32; 80; 84; 84; 10]%N
               ++ (stamp_heading ++ [10; 10]%N ++ stamp_label) ++ u " "
               ++ u "15 Ocak 2024, 14:05" ++ [10]%N ++ u "Veri: PTT" ++ [10]%N
               ++ [35; 32; 80; 84; 84; 10]%N
               ++ (stamp_heading ++ [10; 10]%N ++ stamp_label) ++ u " "
               ++ u "15 Ocak 2024, 14:05" ++ [10]%N ++ u "Veri: PTT"
               ++ [10]%N)).
Proof.
  rewrite (proj1 (@every_stamp_rewritten stub_env (u "README.md")
                    (stub_readme ++ stub_readme) twice_state
                    [35; 32; 80; 84; 84; 10]%N [10; 10]%N
                    (u " 1 Ocak 2020, 00:00")
                    ([10]%N ++ u "Veri: PTT" ++ [10]%N ++ stub_readme)
                    ltac:(vm_compute; reflexivity)
                    ltac:(vm_compute; reflexivity)
                    ltac:(vm_compute; reflexivity)
                    ltac:(vm_compute; reflexivity)
                    ltac:(discriminate)
                    ltac:(vm_compute; reflexivity)
                    ltac:(vm_compute; reflexivity)
                    ltac:(vm_compute; reflexivity))).
  vm_compute. reflexivity.
Defined.

(** ** The saved document and the entry point *)

Lemma json_decode_char (c : char) (rest : str) :
  json_decode (json_escape_char c ++ rest)
  = option_map (cons c) (json_decode rest).
Proof.
  destruct (N.ltb_spec c 32) as [L|L].
  - rewrite <- (N2Nat.id c).
    assert (K : N.to_nat c < 32) by lia.
    set (k := N.to_nat c) in *. clearbody k.
    do 32 (destruct k as [|k]; [reflexivity|]). lia.
  - unfold json_escape_char.
    destruct (N.eqb_spec c 92) as [->|N1]; [reflexivity|].
    destruct (N.eqb_spec c 34) as [->|N2]; [reflexivity|].
    repeat match goal with
           | |- context [N.eqb c ?n] =>
               replace (N.eqb c n) with false
                 by (symmetry; apply N.eqb_neq; lia)
           end.
    replace (N.ltb c 32) with false by (symmetry; apply N.ltb_ge; lia).
    cbn [app json_decode].
    apply N.eqb_neq in N1, N2. now rewrite N1, N2.
Qed.

Lemma json_decode_body (s : str) :
  json_decode (flat_map json_escape_char s ++ [c_dquote]) = Some s.
Proof.
  induction s as [|c s IH]; [reflexivity|].
  cbn [flat_map]. rewrite <- app_assoc, json_decode_char, IH. reflexivity.
Qed.

(** X18.  The string literals of the saved document lose nothing: reading
    a literal back by the rules of JSON gives the string that was
    written, so two different strings never get the same literal. *)
Theorem json_string_read_back (a b : str) :
  json_unquote (json_string a) = Some a /\
  (json_string a = json_string b -> a = b).
Proof.
  assert (R : forall s, json_unquote (json_string s) = Some s).
  { intro s. unfold json_string, json_unquote. cbn [app].
    change (N.eqb c_dquote 34) with true. cbv iota. apply json_decode_body. }
  split; [apply R|]. intro H.
  pose proof (R a) as Ra. rewrite H, R in Ra. now injection Ra.
Qed.

Lemma json_path_joined :
  os_path_join (u "PTT") (u "ptt_il_ilce_mahalle.json") = json_path.
Proof. vm_compute. reflexivity. Qed.

Lemma paths_apart : str_eqb (u "README.md") json_path = false.
Proof. vm_compute. reflexivity. Qed.

Lemma ptt_apart : str_eqb (u "PTT") json_path = false.
Proof. vm_compute. reflexivity. Qed.

Section EntryPoint.
Context {E : Env}.

Lemma files_print (line : str) (st : state) :
files (snd (print line st)) = files st.
Proof. reflexivity. Qed.

Lemma files_send (rq : request) (st : state) :
files (snd (send rq st)) = files st.
Proof.
unfold send. destruct (http rq (world st)) as [[text|] w']; reflexivity.
Qed.

Lemma get_neighborhoods_files (pid did html : str) (st : state) :
files (snd (get_neighborhoods pid did html st)) = files st.
Proof.
unfold get_neighborhoods.
destruct (extract_viewstate_and_validation html) as [vs ev].
destruct (falsy vs || falsy ev); [reflexivity|]. unfold bind.
pose proof (files_send (POST BASE_URL (neighborhood_form vs ev pid did)) st)
  as F.
destruct (send (POST BASE_URL (neighborhood_form vs ev pid did)) st)
  as [[page|e] st1]; cbn [snd] in F; [|exact F].
destruct (search (select_pattern neighborhood_marker) page)
  as [[[pre rest] cs]|]; [|exact F].
match goal with
| |- context [neighborhood_loop ?m [] st1] =>
    destruct (neighborhood_loop_spec m [] st1)
      as (st2 & -> & _ & _ & _ & F2)
end.
cbn [snd]. now rewrite F2.
Qed.

Lemma district_loop_files (pid html : str) (total : nat) :
forall districts index current address_data st,
files (snd (district_loop pid html total districts index current
              address_data st)) = files st.
Proof.
induction districts as [|[did name] districts IH];
  intros index current address_data st; [reflexivity|].
rewrite district_loop_cons.
pose proof (get_neighborhoods_files pid did html
              (snd (print (district_line index total name) st))) as F.
rewrite files_print in F.
destruct (get_neighborhoods pid did html
            (snd (print (district_line index total name) st)))
  as [[hoods|e] st2]; cbn [snd] in F; [|exact F].
now rewrite IH.
Qed.

Lemma province_loop_files (total : nat) :
forall provinces index vs ev address_data st,
files (snd (province_loop total provinces index vs ev address_data st))
= files st.
Proof.
induction provinces as [|[pid name] provinces IH];
  intros index vs ev address_data st; [reflexivity|].
rewrite province_loop_cons.
pose proof (files_send (POST BASE_URL (province_form vs ev pid))
              (snd (print (province_line index total name) st))) as F.
rewrite files_print in F.
destruct (send (POST BASE_URL (province_form vs ev pid))
            (snd (print (province_line index total name) st)))
  as [[html|e] st2]; cbn [snd] in F; [|exact F].
pose proof (district_loop_files pid html (length (get_districts pid html))
              (get_districts pid html) 1
              {| il_id := pid; il_adi := clean_text name; ilceler := [] |}
              address_data (snd (print (districts_line html pid) st2)))
  as Fd.
rewrite files_print in Fd.
destruct (district_loop pid html (length (get_districts pid html))
            (get_districts pid html) 1
            {| il_id := pid; il_adi := clean_text name; ilceler := [] |}
            address_data (snd (print (districts_line html pid) st2)))
  as [[ad1|e] st4]; cbn [snd] in Fd.
- rewrite IH, Fd. exact F.
- cbn [snd]. rewrite Fd. exact F.
Qed.

Lemma scrape_files (st : state) : files (snd (scrape st)) = files st.
Proof.
destruct (scrape st) as [r st'] eqn:S. cbn [snd].
unfold scrape in S. rewrite bind_print in S.
set (st0 := snd (print _ st)) in S.
assert (F0 : files st0 = files st) by reflexivity. clearbody st0.
unfold bind at 1 in S.
pose proof (files_send (GET BASE_URL) st0) as F1.
destruct (send (GET BASE_URL) st0) as [[html|e] st1]; cbn [snd] in F1.
- unfold bind at 1 in S. destruct (get_provinces html) as [provinces|e].
  + cbn [lift ret] in S. rewrite bind_print in S.
    set (st2 := snd (print _ st1)) in S.
    assert (F2 : files st2 = files st) by (rewrite <- F0, <- F1; reflexivity).
    clearbody st2.
    destruct (extract_viewstate_and_validation html) as [vs ev].
    destruct (falsy vs || falsy ev).
    * injection S as _ <-. exact F2.
    * unfold bind at 1 in S.
      pose proof (province_loop_files (length provinces) provinces 1 vs ev
                    [] st2) as F3.
      destruct (province_loop (length provinces) provinces 1 vs ev [] st2)
        as [[out|e] st3]; cbn [snd] in F3.
      -- rewrite bind_print in S. unfold bind at 1 in S.
         cbn [get_total_neighborhoods] in S. rewrite bind_print in S.
         injection S as _ <-. cbn [print snd files]. now rewrite F3.
      -- injection S as _ <-. now rewrite F3.
  + cbn [lift raise] in S. injection S as _ <-. now rewrite F1.
- injection S as _ <-. now rewrite F1.
Qed.

Lemma update_readme_missing (path : str) (st : state) :
files st path = None -> files (snd (update_readme path st)) = files st.
Proof.
intro F. unfold update_readme, bind, path_exists. now rewrite F.
Qed.

Lemma update_readme_unreadable (path message : str) (st : state) :
files st path = Some (Undecodable message) \/
(files st path = Some Directory /\ message = is_a_directory path) ->
update_readme path st = (Raise (Exception message), st).
Proof.
intros [F|[F ->]]; unfold update_readme, bind, path_exists, read_file;
  rewrite F; cbn [negb]; cbv beta; now rewrite F.
Qed.

Lemma makedirs_ready (st : state) :
files st (u "PTT") = None \/ files st (u "PTT") = Some Directory ->
exists st1,
  makedirs (u "PTT") st = (Ok tt, st1) /\
  world st1 = world st /\ console st1 = console st /\
  files st1 (u "PTT") = Some Directory /\
  forall p, p <> u "PTT" -> files st1 p = files st p.
Proof.
intros [F|F]; unfold makedirs; rewrite F.
- exists (with_directory (u "PTT") st).
  cbn [with_directory world console files].
  rewrite str_eqb_refl. repeat split.
  intros p N. apply str_eqb_neq in N. now rewrite N.
- exists st. repeat split. exact F.
Qed.

Lemma makedirs_blocked (st : state) (c : content) :
files st (u "PTT") = Some c -> c <> Directory ->
makedirs (u "PTT") st = (Raise (Exception ptt_exists_message), st).
Proof.
intros F N. unfold makedirs, ptt_exists_message. rewrite F.
destruct c; [reflexivity | reflexivity | contradiction].
Qed.

Lemma save_to_file_eq (data : list province) (filename : str) (st : state) :
save_to_file data filename st
= match makedirs (u "PTT") st with
  | (Ok _, st1) =>
      write_file (os_path_join (u "PTT") filename) (json_dumps data) st1
  | (Raise e, st1) => (Raise e, st1)
  end.
Proof.
unfold save_to_file, bind.
destruct (makedirs (u "PTT") st) as [[[]|e] st1]; reflexivity.
Qed.

Lemma save_to_file_outcome (out : list province) (st : state) :
(files st (u "PTT") = None \/ files st (u "PTT") = Some Directory ->
 (files st json_path <> Some Directory ->
  exists st2,
    save_to_file out (u "ptt_il_ilce_mahalle.json") st = (Ok tt, st2) /\
    world st2 = world st /\ console st2 = console st /\
    files st2 (u "PTT") = Some Directory /\
    files st2 json_path = Some (Text (json_dumps out)) /\
    forall p, p <> u "PTT" -> p <> json_path -> files st2 p = files st p) /\
 (files st json_path = Some Directory ->
  exists st2,
    save_to_file out (u "ptt_il_ilce_mahalle.json") st
    = (Raise (Exception (is_a_directory json_path)), st2) /\
    forall p, p <> u "PTT" -> files st2 p = files st p)) /\
(forall c,
   files st (u "PTT") = Some c -> c <> Directory ->
   save_to_file out (u "ptt_il_ilce_mahalle.json") st
   = (Raise (Exception ptt_exists_message), st)).
Proof.
rewrite save_to_file_eq, json_path_joined. split.
- intro P. destruct (makedirs_ready st P) as (st1 & -> & W & C & D & K).
  assert (J : files st1 json_path = files st json_path).
  { apply K. intro Z. pose proof ptt_apart as A.
    rewrite <- Z, str_eqb_refl in A. discriminate. }
  unfold write_file. rewrite J. split.
  + intro N. exists (store json_path (json_dumps out) st1).
    split.
    { destruct (files st json_path) as [[doc|message|]|];
        [reflexivity | reflexivity | now destruct N | reflexivity]. }
    cbn [store world console files]. rewrite str_eqb_refl, ptt_apart.
    repeat split; try assumption.
    intros p N1 N2. apply str_eqb_neq in N2. rewrite N2. now apply K.
  + intros ->. exists st1. split; [reflexivity | exact K].
- intros c F N. now rewrite (makedirs_blocked st c F N).
Qed.

Lemma main_eq (t : str) (st : state) :
main t st
= match scrape (snd (init st)) with
  | (Ok out, st1) =>
      match save_to_file out (u "ptt_il_ilce_mahalle.json") st1 with
      | (Ok _, st2) =>
          match update_readme (u "README.md")
                  (snd (print saved_notice st2))
          with
          | (Ok a, st4) => (Ok a, st4)
          | (Raise e, st4) => (Raise e, snd (print (error_notice t e) st4))
          end
      | (Raise e, st2) => (Raise e, snd (print (error_notice t e) st2))
      end
  | (Raise e, st1) => (Raise e, snd (print (error_notice t e) st1))
  end.
Proof.
unfold main. unfold bind at 1.
set (s0 := snd (init st)). change (init st) with (Ok tt, s0).
cbv beta iota. unfold try_report. unfold bind at 1.
destruct (scrape s0) as [[out|e] st1]; [|reflexivity].
unfold bind at 1.
destruct (save_to_file out (u "ptt_il_ilce_mahalle.json") st1)
  as [[[]|e] st2]; [|reflexivity].
rewrite bind_print. fold saved_notice.
match goal with
| |- context [update_readme ?p ?s] =>
    destruct (update_readme p s) as [[[]|e] st4]
end; reflexivity.
Qed.

(** X19.  When the run fails, [main] saves nothing: it leaves every file
  as it was, prints one more line, [Hata:] and the text of the exception,
  and raises the exception of the run again. *)
Theorem main_aborts_without_saving (t : str) (st : state) (e : exn) :
fst (scrape (snd (init st))) = Raise e ->
fst (main t st) = Raise e /\
files (snd (main t st)) = files st /\
console (snd (main t st))
= console (snd (scrape (snd (init st)))) ++ [error_notice t e].
Proof.
intro H. rewrite main_eq. pose proof (scrape_files (snd (init st))) as F.
destruct (scrape (snd (init st))) as [[out|e'] st1]; cbn [fst snd] in *;
  [discriminate|].
injection H as ->. split; [reflexivity|]. split; [exact F | reflexivity].
Qed.

(** X20.  When the run returns a tree, [main] makes sure of the directory
  PTT and writes the tree as a JSON document to the file of the tree in
  it, reports it on the console, and then updates the status document.
  With no regular file in the place of the directory, no directory in the
  place of the file of the tree, and a status document that is missing or
  a file in UTF-8, it ends well, the status document holds what
  [update_readme] makes of it, and every other file is as it was.  With a
  regular file in the place of the directory it raises the error of
  [os.makedirs] and changes no file; with a directory in the place of the
  file of the tree it raises the error of [open] and saves nothing; with a
  status document that is a directory or is not in UTF-8 it raises the
  error of reading it after the tree was saved. *)
Theorem main_saves_then_stamps (t : str) (st : state)
      (out : list province) :
fst (scrape (snd (init st))) = Ok out ->
(files st (u "PTT") = None \/ files st (u "PTT") = Some Directory ->
 files st json_path <> Some Directory ->
 files st (u "README.md") = None \/
 (exists doc, files st (u "README.md") = Some (Text doc)) ->
 fst (main t st) = Ok tt /\
 files (snd (main t st)) (u "PTT") = Some Directory /\
 files (snd (main t st)) json_path = Some (Text (json_dumps out)) /\
 files (snd (main t st)) (u "README.md")
 = match files st (u "README.md") with
   | Some (Text doc) =>
       Some (Text
               (restamp
                  (formatted_date
                     (clock (world (snd (scrape (snd (init st)))))))
                  (universal_newlines doc)))
   | other => other
   end /\
 (forall p, p <> u "PTT" -> p <> json_path -> p <> u "README.md" ->
    files (snd (main t st)) p = files st p) /\
 In saved_notice (console (snd (main t st)))) /\
(forall c,
   files st (u "PTT") = Some c -> c <> Directory ->
   fst (main t st) = Raise (Exception ptt_exists_message) /\
   files (snd (main t st)) = files st) /\
(files st (u "PTT") = None \/ files st (u "PTT") = Some Directory ->
 files st json_path = Some Directory ->
 fst (main t st) = Raise (Exception (is_a_directory json_path)) /\
 forall p, p <> u "PTT" -> files (snd (main t st)) p = files st p) /\
(forall message,
   files st (u "PTT") = None \/ files st (u "PTT") = Some Directory ->
   files st json_path <> Some Directory ->
   files st (u "README.md") = Some (Undecodable message) \/
   (files st (u "README.md") = Some Directory /\
    message = is_a_directory (u "README.md")) ->
   fst (main t st) = Raise (Exception message) /\
   files (snd (main t st)) json_path = Some (Text (json_dumps out)) /\
   forall p, p <> u "PTT" -> p <> json_path ->
     files (snd (main t st)) p = files st p).
Proof.
intro H. rewrite main_eq. pose proof (scrape_files (snd (init st))) as F.
destruct (scrape (snd (init st))) as [[out'|e] st1]; cbn [fst snd] in *;
  [|discriminate].
injection H as ->. change (files (snd (init st))) with (files st) in F.
destruct (save_to_file_outcome out st1) as (Sv & Sb). rewrite F in Sv, Sb.
assert (Nj : u "README.md" <> json_path).
{ intro Z. pose proof paths_apart as P. rewrite <- Z, str_eqb_refl in P.
  discriminate. }
assert (Np : u "README.md" <> u "PTT") by discriminate.
assert (After : forall st2,
          world st2 = world st1 -> console st2 = console st1 ->
          files st2 (u "README.md") = files st (u "README.md") ->
          exists st3,
            snd (print saved_notice st2) = st3 /\
            world st3 = world st1 /\
            console st3 = console st1 ++ [saved_notice] /\
            files st3 = files st2 /\
            files st3 (u "README.md") = files st (u "README.md")).
{ intros st2 W C R. eexists. split; [reflexivity|].
  cbn [print snd world console files]. now rewrite W, C. }
split; [|split; [|split]].
- intros Pd Jd Rd.
  destruct (proj1 (Sv Pd) Jd) as (st2 & -> & W2 & C2 & D2 & J2 & K2).
  destruct (After st2 W2 C2) as (st3 & -> & W3 & C3 & F3 & Fr).
  { now apply K2. }
  destruct Rd as [R|(doc & R)]; rewrite R in *.
  + pose proof (update_readme_missing (u "README.md") st3 Fr) as Fm.
    assert (Cn : console (snd (update_readme (u "README.md") st3))
                 = console st3 ++ [missing_notice (u "README.md")]).
    { unfold update_readme, bind, path_exists.
      rewrite Fr. unfold missing_notice. reflexivity. }
    assert (Ok1 : fst (update_readme (u "README.md") st3) = Ok tt).
    { unfold update_readme, bind, path_exists. now rewrite Fr. }
    destruct (update_readme (u "README.md") st3) as [[[]|e] st4];
      cbn [fst snd] in *; [|discriminate].
    rewrite Fm, F3. split; [reflexivity|]. split; [exact D2|].
    split; [exact J2|]. split; [now rewrite <- F3|]. split.
    * intros p N1 N2 _. exact (K2 p N1 N2).
    * rewrite Cn, C3. apply in_or_app. left. apply in_or_app. right.
      now left.
  + destruct (update_readme_restamp (u "README.md") doc st3 Fr)
      as (Ok1 & A & B & Cn).
    destruct (update_readme (u "README.md") st3) as [[[]|e] st4];
      cbn [fst snd] in *; [|discriminate].
    split; [reflexivity|]. split; [|split; [|split; [|split]]].
    * rewrite B, F3 by now apply not_eq_sym. exact D2.
    * rewrite B, F3 by now apply not_eq_sym. exact J2.
    * rewrite A, W3. reflexivity.
    * intros p N1 N2 N3. rewrite (B p N3), F3. exact (K2 p N1 N2).
    * rewrite Cn, C3. apply in_or_app. left. apply in_or_app. right.
      now left.
- intros c Pd Nd. rewrite (Sb c Pd Nd). cbn [fst snd print files].
  split; [reflexivity | exact F].
- intros Pd Jd. destruct (proj2 (Sv Pd) Jd) as (st2 & -> & K2).
  cbn [fst snd print files]. split; [reflexivity|].
  intros p N. exact (K2 p N).
- intros message Pd Jd Rd.
  destruct (proj1 (Sv Pd) Jd) as (st2 & -> & W2 & C2 & D2 & J2 & K2).
  destruct (After st2 W2 C2) as (st3 & -> & W3 & C3 & F3 & Fr).
  { now apply K2. }
  rewrite <- Fr in Rd.
  rewrite (update_readme_unreadable (u "README.md") message st3 Rd).
  cbn [fst snd print files]. rewrite F3. split; [reflexivity|].
  split; [exact J2|]. intros p N1 N2. exact (K2 p N1 N2).
Qed.
End EntryPoint.

Lemma main_aborts_without_saving_witness :
  fst (@main bare_env (u "503 Server Error") bare_state)
  = Raise (Exception no_list_message) /\
  files (snd (@main bare_env (u "503 Server Error") bare_state))
  = files bare_state.
Proof.
  destruct (@main_aborts_without_saving bare_env (u "503 Server Error")
              bare_state (Exception no_list_message)) as (A & B & _);
    [vm_compute; reflexivity|].
  split; [exact A | exact B].
Defined.

Lemma main_saves_then_stamps_witness :
  fst (@main stub_env (u "503 Server Error") stub_state) = Ok tt /\
  files (snd (@main stub_env (u "503 Server Error") stub_state)) json_path
  = Some (Text
            (json_dumps
               (match
                  fst (@scrape stub_env (snd (@init stub_env stub_state)))
                with
                | Ok out => out
                | Raise _ => []
                end))).
Proof.
  destruct (fst (@scrape stub_env (snd (@init stub_env stub_state))))
    as [out|e] eqn:S; [|vm_compute in S; discriminate].
  destruct (proj1 (@main_saves_then_stamps stub_env (u "503 Server Error")
                     stub_state out S)) as (A & _ & B & _).
  - left. vm_compute. reflexivity.
  - intro H. vm_compute in H. discriminate.
  - right. exists stub_readme. vm_compute. reflexivity.
  - split; [exact A | exact B].
Defined.

Lemma forallb_join (p : char -> bool) (sep : str) (l : list str) :
  forallb p sep = true -> (forall w, In w l -> forallb p w = true) ->
  forallb p (join sep l) = true.
Proof.
  intros Hs. induction l as [|w l IH]; intro H; [reflexivity|].
  destruct l as [|w' l].
  - apply H. now left.
  - change (join sep (w :: w' :: l)) with (w ++ sep ++ join sep (w' :: l)).
    rewrite !forallb_app, Hs, H by now left. apply IH.
    intros; apply H; now right.
Qed.

Lemma printable_layout (s : str) :
  forallb printable s = true -> forallb layout_char s = true.
Proof.
  intro H. apply forallb_forall. intros c I. rewrite forallb_forall in H.
  unfold layout_char. rewrite (H c I : N.leb 32 c = true). apply orb_true_r.
Qed.

Lemma json_escape_printable (c : char) :
  forallb printable (json_escape_char c) = true.
Proof.
  destruct (N.ltb_spec c 32) as [L|L].
  - rewrite <- (N2Nat.id c).
    assert (K : N.to_nat c < 32) by lia.
    set (k := N.to_nat c) in *. clearbody k.
    do 32 (destruct k as [|k]; [reflexivity|]). lia.
  - unfold json_escape_char.
    repeat match goal with
           | |- context [N.eqb c ?n] => destruct (N.eqb c n); [reflexivity|]
           end.
    replace (N.ltb c 32) with false by (symmetry; apply N.ltb_ge; lia).
    cbn [forallb]. unfold printable. rewrite andb_true_r. now apply N.leb_le.
Qed.

Lemma json_string_printable (s : str) :
  forallb printable (json_string s) = true.
Proof.
  unfold json_string. rewrite !forallb_app. cbn [forallb].
  change (printable c_dquote) with true. cbn [andb]. rewrite andb_true_r.
  apply forallb_flat_map. intros c _. apply json_escape_printable.
Qed.

Lemma newline_indent_layout (level : nat) :
  forallb layout_char (newline_indent level) = true.
Proof.
  unfold newline_indent. cbn [forallb].
  change (layout_char c_lf) with true. cbn [andb].
  induction (2 * level) as [|n IH]; [reflexivity|]. cbn [repeat forallb].
  now rewrite IH.
Qed.

Lemma separator_layout (level : nat) :
  forallb layout_char (u "," ++ newline_indent level) = true.
Proof.
  rewrite forallb_app, newline_indent_layout. reflexivity.
Qed.

Lemma json_list_layout (level : nat) (items : list str) :
  (forall w, In w items -> forallb layout_char w = true) ->
  forallb layout_char (json_list level items) = true.
Proof.
  intro H. destruct items as [|w items]; [reflexivity|].
  unfold json_list. rewrite !forallb_app, !newline_indent_layout.
  rewrite forallb_join by (exact H || apply separator_layout). reflexivity.
Qed.

Lemma json_dict_layout (level : nat) (items : list (str * str)) :
  (forall kv, In kv items -> forallb layout_char (snd kv) = true) ->
  forallb layout_char (json_dict level items) = true.
Proof.
  intro H. destruct items as [|kv items]; [reflexivity|].
  unfold json_dict. rewrite !forallb_app, !newline_indent_layout.
  rewrite forallb_join; [reflexivity | apply separator_layout |].
  intros w I. apply in_map_iff in I as (x & <- & I). cbv beta.
  rewrite !forallb_app. apply andb_true_iff.
  split; [apply printable_layout, json_string_printable|].
  apply andb_true_iff. split; [reflexivity | exact (H x I)].
Qed.

(** X21.  A saved document holds no control character other than the line
    feeds of its layout: every string literal stands on one line. *)
Theorem json_document_layout (data : list province) :
  forallb layout_char (json_dumps data) = true.
Proof.
  assert (S : forall s, forallb layout_char (json_string s) = true).
  { intro s. apply printable_layout, json_string_printable. }
  assert (N : forall l n, forallb layout_char (json_neighborhood l n) = true).
  { intros l n. apply json_dict_layout.
    intros kv [<-|[<-|[<-|[]]]]; cbn [snd]; try apply S.
    destruct (posta_kodu n); [apply S | reflexivity]. }
  assert (D : forall l d, forallb layout_char (json_district l d) = true).
  { intros l d. apply json_dict_layout.
    intros kv [<-|[<-|[<-|[]]]]; cbn [snd]; try apply S.
    apply json_list_layout. intros w I.
    apply in_map_iff in I as (x & <- & _). apply N. }
  unfold json_dumps. apply json_list_layout. intros w I.
  apply in_map_iff in I as (p & <- & _). apply json_dict_layout.
  intros kv [<-|[<-|[<-|[]]]]; cbn [snd]; try apply S.
  apply json_list_layout. intros w I.
  apply in_map_iff in I as (x & <- & _). apply D.
Qed.
